(** * Mahjong score keeper: the match state machine of [store/gameStore.ts]

    A shallow embedding of the zustand store of the mobile client
    ([src/mobile/src/store/gameStore.ts]) together with the payment
    computation of the score sheet ([src/mobile/src/modals/ScoreModal.tsx]),
    and the properties of the session ledger proved over it.

    Conventions of the embedding.
    - A JavaScript [number] that only ever holds an integer (scores, honba,
      bet counts, payments) is a [Z].  The two fields that receive the result
      of [%] ([dealerIndex], [currentRoundNumber]) are a [number], which adds
      [NaN]: [x % 0] is [NaN] in JavaScript.
    - [Record<string, number>] is a [gmap string Z]; a missing key reads as
      [undefined], i.e. [None].
    - [boolean[]] is a [list (option bool)]: [None] is a hole or [undefined],
      which a write past the end of a JavaScript array leaves behind.
    - A store action is a function from the store state to the next state;
      [set] merges the fields it is given into the state.  An action that can
      throw returns a [result]. *)

From Stdlib Require Import ZArith List Lia.
From stdpp Require Import base gmap list strings fin_maps sorting.

Local Open Scope Z_scope.

(** ** JavaScript values *)

(** An integer-valued JavaScript number, or [NaN]. *)
Inductive number :=
  | Int (z : Z)
  | NaN.

#[global] Instance number_eq_dec : EqDecision number.
Proof. solve_decision. Defined.

(** [a + b] *)
Definition js_add (a b : number) : number :=
  match a, b with
  | Int x, Int y => Int (x + y)
  | _, _ => NaN
  end.

(** [a - b] *)
Definition js_sub (a b : number) : number :=
  match a, b with
  | Int x, Int y => Int (x - y)
  | _, _ => NaN
  end.

(** [a % b]: the remainder takes the sign of the dividend, and [x % 0] is
    [NaN]. *)
Definition js_rem (a b : number) : number :=
  match a, b with
  | Int x, Int y => if y =? 0 then NaN else Int (Z.rem x y)
  | _, _ => NaN
  end.

(** [a === b] on numbers: [NaN] is equal to nothing. *)
Definition js_eq (a b : number) : bool :=
  match a, b with
  | Int x, Int y => x =? y
  | _, _ => false
  end.

(** [arr[i]] for a number [i]: [undefined] unless [i] is an index of [arr]. *)
Definition js_index {A} (arr : list A) (i : number) : option A :=
  match i with
  | Int z => if z <? 0 then None else arr !! Z.to_nat z
  | NaN => None
  end.

(** Truthiness of [arr[i]] for a [boolean[]]. *)
Definition truthy (v : option (option bool)) : bool :=
  match v with
  | Some (Some true) => true
  | _ => false
  end.

(** [arr[i] = v] on a copy of [arr]: in range the element is replaced; past
    the end the array grows and the skipped positions are holes. *)
Definition array_set {A} (arr : list (option A)) (i : nat) (v : A)
    : list (option A) :=
  if decide (i < length arr)%nat then <[i := Some v]> arr
  else arr ++ replicate (i - length arr) None ++ [Some v].

(** [new Array(count).fill(v)] *)
Definition array_fill {A} (count : nat) (v : A) : list (option A) :=
  replicate count (Some v).

(** The outcome of a call that may throw a [TypeError] (a property read on
    [undefined]). *)
Inductive result (A : Type) :=
  | Ok (a : A)
  | TypeError.
Arguments Ok {A} a.
Arguments TypeError {A}.

(** ** Data model ([types/index.ts]) *)

Inductive SeatWind := East | South | West | North.

#[global] Instance SeatWind_eq_dec : EqDecision SeatWind.
Proof. solve_decision. Defined.

(** ['East' | 'South'], the type of [currentRoundWind]. *)
Inductive RoundWind := EastRound | SouthRound.

#[global] Instance RoundWind_eq_dec : EqDecision RoundWind.
Proof. solve_decision. Defined.

Inductive Phase := setup | playing | finished.

#[global] Instance Phase_eq_dec : EqDecision Phase.
Proof. solve_decision. Defined.

(** [seatWind] is [None] when it was read from [WINDS] past its end. *)
Record Player := {
  id : string;
  name : string;
  iconId : string;
  seatWind : option SeatWind;
  score : Z;
  isDealer : bool;
}.

Record YakuItem := {
  code : string;
  name_zh : string;
  name_en : string;
  yaku_han : Z;
  is_yakuman : bool;
}.

(** [Omit<Round, 'roundNumber' | 'roundWind' | 'honba' | 'riichiBets'>], the
    argument of [recordWin]. *)
Record RoundOutcome := {
  winnerId : option string;
  loserId : option string;
  isTsumo : bool;
  isDraw : bool;
  tenpaiPlayerIds : list string;
  yakuList : list YakuItem;
  han : Z;
  fu : Z;
  payments : gmap string Z;
}.

Module Round.
Record t := {
  roundNumber : number;
  roundWind : RoundWind;
  honba : Z;
  riichiBets : Z;
  outcome : RoundOutcome;
}.
End Round.

Record GameStore := {
  phase : Phase;
  players : list Player;
  startingScore : Z;
  rounds : list Round.t;
  currentRoundNumber : number;
  currentRoundWind : RoundWind;
  honba : Z;
  riichiBets : Z;
  playerRiichi : list (option bool);
  dealerIndex : number;
}.

(** [{ ...p, score: v }] *)
Definition with_score (p : Player) (v : Z) : Player :=
  {| id := id p; name := name p; iconId := iconId p;
     seatWind := seatWind p; score := v; isDealer := isDealer p |}.

(** [{ ...p, isDealer: d, seatWind: w }] *)
Definition with_seat (p : Player) (d : bool) (w : option SeatWind) : Player :=
  {| id := id p; name := name p; iconId := iconId p;
     seatWind := w; score := score p; isDealer := d |}.

(** ** Seat wind helpers *)

Definition WINDS : list SeatWind := [East; South; West; North].

Definition seatWindOf (playerIdx dealerIdx count : number) : option SeatWind :=
  let offset := js_rem (js_add (js_sub playerIdx dealerIdx) count) count in
  js_index WINDS offset.

(** ** Settlement calculator *)

(** [const payments = {}; players.forEach(p => { payments[p.id] = 0; })] *)
Definition zero_payments (ps : list Player) : gmap string Z :=
  foldl (λ m p, <[id p := 0]> m) ∅ ps.

(** [ids.forEach(id => { payments[id] = v; })] *)
Definition assign_all (v : Z) (ids : list string) (m : gmap string Z)
    : gmap string Z :=
  foldl (λ m i, <[i := v]> m) m ids.

(** [Math.floor(3000 / n)] is [3000 / n] for a positive [n].  For [n = 0]
    JavaScript computes [Infinity]; the function never stores that value:
    [receivePerTenpai] is computed only after [tenpaiCount === 0] returned,
    and [payPerNoten] is assigned to the identifiers of [notenIds], of which
    there are none when [notenCount] is [0]. *)
Definition computeDrawPayments (ps : list Player) (tenpaiPlayerIds : list string)
    : gmap string Z :=
  let payments := zero_payments ps in
  let tenpaiCount := Z.of_nat (length tenpaiPlayerIds) in
  let playerCount := Z.of_nat (length ps) in
  let notenIds := filter (λ i, i ∉ tenpaiPlayerIds) (id <$> ps) in
  let notenCount := Z.of_nat (length notenIds) in
  if (tenpaiCount =? 0) || (tenpaiCount =? playerCount) then payments
  else
    let receivePerTenpai := 3000 / tenpaiCount in
    let payPerNoten := 3000 / notenCount in
    let payments := assign_all receivePerTenpai tenpaiPlayerIds payments in
    let payments := assign_all (- payPerNoten) notenIds payments in
    payments.

(** One iteration of the [forEach] of [computeTsumoPayments]; the state is
    the mapping and the running [collected]. *)
Definition tsumo_step (winnerId : string) (winnerIsDealer : bool)
    (dealerPayment nonDealerPayment : Z)
    (acc : gmap string Z * Z) (p : Player) : gmap string Z * Z :=
  if decide (id p = winnerId) then acc
  else if winnerIsDealer then
    (<[id p := - dealerPayment]> (acc.1), acc.2 + dealerPayment)
  else
    let pays := if isDealer p then dealerPayment else nonDealerPayment in
    (<[id p := - pays]> (acc.1), acc.2 + pays).

(** [players.find(p => p.id === winnerId)] *)
Definition find_player (ps : list Player) (winnerId : string) : option Player :=
  List.find (λ p, bool_decide (id p = winnerId)) ps.

(** [winner.isDealer] throws when no player has the identifier [winnerId]. *)
Definition computeTsumoPayments (ps : list Player) (winnerId : string)
    (dealerPayment nonDealerPayment totalPoints : Z)
    : result (gmap string Z) :=
  let payments := zero_payments ps in
  match find_player ps winnerId with
  | None => TypeError
  | Some winner =>
      let winnerIsDealer := isDealer winner in
      let acc :=
        foldl (tsumo_step winnerId winnerIsDealer dealerPayment nonDealerPayment)
              (payments, 0) ps in
      Ok (<[winnerId := acc.2]> (acc.1))
  end.

(** The payment mapping of the score sheet ([ScoreModal.tsx], "Compute
    payments"), which is the mapping handed to [recordWin].  [is_winning],
    [dealer_payment], [non_dealer_payment] and [total_points] are fields of
    the response of the scoring service. *)

(** One iteration of the [forEach] of the self-draw branch. *)
Definition sheet_step (winnerId : string) (winnerIsDealer : bool)
    (dealer_payment non_dealer_payment : Z)
    (m : gmap string Z) (p : Player) : gmap string Z :=
  if decide (id p = winnerId) then m
  else
    let pays := if winnerIsDealer || isDealer p
                then dealer_payment else non_dealer_payment in
    <[id p := - pays]> m.

(** [if (loserId)]: neither [null] nor the empty string. *)
Definition truthy_id (i : option string) : option string :=
  match i with
  | Some k => if decide (k = "") then None else Some k
  | None => None
  end.

Definition scoreSheetPayments (ps : list Player) (winnerId : string)
    (loserId : option string) (isTsumo is_winning : bool)
    (dealer_payment non_dealer_payment total_points : Z)
    : result (gmap string Z) :=
  let winner := find_player ps winnerId in
  let payments := zero_payments ps in
  if is_winning then
    if isTsumo then
      match winner with
      | None => TypeError
      | Some winner =>
          let winnerIsDealer := isDealer winner in
          let payments :=
            foldl (sheet_step winnerId winnerIsDealer
                     dealer_payment non_dealer_payment) payments ps in
          let totalIn :=
            foldl (λ sum p, sum + Z.abs (default 0 (payments !! id p))) 0
                  (filter (λ p, id p ≠ winnerId) ps) in
          Ok (<[winnerId := totalIn]> payments)
      end
    else
      match truthy_id loserId with
      | Some l =>
          Ok (<[winnerId := total_points]> (<[l := - total_points]> payments))
      | None => Ok payments
      end
  else Ok payments.

(** ** Store actions *)

Definition initial_store : GameStore :=
  {| phase := setup; players := []; startingScore := 25000; rounds := [];
     currentRoundNumber := Int 1; currentRoundWind := EastRound; honba := 0;
     riichiBets := 0; playerRiichi := []; dealerIndex := Int 0 |}.

(** [initGame] sets every field of the store; it reads neither the phase
    nor the number of players. *)
Definition initGame (s : GameStore) (ps : list Player) (startingScore : Z)
    : GameStore :=
  let count := length ps in
  let initialised :=
    imap (λ i p,
      {| id := id p; name := name p; iconId := iconId p;
         seatWind := WINDS !! i; score := startingScore;
         isDealer := bool_decide (i = 0%nat) |}) ps in
  {| phase := playing;
     players := initialised;
     startingScore := startingScore;
     rounds := [];
     currentRoundNumber := Int 1;
     currentRoundWind := EastRound;
     honba := 0;
     riichiBets := 0;
     playerRiichi := array_fill count false;
     dealerIndex := Int 0 |}.

(** [playerIndex] is an array index: the position of the player card that
    was pressed. *)
Definition declareRiichi (s : GameStore) (playerIndex : nat) : GameStore :=
  if truthy (playerRiichi s !! playerIndex) then s
  else
    let updatedPlayers :=
      imap (λ i p, if decide (i = playerIndex)
                   then with_score p (score p - 1000) else p) (players s) in
    let updatedRiichi := array_set (playerRiichi s) playerIndex true in
    {| phase := phase s;
       players := updatedPlayers;
       startingScore := startingScore s;
       rounds := rounds s;
       currentRoundNumber := currentRoundNumber s;
       currentRoundWind := currentRoundWind s;
       honba := honba s;
       riichiBets := riichiBets s + 1;
       playerRiichi := updatedRiichi;
       dealerIndex := dealerIndex s |}.

Definition undoRiichi (s : GameStore) (playerIndex : nat) : GameStore :=
  if negb (truthy (playerRiichi s !! playerIndex)) then s
  else
    let updatedPlayers :=
      imap (λ i p, if decide (i = playerIndex)
                   then with_score p (score p + 1000) else p) (players s) in
    let updatedRiichi := array_set (playerRiichi s) playerIndex false in
    {| phase := phase s;
       players := updatedPlayers;
       startingScore := startingScore s;
       rounds := rounds s;
       currentRoundNumber := currentRoundNumber s;
       currentRoundWind := currentRoundWind s;
       honba := honba s;
       riichiBets := Z.max 0 (riichiBets s - 1);
       playerRiichi := updatedRiichi;
       dealerIndex := dealerIndex s |}.

(** [players.map(p => ({ ...p, score: p.score + (payments[p.id] ?? 0) }))] *)
Definition apply_payments (pay : gmap string Z) (ps : list Player)
    : list Player :=
  (λ p, with_score p (score p + default 0 (pay !! id p))) <$> ps.

(** The rotation shared by [recordWin] (non-dealer win) and [recordDraw]
    (dealer not tenpai): the next dealer index, round number, round wind and
    phase. *)
Definition rotate (dealerIdx : number) (count : nat)
    (roundNumber : number) (roundWind : RoundWind)
    : number * number * RoundWind * Phase :=
  let newDealerIndex := js_rem (js_add dealerIdx (Int 1)) (Int (Z.of_nat count)) in
  if js_eq newDealerIndex (Int 0) then
    match roundWind with
    | EastRound => (newDealerIndex, Int 1, SouthRound, playing)
    | SouthRound => (newDealerIndex, roundNumber, roundWind, finished)
    end
  else (newDealerIndex, js_add newDealerIndex (Int 1), roundWind, playing).

(** [updatedPlayers.map((p, i) => ({ ...p, isDealer: i === newDealerIndex,
    seatWind: seatWindOf(i, newDealerIndex, count) }))] *)
Definition reassign (newDealerIndex : number) (count : nat) (ps : list Player)
    : list Player :=
  imap (λ i p,
    with_seat p (js_eq (Int (Z.of_nat i)) newDealerIndex)
      (seatWindOf (Int (Z.of_nat i)) newDealerIndex (Int (Z.of_nat count)))) ps.

(** [const winner = players.find(p => p.id === round.winnerId);
    const winnerIsDealer = winner?.isDealer ?? false;]  A [null] identifier
    is the identifier of no player. *)
Definition winnerIsDealer (ps : list Player) (round : RoundOutcome) : bool :=
  let winner :=
    match winnerId round with
    | Some w => find_player ps w
    | None => None
    end in
  match winner with
  | Some p => isDealer p
  | None => false
  end.

Definition recordWin (s : GameStore) (round : RoundOutcome) : GameStore :=
  let fullRound :=
    {| Round.roundNumber := currentRoundNumber s;
       Round.roundWind := currentRoundWind s;
       Round.honba := honba s;
       Round.riichiBets := riichiBets s;
       Round.outcome := round |} in
  let updatedPlayers := apply_payments (payments round) (players s) in
  let count := length (players s) in
  let '(newDealerIndex, newRoundNumber, newRoundWind, newHonba, newPhase) :=
    if winnerIsDealer (players s) round then
      (dealerIndex s, currentRoundNumber s, currentRoundWind s, honba s + 1,
       playing)
    else
      let '(d, n, w, ph) :=
        rotate (dealerIndex s) count (currentRoundNumber s)
               (currentRoundWind s) in
      (d, n, w, 0, ph) in
  let reassigned := reassign newDealerIndex count updatedPlayers in
  {| phase := newPhase;
     players := reassigned;
     startingScore := startingScore s;
     rounds := fullRound :: rounds s;
     currentRoundNumber := newRoundNumber;
     currentRoundWind := newRoundWind;
     honba := newHonba;
     riichiBets := 0;
     playerRiichi := array_fill count false;
     dealerIndex := newDealerIndex |}.

(** [players[dealerIndex].id] throws when [dealerIndex] is not an index of
    [players]; nothing has been written to the store at that point. *)
Definition recordDraw (s : GameStore) (tenpaiPlayerIds : list string)
    : result GameStore :=
  let pay := computeDrawPayments (players s) tenpaiPlayerIds in
  let fullRound :=
    {| Round.roundNumber := currentRoundNumber s;
       Round.roundWind := currentRoundWind s;
       Round.honba := honba s;
       Round.riichiBets := riichiBets s;
       Round.outcome :=
         {| winnerId := None; loserId := None; isTsumo := false;
            isDraw := true; tenpaiPlayerIds := tenpaiPlayerIds;
            yakuList := []; han := 0; fu := 0; payments := pay |} |} in
  let updatedPlayers := apply_payments pay (players s) in
  let count := length (players s) in
  match js_index (players s) (dealerIndex s) with
  | None => TypeError
  | Some dealer =>
      let dealerIsTenpai := bool_decide (id dealer ∈ tenpaiPlayerIds) in
      let '(newDealerIndex, newRoundNumber, newRoundWind, newPhase) :=
        if negb dealerIsTenpai then
          rotate (dealerIndex s) count (currentRoundNumber s)
                 (currentRoundWind s)
        else
          (dealerIndex s, currentRoundNumber s, currentRoundWind s, playing) in
      let reassigned := reassign newDealerIndex count updatedPlayers in
      Ok {| phase := newPhase;
            players := reassigned;
            startingScore := startingScore s;
            rounds := fullRound :: rounds s;
            currentRoundNumber := newRoundNumber;
            currentRoundWind := newRoundWind;
            honba := honba s + 1;
            riichiBets := riichiBets s;
            playerRiichi := array_fill count false;
            dealerIndex := newDealerIndex |}
  end.

Definition endGame (s : GameStore) : GameStore :=
  {| phase := finished;
     players := players s;
     startingScore := startingScore s;
     rounds := rounds s;
     currentRoundNumber := currentRoundNumber s;
     currentRoundWind := currentRoundWind s;
     honba := honba s;
     riichiBets := riichiBets s;
     playerRiichi := playerRiichi s;
     dealerIndex := dealerIndex s |}.

Definition resetGame (s : GameStore) : GameStore :=
  {| phase := setup;
     players := [];
     startingScore := startingScore s;
     rounds := [];
     currentRoundNumber := Int 1;
     currentRoundWind := EastRound;
     honba := 0;
     riichiBets := 0;
     playerRiichi := [];
     dealerIndex := Int 0 |}.

(** Selectors. *)
Definition selectDealer (s : GameStore) : option Player :=
  js_index (players s) (dealerIndex s).

(** ** Measures used by the statements *)

(** [sum(player.score)] *)
Definition sum_scores (ps : list Player) : Z :=
  foldr (λ p acc, score p + acc) 0 ps.

(** The sum of the values of a payment mapping. *)
Definition sum_payments (m : gmap string Z) : Z :=
  map_fold (λ _ v acc, v + acc) 0 m.

(** The sum of [f k] over the identifiers [k] of a list. *)
Definition sum_over (f : string → Z) (ids : list string) : Z :=
  foldr (λ k acc, f k + acc) 0 ids.

(** The conservation law of the ledger. *)
Definition conserved (s : GameStore) : Prop :=
  sum_scores (players s) + 1000 * riichiBets s
  = Z.of_nat (length (players s)) * startingScore s.

(** ** Seating, phases and sessions *)

(** The players are seated around dealer [d]: the flag marks position [d]
    and each seat wind is the entry of [WINDS] at the offset from the
    dealer. *)
Definition seated (d : nat) (ps : list Player) : Prop :=
  ∀ i p, ps !! i = Some p →
    isDealer p = bool_decide (i = d)
    ∧ is_Some (seatWind p)
    ∧ seatWind p
      = WINDS !! Z.to_nat ((Z.of_nat i - Z.of_nat d + Z.of_nat (length ps))
                           mod Z.of_nat (length ps)).

(** The dealer invariant of a running session. *)
Definition dealer_invariant (s : GameStore) : Prop :=
  ∃ d : nat,
    dealerIndex s = Int (Z.of_nat d)
    ∧ 0 ≤ Z.of_nat d < Z.of_nat (length (players s))
    ∧ length (filter (λ p, isDealer p = true) (players s)) = 1%nat
    ∧ (∃ p, selectDealer s = Some p ∧ isDealer p = true)
    ∧ seated d (players s).

(** The states of a session: a store initialised with three or four players,
    and whatever the actions make of it until it is reset. *)
Inductive session : GameStore → Prop :=
  | session_initGame s ps startingScore :
      length ps = 3%nat ∨ length ps = 4%nat →
      session (initGame s ps startingScore)
  | session_declareRiichi s playerIndex :
      session s → session (declareRiichi s playerIndex)
  | session_undoRiichi s playerIndex :
      session s → session (undoRiichi s playerIndex)
  | session_recordWin s round :
      session s → session (recordWin s round)
  | session_recordDraw s tenpai s' :
      session s → recordDraw s tenpai = Ok s' → session s'
  | session_endGame s :
      session s → session (endGame s).

(** What the proofs carry along: the table size, the dealer index and the
    seating. *)
Definition table_ok (s : GameStore) : Prop :=
  (length (players s) = 3%nat ∨ length (players s) = 4%nat)
  ∧ ∃ d : nat, dealerIndex s = Int (Z.of_nat d)
      ∧ (d < length (players s))%nat
      ∧ seated d (players s).

(** The order of the phases: setup, playing, finished. *)
Definition phase_rank (ph : Phase) : nat :=
  match ph with
  | setup => 0
  | playing => 1
  | finished => 2
  end.

(** [a] is [b] or comes before it in setup, playing, finished. *)
Definition phase_le (a b : Phase) : Prop := (phase_rank a ≤ phase_rank b)%nat.

(** ** Settlements *)

(** What a non-winning player [p] owes on a self-draw. *)
Definition tsumo_pays (winnerIsDealer : bool) (dealerPayment nonDealerPayment : Z)
    (p : Player) : Z :=
  if winnerIsDealer then dealerPayment
  else if isDealer p then dealerPayment else nonDealerPayment.

(** The sum of what the players other than [winnerId] owe. *)
Definition outgoing (winnerId : string) (winnerIsDealer : bool)
    (dealerPayment nonDealerPayment : Z) (ps : list Player) : Z :=
  foldr (λ p acc,
    (if decide (id p = winnerId) then 0
     else tsumo_pays winnerIsDealer dealerPayment nonDealerPayment p) + acc)
    0 ps.

(** A payment mapping built by the settlement rules for the players [ps]: a
    self-draw settled by [computeTsumoPayments], or a ron in which the loser,
    another player, pays [totalPoints] to the winner. *)
Inductive settlement (ps : list Player) : gmap string Z → Prop :=
  | settlement_tsumo w dealerPayment nonDealerPayment totalPoints pay :
      computeTsumoPayments ps w dealerPayment nonDealerPayment totalPoints
        = Ok pay →
      settlement ps pay
  | settlement_ron w l totalPoints :
      w ∈ id <$> ps → l ∈ id <$> ps → w ≠ l →
      settlement ps (<[w := totalPoints]> (<[l := - totalPoints]>
                       (zero_payments ps))).

(** The sessions in which no bet is declared: three or four players with
    distinct identifiers, wins settled by the settlement rules, draws with a
    tenpai set of players. *)
Inductive settled_session : GameStore → Prop :=
  | settled_initGame s ps startingScore :
      length ps = 3%nat ∨ length ps = 4%nat → NoDup (id <$> ps) →
      settled_session (initGame s ps startingScore)
  | settled_recordWin s round :
      settled_session s → settlement (players s) (payments round) →
      settled_session (recordWin s round)
  | settled_recordDraw s tenpai s' :
      settled_session s → NoDup tenpai →
      (∀ k, k ∈ tenpai → k ∈ id <$> players s) →
      recordDraw s tenpai = Ok s' → settled_session s'.

(** ** Sample data *)

(** Sample players, with the identifiers the setup screen generates. *)
Definition sample_player (i : string) (w : SeatWind) : Player :=
  {| id := i; name := i; iconId := "icon"; seatWind := Some w;
     score := 25000; isDealer := bool_decide (w = East) |}.

Definition four_players : list Player :=
  [sample_player "player-0" East; sample_player "player-1" South;
   sample_player "player-2" West; sample_player "player-3" North].

Definition two_players : list Player :=
  [sample_player "player-0" East; sample_player "player-1" South].

(** A session as the setup screen starts it: four players at 25000. *)
Definition sample_session : GameStore :=
  initGame initial_store four_players 25000.

(** A ron of 3900 points, [player-2] winning off [player-0], as the score
    sheet builds the mapping. *)
Definition sample_ron : RoundOutcome :=
  {| winnerId := Some "player-2"; loserId := Some "player-0";
     isTsumo := false; isDraw := false; tenpaiPlayerIds := [];
     yakuList := []; han := 3; fu := 30;
     payments := <["player-2" := 3900]> (<["player-0" := -3900]>
                   (zero_payments four_players)) |}.

(** A ron of 5800 points, the dealer [player-0] winning off [player-2]. *)
Definition sample_dealer_ron : RoundOutcome :=
  {| winnerId := Some "player-0"; loserId := Some "player-2";
     isTsumo := false; isDraw := false; tenpaiPlayerIds := [];
     yakuList := []; han := 3; fu := 30;
     payments := <["player-0" := 5800]> (<["player-2" := -5800]>
                   (zero_payments four_players)) |}.

(** ** Bets, steps and the ledger *)

(** The number of bet-declared flags that are set. *)
Definition declared_count (flags : list (option bool)) : nat :=
  length (filter (λ v, truthy (Some v) = true) flags).

(** The pool never holds fewer bets than there are flags set. *)
Definition pool_covers_flags (s : GameStore) : Prop :=
  Z.of_nat (declared_count (playerRiichi s)) ≤ riichiBets s.

(** The action both branches of [handleLongPress] ([GameScreen.tsx]) run once
    the player confirms:
    [if (hasRiichi) undoRiichi(playerIndex); else declareRiichi(playerIndex);]
    with [hasRiichi = playerRiichi[playerIndex]]. *)
Definition toggleRiichi (s : GameStore) (playerIndex : nat) : GameStore :=
  let hasRiichi := truthy (playerRiichi s !! playerIndex) in
  if hasRiichi then undoRiichi s playerIndex else declareRiichi s playerIndex.

(** One action of the store on a running match: every action but [initGame]
    and [resetGame]. *)
Inductive step : GameStore → GameStore → Prop :=
  | step_declareRiichi s playerIndex : step s (declareRiichi s playerIndex)
  | step_undoRiichi s playerIndex : step s (undoRiichi s playerIndex)
  | step_recordWin s round : step s (recordWin s round)
  | step_recordDraw s tenpai s' : recordDraw s tenpai = Ok s' → step s s'
  | step_endGame s : step s (endGame s).

(** The bets the recorded wins found on the table: the [riichiBets] field of
    every round of the history that is not a draw. *)
Definition claimed_bets (history : list Round.t) : Z :=
  foldr (λ r acc,
    (if isDraw (Round.outcome r) then 0 else Round.riichiBets r) + acc)
    0 history.

(** The ledger of a match: scores, the pool, and the bets the recorded wins
    found on the table. *)
Definition ledger_balanced (s : GameStore) : Prop :=
  sum_scores (players s) + 1000 * riichiBets s
  + 1000 * claimed_bets (rounds s)
  = Z.of_nat (length (players s)) * startingScore s.

(** A match as the screens play it: three or four players with distinct
    identifiers; bets declared and retracted by players of the table; wins
    settled by the settlement rules and recorded as wins; draws with a
    tenpai set of players. *)
Inductive played : GameStore → Prop :=
  | played_initGame s ps startingScore :
      length ps = 3%nat ∨ length ps = 4%nat → NoDup (id <$> ps) →
      played (initGame s ps startingScore)
  | played_declareRiichi s playerIndex :
      played s → (playerIndex < length (players s))%nat →
      played (declareRiichi s playerIndex)
  | played_undoRiichi s playerIndex :
      played s → (playerIndex < length (players s))%nat →
      played (undoRiichi s playerIndex)
  | played_recordWin s round :
      played s → settlement (players s) (payments round) →
      isDraw round = false →
      played (recordWin s round)
  | played_recordDraw s tenpai s' :
      played s → NoDup tenpai →
      (∀ k, k ∈ tenpai → k ∈ id <$> players s) →
      recordDraw s tenpai = Ok s' → played s'
  | played_endGame s :
      played s → played (endGame s).

(** The round number is in range and follows the dealer: it is the dealer's
    seat plus one, except after the rotation that ended the South round,
    which leaves the last round number beside dealer seat 0. *)
Definition round_in_range (s : GameStore) : Prop :=
  ∃ d n : Z,
    dealerIndex s = Int d
    ∧ currentRoundNumber s = Int n
    ∧ 1 ≤ n ≤ Z.of_nat (length (players s))
    ∧ (n = d + 1
       ∨ (d = 0 ∧ n = Z.of_nat (length (players s))
          ∧ currentRoundWind s = SouthRound)).

(** What identifies the players of a table, in seating order. *)
Definition roster (ps : list Player) : list (string * string * string) :=
  (λ p, (id p, name p, iconId p)) <$> ps.

(** ** Hand levels ([types/index.ts]) *)

Inductive HandLevel :=
  | mangan | haneman | baiman | sanbaiman | yakuman | normal.

#[global] Instance HandLevel_eq_dec : EqDecision HandLevel.
Proof. solve_decision. Defined.

Definition getHandLevel (han : Z) (isYakuman : bool) : HandLevel :=
  if isYakuman then yakuman
  else if 13 <=? han then yakuman
  else if 11 <=? han then sanbaiman
  else if 8 <=? han then baiman
  else if 6 <=? han then haneman
  else if 5 <=? han then mangan
  else normal.

(** The [en] entries of [HAND_LEVEL_LABELS]. *)
Definition HAND_LEVEL_LABELS_en (level : HandLevel) : string :=
  match level with
  | mangan => "MANGAN"
  | haneman => "HANEMAN"
  | baiman => "BAIMAN"
  | sanbaiman => "SANBAIMAN"
  | yakuman => "YAKUMAN"
  | normal => ""
  end.

(** [const hasLevelLabel = handLevel !== 'normal';] of the score sheet. *)
Definition hasLevelLabel (han : Z) (isYakuman : bool) : bool :=
  negb (bool_decide (getHandLevel han isYakuman = normal)).

(** The levels from the lowest to the highest. *)
Definition level_rank (level : HandLevel) : nat :=
  match level with
  | normal => 0
  | mangan => 1
  | haneman => 2
  | baiman => 3
  | sanbaiman => 4
  | yakuman => 5
  end.

(** ** The draw sheet ([DrawModal.tsx]) *)

(** A JavaScript [Set<string>] is the list of its elements in insertion
    order, without duplicates; [[...set]] is that list. *)
Definition Set_has (xs : list string) (k : string) : bool :=
  bool_decide (k ∈ xs).

Definition Set_add (xs : list string) (k : string) : list string :=
  if Set_has xs k then xs else xs ++ [k].

Definition Set_delete (xs : list string) (k : string) : list string :=
  filter (λ x, x ≠ k) xs.

(** [togglePlayer]: the next value of [tenpaiIds]. *)
Definition togglePlayer (tenpaiIds : list string) (k : string) : list string :=
  if Set_has tenpaiIds k then Set_delete tenpaiIds k else Set_add tenpaiIds k.

(** The payment preview: [receivePerTenpai] and [payPerNoten]. *)
Definition drawPreview (ps : list Player) (tenpaiIds : list string) : Z * Z :=
  let tenpaiCount := Z.of_nat (length tenpaiIds) in
  let notenCount := Z.of_nat (length ps) - tenpaiCount in
  if (0 <? tenpaiCount) && (tenpaiCount <? Z.of_nat (length ps))
  then (3000 / tenpaiCount, 3000 / notenCount)
  else (0, 0).

(** The preview shows "No exchange" instead of the two amounts. *)
Definition previewNoExchange (ps : list Player) (tenpaiIds : list string)
    : bool :=
  (Z.of_nat (length tenpaiIds) =? 0)
  || (Z.of_nat (length tenpaiIds) =? Z.of_nat (length ps)).

(** [handleConfirm]: [recordDraw([...tenpaiIds])]. *)
Definition handleConfirm (s : GameStore) (tenpaiIds : list string)
    : result GameStore :=
  recordDraw s tenpaiIds.

(** ** The result screen ([ResultScreen.tsx]) *)

(** [RankedPlayer extends Player]: the player with [rank] and [delta]. *)
Record RankedPlayer := {
  player : Player;
  rank : nat;
  delta : Z;
}.

(** [[...players].sort((a, b) => b.score - a.score)].  [Array.prototype.sort]
    is stable; for this comparator the result is the one list that holds
    the players in non-increasing score order with equal scores in their
    former order, which is what inserting the players one by one, from the
    last to the first, in front of the first score that is not higher,
    builds. *)
Fixpoint insert_by_score (p : Player) (sorted : list Player) : list Player :=
  match sorted with
  | [] => [p]
  | q :: rest =>
      if score q <=? score p then p :: q :: rest
      else q :: insert_by_score p rest
  end.

Definition sort_by_score (ps : list Player) : list Player :=
  foldr insert_by_score [] ps.

(** [const ranked = [...players].sort(...).map((p, i) =>
    ({ ...p, rank: i, delta: p.score - startingScore }))] *)
Definition ranked (s : GameStore) : list RankedPlayer :=
  imap (λ i p, {| player := p; rank := i;
                  delta := score p - startingScore s |})
       (sort_by_score (players s)).

(** The sum of the deltas shown on the result screen. *)
Definition sum_deltas (rs : list RankedPlayer) : Z :=
  foldr (λ r acc, delta r + acc) 0 rs.

(** ** The scoring request ([HandInputScreen], [types/index.ts]) *)

(** ['east' | 'south' | 'west' | 'north'], the type of [round_wind]. *)
Inductive WindLower := east | south | west | north.

Definition selectRoundWindLower (s : GameStore) : WindLower :=
  match currentRoundWind s with
  | EastRound => east
  | SouthRound => south
  end.

Module GameContextInput.
Record t := {
  round_wind : WindLower;
  round_number : number;
  dealer_position : number;
  player_position : Z;
  honba : Z;
  riichi_sticks : Z;
}.
End GameContextInput.

(** The [game_context] of the request [handleCalculate] builds; the server
    constrains [player_position] to 2 (three players) or 3 (four players). *)
Definition game_context (s : GameStore) : GameContextInput.t :=
  {| GameContextInput.round_wind := selectRoundWindLower s;
     GameContextInput.round_number := currentRoundNumber s;
     GameContextInput.dealer_position := dealerIndex s;
     GameContextInput.player_position := Z.of_nat (length (players s)) - 1;
     GameContextInput.honba := honba s;
     GameContextInput.riichi_sticks := riichiBets s |}.

(** ** The hand input ([HandInputScreen], [MeldBuilder.tsx]) *)

Module MeldEntry.
Record t := {
  tiles : list string;
  isOpen : bool;
}.
End MeldEntry.

(** [xs.filter((_, i) => i !== index)] *)
Definition remove_index {A} (index : nat) (xs : list A) : list A :=
  snd <$> filter (λ ix, ix.1 ≠ index) (imap (λ i x, (i, x)) xs).

(** [arr[i]] for an integer [i]. *)
Definition at_index {A} (arr : list A) (i : Z) : option A :=
  js_index arr (Int i).

(** The number of times [tile] occurs in [xs]. *)
Definition occurrences (tile : string) (xs : list string) : nat :=
  length (filter (λ x, x = tile) xs).

Module MeldBuilder.

(** [meldCounts], a [Record<string, number>] whose entries are enumerated:
    the keys in insertion order, each with its count. *)
Definition Counts := list (string * Z).

Fixpoint get (m : Counts) (tile : string) : option Z :=
  match m with
  | [] => None
  | (k, c) :: rest => if decide (k = tile) then Some c else get rest tile
  end.

(** [{ ...prev, [tile]: c }]: an existing key keeps its place, a new one
    comes last. *)
Fixpoint set (m : Counts) (tile : string) (c : Z) : Counts :=
  match m with
  | [] => [(tile, c)]
  | (k, c') :: rest =>
      if decide (k = tile) then (k, c) :: rest else (k, c') :: set rest tile c
  end.

(** [Object.values(meldCounts).reduce((a, b) => a + b, 0)] *)
Definition meldTotal (m : Counts) : Z :=
  foldl (λ a kc, a + kc.2) 0 m.

Definition handleTilePress (m : Counts) (tile : string) : Counts :=
  let cur := default 0 (get m tile) in
  if (4 <=? meldTotal m) || (4 <=? cur) then m
  else set m tile (cur + 1).

(** The [tiles] that [handleConfirmMeld] collects from the entries. *)
Definition collect (m : Counts) : list string :=
  foldl (λ tiles kc, tiles ++ replicate (Z.to_nat kc.2) kc.1) [] m.

(** [handleConfirmMeld]: the meld handed to [onAdd] and the next
    [meldCounts], or nothing when fewer than three tiles are chosen. *)
Definition handleConfirmMeld (m : Counts) (isOpen : bool)
    : option (MeldEntry.t * Counts) :=
  let tiles := collect m in
  if decide (length tiles < 3)%nat then None
  else Some ({| MeldEntry.tiles := tiles; MeldEntry.isOpen := isOpen |}, []).

End MeldBuilder.

Module HandInputScreen.

Record t := {
  tiles : list string;
  counts : gmap string Z;
  redFlags : gmap string bool;
  winTileIndex : Z;
  melds : list MeldEntry.t;
}.

(** The state of a freshly mounted screen. *)
Definition initial : t :=
  {| tiles := []; counts := ∅; redFlags := ∅; winTileIndex := -1;
     melds := [] |}.

Definition totalSelected (h : t) : Z := Z.of_nat (length (tiles h)).

Definition effectiveWinIndex (h : t) : Z :=
  if 0 <=? winTileIndex h then winTileIndex h
  else Z.of_nat (length (tiles h)) - 1.

(** [counts[tile] >= 4] is false when the tile has no entry. *)
Definition handleTilePress (h : t) (tile : string) : t :=
  if match counts h !! tile with Some c => 4 <=? c | None => false end
     || (14 <=? totalSelected h)
  then h
  else
    let newTiles := tiles h ++ [tile] in
    let newCounts :=
      <[tile := default 0 (counts h !! tile) + 1]> (counts h) in
    {| tiles := newTiles; counts := newCounts; redFlags := redFlags h;
       winTileIndex := Z.of_nat (length newTiles) - 1; melds := melds h |}.

(** [m.tiles.includes(tile)], where [tile] is [undefined] when the slot is
    not one of the hand. *)
Definition includes_tile (tile : option string) (m : MeldEntry.t) : Prop :=
  match tile with
  | Some k => k ∈ MeldEntry.tiles m
  | None => False
  end.

#[global] Instance includes_tile_dec tile m : Decision (includes_tile tile m).
Proof. destruct tile; cbn; apply _. Defined.

(** As a key of [counts], [undefined] is the string "undefined". *)
Definition handleSlotPress (h : t) (index : nat) : t :=
  let tile := tiles h !! index in
  let key := default "undefined" tile in
  let newTiles := remove_index index (tiles h) in
  let newCount := default 1 (counts h !! key) - 1 in
  let newCounts := <[key := Z.max 0 newCount]> (counts h) in
  let n := Z.of_nat (length newTiles) in
  let win :=
    if n <=? winTileIndex h then n - 1
    else if winTileIndex h =? Z.of_nat index then n - 1
    else winTileIndex h in
  let prev := melds h in
  {| tiles := newTiles; counts := newCounts; redFlags := redFlags h;
     winTileIndex := win;
     melds := take (length prev)
                (filter (λ m, ¬ includes_tile tile m) prev
                 ++ filter (λ m, includes_tile tile m) prev) |}.

Definition setWinTileIndex (h : t) (index : nat) : t :=
  {| tiles := tiles h; counts := counts h; redFlags := redFlags h;
     winTileIndex := Z.of_nat index; melds := melds h |}.

Definition handleToggleRed (h : t) (tile : string) : t :=
  {| tiles := tiles h; counts := counts h;
     redFlags := <[tile := negb (default false (redFlags h !! tile))]>
                   (redFlags h);
     winTileIndex := winTileIndex h; melds := melds h |}.

Definition handleAddMeld (h : t) (meld : MeldEntry.t) : t :=
  {| tiles := tiles h; counts := counts h; redFlags := redFlags h;
     winTileIndex := winTileIndex h; melds := melds h ++ [meld] |}.

Definition handleRemoveMeld (h : t) (index : nat) : t :=
  {| tiles := tiles h; counts := counts h; redFlags := redFlags h;
     winTileIndex := winTileIndex h;
     melds := remove_index index (melds h) |}.

(** The states the screen goes through.  A slot is pressed, or marked as
    the winning tile, only where the hand shows a tile: [SelectedHand] makes
    the empty slots plain views. *)
Inductive entering : t → Prop :=
  | entering_initial : entering initial
  | entering_handleTilePress h tile :
      entering h → entering (handleTilePress h tile)
  | entering_handleSlotPress h index :
      entering h → (index < length (tiles h))%nat →
      entering (handleSlotPress h index)
  | entering_setWinTileIndex h index :
      entering h → (index < length (tiles h))%nat →
      entering (setWinTileIndex h index)
  | entering_handleToggleRed h tile :
      entering h → entering (handleToggleRed h tile)
  | entering_handleAddMeld h meld :
      entering h → entering (handleAddMeld h meld)
  | entering_handleRemoveMeld h index :
      entering h → entering (handleRemoveMeld h index).

(** What [counts] is meant to hold, by the comment at its declaration:
    the count of each tile in [tiles]. *)
Definition counts_mirror_tiles (h : t) : Prop :=
  ∀ tile, default 0 (counts h !! tile) = Z.of_nat (occurrences tile (tiles h)).

(** *** [handleCalculate] *)

(** [meldTileCounts], built from [meldTileStrings]. *)
Definition meldTileCounts (meldTileStrings : list string) : gmap string Z :=
  foldl (λ m tile, <[tile := default 0 (m !! tile) + 1]> m) ∅
        meldTileStrings.

(** One iteration of [tiles.forEach((tile, i) => ...)] on
    [(meldTileCounts, handTiles, handRedFlags)]. *)
Definition hand_step (win : Z) (red : gmap string bool)
    (acc : gmap string Z * list string * list bool) (it : nat * string)
    : gmap string Z * list string * list bool :=
  let '(mc, handTiles, handRedFlags) := acc in
  let '(i, tile) := it in
  if Z.of_nat i =? win then acc
  else
    match mc !! tile with
    | Some c =>
        if negb (c =? 0) && (0 <? c) then
          (<[tile := c - 1]> mc, handTiles, handRedFlags)
        else (mc, handTiles ++ [tile],
              handRedFlags ++ [default false (red !! tile)])
    | None => (mc, handTiles ++ [tile],
               handRedFlags ++ [default false (red !! tile)])
    end.

(** The fields of the [ScoreRequest] that are computed from the hand. *)
Module ScoreRequest.
Record t := {
  tiles : list string;
  red_tile_flags : list bool;
  winning_tile : option string;
  winning_tile_is_red : bool;
  melds : list (list string * bool);
  is_tsumo : bool;
  game_context : GameContextInput.t;
}.
End ScoreRequest.

(** The request [handleCalculate] sends; nothing is sent, and an alert
    shown, when fewer than two tiles are selected. *)
Definition handleCalculate (s : GameStore) (isTsumo : bool) (h : t)
    : option ScoreRequest.t :=
  if decide (length (tiles h) < 2)%nat then None
  else
    let winTile := at_index (tiles h) (effectiveWinIndex h) in
    let meldTileStrings := flat_map MeldEntry.tiles (melds h) in
    let '(_, handTiles, handRedFlags) :=
      foldl (hand_step (effectiveWinIndex h) (redFlags h))
            (meldTileCounts meldTileStrings, [], [])
            (imap (λ i tile, (i, tile)) (tiles h)) in
    Some {| ScoreRequest.tiles := handTiles;
            ScoreRequest.red_tile_flags := handRedFlags;
            ScoreRequest.winning_tile := winTile;
            ScoreRequest.winning_tile_is_red :=
              match winTile with
              | Some w => default false (redFlags h !! w)
              | None => default false (redFlags h !! "undefined")
              end;
            ScoreRequest.melds :=
              (λ m, (MeldEntry.tiles m, MeldEntry.isOpen m)) <$> melds h;
            ScoreRequest.is_tsumo := isTsumo;
            ScoreRequest.game_context := game_context s |}.

End HandInputScreen.

(** The invariant of the hand input: [counts] mirrors [tiles], at most 14
    tiles and four of a kind are selected, and the winning index is -1 on
    the empty hand and the index of a tile otherwise. *)
Definition hand_ok (h : HandInputScreen.t) : Prop :=
  HandInputScreen.counts_mirror_tiles h
  ∧ (length (HandInputScreen.tiles h) ≤ 14)%nat
  ∧ (∀ tile, (occurrences tile (HandInputScreen.tiles h) ≤ 4)%nat)
  ∧ (HandInputScreen.tiles h = [] ∧ HandInputScreen.winTileIndex h = -1
     ∨ 0 ≤ HandInputScreen.winTileIndex h
         < Z.of_nat (length (HandInputScreen.tiles h))).

(** How many tiles of a kind [meldTileCounts] still accounts for. *)
Definition avail (mc : gmap string Z) (tile : string) : Z :=
  Z.max 0 (default 0 (mc !! tile)).
(** [redFlags[tile] ?? false] *)
Definition red_flag (red : gmap string bool) (tile : string) : bool :=
  default false (red !! tile).

(** A hand of three tiles, after four presses and one removal. *)
Definition sample_hand : HandInputScreen.t :=
  HandInputScreen.handleSlotPress
    (foldl HandInputScreen.handleTilePress HandInputScreen.initial
           ["1B"; "2B"; "3B"; "3B"])
    1.

(** ** The win sheet ([RoundModal.tsx]) *)

(** The fields of the [ScoreResponse] that the modals read. *)
Module ScoreResponse.
Record t := {
  is_winning : bool;
  yaku : list YakuItem;
  han : Z;
  fu : Z;
  total_points : Z;
  dealer_payment : Z;
  non_dealer_payment : Z;
  is_yakuman : bool;
}.
End ScoreResponse.

Module RoundModal.

(** The selections of the first step. *)
Record t := {
  winnerId : option string;
  loserId : option string;
  isTsumo : bool;
}.

Definition initial : t :=
  {| winnerId := None; loserId := None; isTsumo := true |}.

Definition setWinnerId (st : t) (k : string) : t :=
  {| winnerId := Some k; loserId := loserId st; isTsumo := isTsumo st |}.

Definition setLoserId (st : t) (k : string) : t :=
  {| winnerId := winnerId st; loserId := Some k; isTsumo := isTsumo st |}.

Definition setIsTsumo (st : t) (b : bool) : t :=
  {| winnerId := winnerId st; loserId := loserId st; isTsumo := b |}.

Definition canProceed (st : t) : bool :=
  bool_decide (winnerId st ≠ None)
  && (isTsumo st || bool_decide (loserId st ≠ None)).

(** The selections that the sheet lets the user reach for the players [ps]:
    a winner chip for every player; the two method toggles; and, for a ron,
    a loser chip for every player but the winner chosen at that moment. *)
Inductive selecting (ps : list Player) : t → Prop :=
  | selecting_initial : selecting ps initial
  | selecting_setWinnerId st p :
      selecting ps st → p ∈ ps → selecting ps (setWinnerId st (id p))
  | selecting_setIsTsumo st b :
      selecting ps st → selecting ps (setIsTsumo st b)
  | selecting_setLoserId st p :
      selecting ps st → isTsumo st = false → p ∈ ps →
      winnerId st ≠ Some (id p) →
      selecting ps (setLoserId st (id p)).

(** The [loserId] handed to the score sheet and to [recordWin]:
    [isTsumo ? null : loserId]. *)
Definition shownLoserId (st : t) : option string :=
  if isTsumo st then None else loserId st.

End RoundModal.

(** [handleNext]: the store after [recordWin], and the selections after
    [handleClose]. *)
Definition handleNext (st : RoundModal.t)
    (scoreResponse : option ScoreResponse.t) (pay : gmap string Z)
    (s : GameStore) : GameStore * RoundModal.t :=
  match truthy_id (RoundModal.winnerId st), scoreResponse with
  | Some w, Some r =>
      (recordWin s
         {| winnerId := Some w;
            loserId := RoundModal.shownLoserId st;
            isTsumo := RoundModal.isTsumo st;
            isDraw := false;
            tenpaiPlayerIds := [];
            yakuList := ScoreResponse.yaku r;
            han := ScoreResponse.han r;
            fu := ScoreResponse.fu r;
            payments := pay |},
       RoundModal.initial)
  | _, _ => (s, st)
  end.


Definition sample_response : ScoreResponse.t :=
  {| ScoreResponse.is_winning := true; ScoreResponse.yaku := [];
     ScoreResponse.han := 3; ScoreResponse.fu := 30;
     ScoreResponse.total_points := 6000;
     ScoreResponse.dealer_payment := 2000;
     ScoreResponse.non_dealer_payment := 1000;
     ScoreResponse.is_yakuman := false |}.

(** ** The setup screen ([SetupScreen.tsx]) *)

(** [WINDS.indexOf(next[idx])]: -1 when the entry is [undefined]. *)
Definition WINDS_indexOf (w : option (option SeatWind)) : Z :=
  match w with
  | Some (Some East) => 0
  | Some (Some South) => 1
  | Some (Some West) => 2
  | Some (Some North) => 3
  | _ => -1
  end.

(** [cycleWind]: the next value of [winds]. *)
Definition cycleWind (winds : list (option SeatWind)) (idx : nat)
    : list (option SeatWind) :=
  let cur := WINDS_indexOf (winds !! idx) in
  match js_index WINDS (js_rem (Int (cur + 1)) (Int 4)) with
  | Some w => array_set winds idx w
  | None =>
      if decide (idx < length winds)%nat then <[idx := None]> winds
      else winds ++ replicate (S idx - length winds) None
  end.

(** The wind that follows [w] in [WINDS], East after North. *)
Definition next_wind (w : SeatWind) : SeatWind :=
  match w with
  | East => South
  | South => West
  | West => North
  | North => East
  end.

(** * Payment mappings *)

Section payment_maps.
Implicit Types (m : gmap string Z) (ids : list string) (k : string).

Lemma lookup_assign_all v ids m k :
  assign_all v ids m !! k = if decide (k ∈ ids) then Some v else m !! k.
Proof.
  unfold assign_all. revert m.
  induction ids as [|a ids IH]; intros m; cbn [foldl].
  - by rewrite decide_False by apply not_elem_of_nil.
  - rewrite IH. destruct (decide (k ∈ ids)) as [Hin|Hin].
    + rewrite decide_True; [done | by right].
    + destruct (decide (a = k)) as [->|Hne].
      * rewrite lookup_insert_eq, decide_True; [done | by left].
      * rewrite lookup_insert_ne by done.
        rewrite decide_False; [done|].
        rewrite elem_of_cons. intros [?|?]; congruence.
Qed.

Lemma zero_payments_assign ps :
  zero_payments ps = assign_all 0 (id <$> ps) ∅.
Proof. unfold zero_payments, assign_all. by rewrite foldl_fmap. Qed.

Lemma lookup_zero_payments ps k :
  zero_payments ps !! k = if decide (k ∈ id <$> ps) then Some 0 else None.
Proof. by rewrite zero_payments_assign, lookup_assign_all, lookup_empty. Qed.

Lemma sum_payments_empty : sum_payments ∅ = 0.
Proof. apply map_fold_empty. Qed.

Lemma sum_payments_insert_fresh m k v :
  m !! k = None → sum_payments (<[k := v]> m) = v + sum_payments m.
Proof.
  intros Hk. unfold sum_payments.
  rewrite map_fold_insert_L; [done | intros; lia | done].
Qed.

Lemma sum_payments_insert m k v :
  sum_payments (<[k := v]> m) = sum_payments m - default 0 (m !! k) + v.
Proof.
  destruct (m !! k) as [x|] eqn:Hk; simpl.
  - rewrite <- (insert_delete_id m k x) at 2 by done.
    rewrite <- insert_delete_eq.
    rewrite !sum_payments_insert_fresh by apply lookup_delete_eq. lia.
  - rewrite sum_payments_insert_fresh by done. lia.
Qed.

(** A mapping whose keys are exactly the identifiers of a duplicate-free
    list sums to the sum of its entries along that list. *)
Lemma sum_payments_keys ids m :
  NoDup ids → (∀ k, is_Some (m !! k) ↔ k ∈ ids) →
  sum_payments m = sum_over (λ k, default 0 (m !! k)) ids.
Proof.
  intros Hnd. revert m.
  induction Hnd as [|a ids Ha Hnd IH]; intros m Hdom; simpl.
  - assert (m = ∅) as ->; [|apply sum_payments_empty].
    apply map_empty. intros k. apply eq_None_not_Some.
    rewrite Hdom. apply not_elem_of_nil.
  - destruct (proj2 (Hdom a)) as [x Hx]; [by left|].
    rewrite Hx. simpl.
    rewrite <- (insert_delete_id m a x) at 1 by done.
    rewrite sum_payments_insert_fresh by apply lookup_delete_eq.
    f_equal. rewrite (IH (delete a m)).
    + clear IH Hdom Hx. induction ids as [|b ids IHids]; simpl; [done|].
      apply not_elem_of_cons in Ha as [Hab Ha].
      apply NoDup_cons in Hnd as [_ Hnd].
      rewrite lookup_delete_ne by done. f_equal. by apply IHids.
    + intros k. destruct (decide (a = k)) as [<-|Hne].
      * rewrite lookup_delete_eq. split; [by intros [??] | done].
      * rewrite lookup_delete_ne by done. rewrite Hdom.
        split; [intros [?|?]%elem_of_cons; congruence | by right].
Qed.

Lemma sum_over_ext f g ids :
  (∀ k, k ∈ ids → f k = g k) → sum_over f ids = sum_over g ids.
Proof.
  induction ids as [|a ids IH]; intros H; simpl; [done|].
  rewrite H by (by left). rewrite IH; [done|]. intros; apply H; by right.
Qed.

(** Splitting a sum along a decidable set of keys. *)
Lemma sum_over_split (P : string → Prop) `{∀ k, Decision (P k)} a b ids :
  sum_over (λ k, if decide (P k) then a else b) ids
  = a * Z.of_nat (length (filter P ids))
    + b * Z.of_nat (length (filter (λ k, ¬ P k) ids)).
Proof.
  induction ids as [|x ids IH]; simpl; [lia|].
  rewrite IH, !filter_cons. destruct (decide (P x)) as [Hx|Hx].
  - rewrite decide_False by tauto. simpl. lia.
  - rewrite decide_True by done. simpl. lia.
Qed.
End payment_maps.

(** * Draw settlement *)

Section draw_settlement.
Variables (ps : list Player) (tenpai : list string).
Hypothesis ids_distinct : NoDup (id <$> ps).
Hypothesis tenpai_distinct : NoDup tenpai.
Hypothesis tenpai_players : ∀ k, k ∈ tenpai → k ∈ id <$> ps.

(** The tenpai identifiers, read along the player list. *)
Lemma tenpai_along_players :
  filter (λ k, k ∈ tenpai) (id <$> ps) ≡ₚ tenpai.
Proof.
  apply NoDup_Permutation; [by apply NoDup_filter | done |].
  intros k. rewrite list_elem_of_filter.
  split; [by intros [? _] | intros Hk; split; [done | by apply tenpai_players]].
Qed.

Lemma tenpai_count_split :
  (length tenpai
   + length (filter (λ k, k ∉ tenpai) (id <$> ps)))%nat = length ps.
Proof.
  rewrite <- tenpai_along_players, <- length_app.
  rewrite (filter_app_complement (λ k, k ∈ tenpai) (id <$> ps)).
  apply length_fmap.
Qed.

Lemma noten_count_players :
  length (filter (λ k, k ∉ tenpai) (id <$> ps))
  = length (filter (λ p, id p ∉ tenpai) ps).
Proof.
  clear. induction ps as [|p l IH]; [done|].
  rewrite fmap_cons, !filter_cons.
  destruct (decide (id p ∉ tenpai)); simpl; by rewrite IH.
Qed.

Lemma all_tenpai_count :
  (∀ p, p ∈ ps → id p ∈ tenpai) → length tenpai = length ps.
Proof.
  intros Hall. rewrite <- (length_fmap id ps). symmetry.
  apply Permutation_length, NoDup_Permutation; [done..|].
  intros k. split; [|by auto].
  intros (p & -> & Hp)%list_elem_of_fmap. by apply Hall.
Qed.

Lemma some_noten_count p :
  p ∈ ps → id p ∉ tenpai → (length tenpai < length ps)%nat.
Proof.
  intros Hp Hnot. rewrite <- tenpai_along_players, <- (length_fmap id ps).
  apply (length_filter_lt _ _ (id p)); [|done].
  by apply list_elem_of_fmap_2.
Qed.

(** The guard [tenpaiCount === 0 || tenpaiCount === playerCount] holds
    exactly when nobody or everybody is tenpai. *)
Lemma no_exchange_guard :
  (Z.of_nat (length tenpai) =? 0)
  || (Z.of_nat (length tenpai) =? Z.of_nat (length ps)) = true
  ↔ tenpai = [] ∨ Forall (λ p, id p ∈ tenpai) ps.
Proof.
  rewrite orb_true_iff, !Z.eqb_eq, Forall_forall. split.
  - intros [H0|Hall]; [left; destruct tenpai; [done | simpl in H0; lia]|].
    right. intros p Hp. destruct (decide (id p ∈ tenpai)) as [|Hnot]; [done|].
    pose proof (some_noten_count p Hp Hnot). lia.
  - intros [->|Hall]; [by left | right].
    by rewrite all_tenpai_count.
Qed.

(** Every entry of the mapping returned by [computeDrawPayments]. *)
Lemma lookup_computeDrawPayments k :
  computeDrawPayments ps tenpai !! k =
    if decide (k ∈ id <$> ps) then
      if decide (tenpai = [] ∨ Forall (λ p, id p ∈ tenpai) ps) then Some 0
      else if decide (k ∈ tenpai)
           then Some (3000 / Z.of_nat (length tenpai))
           else Some (- (3000 / Z.of_nat
                           (length (filter (λ p, id p ∉ tenpai) ps))))
    else None.
Proof.
  unfold computeDrawPayments.
  destruct ((Z.of_nat (length tenpai) =? 0)
            || (Z.of_nat (length tenpai) =? Z.of_nat (length ps)))
    eqn:Hguard.
  - apply no_exchange_guard in Hguard.
    rewrite lookup_zero_payments. by rewrite (decide_True _ _ Hguard).
  - assert (¬ (tenpai = [] ∨ Forall (λ p, id p ∈ tenpai) ps)) as Hsome.
    { rewrite <- no_exchange_guard. by rewrite Hguard. }
    rewrite (decide_False _ _ Hsome).
    rewrite !lookup_assign_all, lookup_zero_payments, noten_count_players.
    destruct (decide (k ∈ id <$> ps)) as [Hk|Hk].
    + destruct (decide (k ∈ tenpai)) as [Ht|Ht].
      * rewrite decide_False; [done|].
        rewrite list_elem_of_filter. tauto.
      * rewrite decide_True; [done|]. by rewrite list_elem_of_filter.
    + rewrite decide_False by (rewrite list_elem_of_filter; tauto).
      by rewrite decide_False by auto.
Qed.
End draw_settlement.

(** C5.  Over a list of players with distinct identifiers and a tenpai set
    (a duplicate-free list of identifiers of players), [computeDrawPayments]
    has an entry for every player; when the tenpai set is empty or holds
    every player the mapping is exactly the all-zero mapping over the player
    list; otherwise every tenpai player has [+floor(3000 / tenpaiCount)] and
    every other player [-floor(3000 / notenCount)]. *)
Theorem computeDrawPayments_spec (ps : list Player) (tenpai : list string) :
  NoDup (id <$> ps) → NoDup tenpai → (∀ k, k ∈ tenpai → k ∈ id <$> ps) →
  let m := computeDrawPayments ps tenpai in
  let tenpaiCount := Z.of_nat (length tenpai) in
  let notenCount := Z.of_nat (length (filter (λ p, id p ∉ tenpai) ps)) in
  (∀ p, p ∈ ps → is_Some (m !! id p))
  ∧ (tenpai = [] ∨ Forall (λ p, id p ∈ tenpai) ps →
     ∀ k, m !! k = if decide (k ∈ id <$> ps) then Some 0 else None)
  ∧ (¬ (tenpai = [] ∨ Forall (λ p, id p ∈ tenpai) ps) →
     ∀ p, p ∈ ps →
       m !! id p = Some (if decide (id p ∈ tenpai)
                         then 3000 / tenpaiCount
                         else - (3000 / notenCount))).
Proof.
  intros Hids Hten Hsub m tenpaiCount notenCount. subst m.
  split; [|split].
  - intros p Hp. rewrite lookup_computeDrawPayments by done.
    rewrite decide_True by (by apply list_elem_of_fmap_2).
    repeat case_decide; eauto.
  - intros Hnone k. rewrite lookup_computeDrawPayments by done.
    by rewrite (decide_True _ _ Hnone).
  - intros Hsome p Hp.
    rewrite lookup_computeDrawPayments by done.
    rewrite decide_True by (by apply list_elem_of_fmap_2).
    rewrite (decide_False _ _ Hsome). by case_decide.
Qed.

Lemma computeDrawPayments_spec_witness :
  let m := computeDrawPayments four_players ["player-1"] in
  (∀ p, p ∈ four_players → is_Some (m !! id p))
  ∧ (["player-1"] = [] ∨ Forall (λ p, id p ∈ ["player-1"]) four_players →
     ∀ k, m !! k = if decide (k ∈ id <$> four_players) then Some 0 else None)
  ∧ (¬ (["player-1"] = [] ∨ Forall (λ p, id p ∈ ["player-1"]) four_players) →
     ∀ p, p ∈ four_players →
       m !! id p = Some (if decide (id p ∈ ["player-1"])
                         then 3000 / 1 else - (3000 / 3))).
Proof.
  apply (computeDrawPayments_spec four_players ["player-1"]).
  - compute_done.
  - compute_done.
  - intros k Hk. apply list_elem_of_singleton in Hk. subst k. compute_done.
Defined.

(** With one, two or three players on either side of an exchange, the
    3000-point pool divides without remainder. *)
Lemma draw_pool_divides (ps : list Player) (tenpai : list string) :
  length ps = 3%nat ∨ length ps = 4%nat →
  NoDup (id <$> ps) → NoDup tenpai → (∀ k, k ∈ tenpai → k ∈ id <$> ps) →
  ¬ (tenpai = [] ∨ Forall (λ p, id p ∈ tenpai) ps) →
  let tenpaiCount := Z.of_nat (length tenpai) in
  let notenCount := Z.of_nat (length (filter (λ p, id p ∉ tenpai) ps)) in
  tenpaiCount * (3000 / tenpaiCount) = 3000
  ∧ notenCount * (3000 / notenCount) = 3000.
Proof.
  intros Hcount Hids Hten Hsub Hsome tenpaiCount notenCount.
  pose proof (tenpai_count_split ps tenpai Hids Hten Hsub) as Hsplit.
  rewrite noten_count_players in Hsplit.
  rewrite <- (no_exchange_guard ps tenpai Hids Hten Hsub) in Hsome.
  apply not_true_is_false, orb_false_iff in Hsome as [H0 Hall].
  apply Z.eqb_neq in H0, Hall.
  assert (tenpaiCount = 1 ∨ tenpaiCount = 2 ∨ tenpaiCount = 3) as Ht
    by (subst tenpaiCount; lia).
  assert (notenCount = 1 ∨ notenCount = 2 ∨ notenCount = 3) as Hn
    by (subst tenpaiCount notenCount; lia).
  clearbody tenpaiCount notenCount.
  destruct Ht as [-> | [-> | ->]], Hn as [-> | [-> | ->]]; done.
Qed.

Lemma computeDrawPayments_dom (ps : list Player) (tenpai : list string) k :
  NoDup (id <$> ps) → NoDup tenpai → (∀ k, k ∈ tenpai → k ∈ id <$> ps) →
  is_Some (computeDrawPayments ps tenpai !! k) ↔ k ∈ id <$> ps.
Proof.
  intros Hids Hten Hsub. rewrite lookup_computeDrawPayments by done.
  repeat case_decide; split; (done || eauto || by intros [??]).
Qed.

(** What the players receive and pay in a draw adds up to zero, at a table
    of three or four. *)
Lemma sum_computeDrawPayments (ps : list Player) (tenpai : list string) :
  length ps = 3%nat ∨ length ps = 4%nat →
  NoDup (id <$> ps) → NoDup tenpai → (∀ k, k ∈ tenpai → k ∈ id <$> ps) →
  sum_over (λ k, default 0 (computeDrawPayments ps tenpai !! k)) (id <$> ps)
  = 0.
Proof.
  intros Hcount Hids Hten Hsub.
  destruct (decide (tenpai = [] ∨ Forall (λ p, id p ∈ tenpai) ps))
    as [Hnone|Hsome].
  - rewrite (sum_over_ext _ (λ k, if decide (k ∈ tenpai) then 0 else 0)).
    + rewrite sum_over_split. lia.
    + intros k Hk. rewrite lookup_computeDrawPayments by done.
      rewrite (decide_True _ _ Hk), (decide_True _ _ Hnone). by case_decide.
  - rewrite (sum_over_ext _
      (λ k, if decide (k ∈ tenpai)
            then 3000 / Z.of_nat (length tenpai)
            else - (3000 / Z.of_nat
                      (length (filter (λ p, id p ∉ tenpai) ps))))).
    + rewrite sum_over_split.
      rewrite (tenpai_along_players ps tenpai Hids Hten Hsub).
      rewrite noten_count_players.
      destruct (draw_pool_divides ps tenpai Hcount Hids Hten Hsub Hsome)
        as [Ht Hn].
      lia.
    + intros k Hk. rewrite lookup_computeDrawPayments by done.
      rewrite (decide_True _ _ Hk), (decide_False _ _ Hsome).
      by case_decide.
Qed.

(** C10.  With three or four players (distinct identifiers) and any tenpai
    subset, the mapping returned by [computeDrawPayments] sums to zero, and
    whenever an exchange takes place both the tenpai count and the noten
    count divide the 3000-point pool without remainder. *)
Theorem computeDrawPayments_zero_sum (ps : list Player) (tenpai : list string) :
  length ps = 3%nat ∨ length ps = 4%nat →
  NoDup (id <$> ps) → NoDup tenpai → (∀ k, k ∈ tenpai → k ∈ id <$> ps) →
  let tenpaiCount := Z.of_nat (length tenpai) in
  let notenCount := Z.of_nat (length (filter (λ p, id p ∉ tenpai) ps)) in
  sum_payments (computeDrawPayments ps tenpai) = 0
  ∧ (¬ (tenpai = [] ∨ Forall (λ p, id p ∈ tenpai) ps) →
     tenpaiCount * (3000 / tenpaiCount) = 3000
     ∧ notenCount * (3000 / notenCount) = 3000).
Proof.
  intros Hcount Hids Hten Hsub tenpaiCount notenCount. split.
  - rewrite (sum_payments_keys (id <$> ps)); [|done|].
    + by apply sum_computeDrawPayments.
    + intros k. by apply computeDrawPayments_dom.
  - intros Hsome. by apply draw_pool_divides.
Qed.

Lemma computeDrawPayments_zero_sum_witness :
  sum_payments (computeDrawPayments four_players ["player-0"; "player-2"]) = 0
  ∧ (¬ (["player-0"; "player-2"] = []
        ∨ Forall (λ p, id p ∈ ["player-0"; "player-2"]) four_players) →
     2 * (3000 / 2) = 3000 ∧ 2 * (3000 / 2) = 3000).
Proof.
  apply (computeDrawPayments_zero_sum four_players ["player-0"; "player-2"]).
  - right. reflexivity.
  - compute_done.
  - compute_done.
  - intros k Hk. apply elem_of_cons in Hk as [-> | Hk]; [compute_done|].
    apply list_elem_of_singleton in Hk. subst k. compute_done.
Defined.

(** * Self-draw settlement *)

Lemma sum_over_zero f ids : (∀ k, k ∈ ids → f k = 0) → sum_over f ids = 0.
Proof.
  induction ids as [|a ids IH]; intros H; simpl; [done|].
  rewrite H by (by left). rewrite IH; [done|]. intros; apply H; by right.
Qed.

Lemma sum_zero_payments ps : NoDup (id <$> ps) → sum_payments (zero_payments ps) = 0.
Proof.
  intros Hnd. rewrite (sum_payments_keys (id <$> ps)); [|done|].
  - apply sum_over_zero. intros k Hk.
    by rewrite lookup_zero_payments, decide_True.
  - intros k. rewrite lookup_zero_payments.
    case_decide; split; (done || eauto || by intros [??]).
Qed.

Lemma players_by_id ps p q :
  NoDup (id <$> ps) → p ∈ ps → q ∈ ps → id p = id q → p = q.
Proof.
  intros Hnd Hp Hq Heq.
  apply list_elem_of_lookup in Hp as [i Hi], Hq as [j Hj].
  assert (i = j) as ->; [|congruence].
  eapply NoDup_lookup; [exact Hnd|..].
  - by rewrite list_lookup_fmap, Hi.
  - by rewrite list_lookup_fmap, Hj, Heq.
Qed.

Lemma find_player_Some ps p :
  NoDup (id <$> ps) → p ∈ ps → find_player ps (id p) = Some p.
Proof.
  intros Hnd Hp. unfold find_player.
  destruct (List.find _ ps) as [q|] eqn:Hfind.
  - apply List.find_some in Hfind as [Hq Hid].
    apply list_elem_of_In in Hq. apply bool_decide_eq_true in Hid.
    f_equal. by apply (players_by_id ps).
  - apply list_elem_of_In in Hp.
    pose proof (List.find_none _ _ Hfind _ Hp) as Hno. simpl in Hno.
    by rewrite bool_decide_eq_false in Hno.
Qed.

Section tsumo_loop.
Variables (w : string) (wd : bool) (dp ndp : Z).

(** Entries of players the loop does not visit are untouched. *)
Lemma tsumo_loop_other l acc k :
  (∀ p, p ∈ l → id p ≠ w → id p ≠ k) →
  (foldl (tsumo_step w wd dp ndp) acc l).1 !! k = acc.1 !! k.
Proof.
  revert acc. induction l as [|p l IH]; intros acc Hk; [done|].
  cbn [foldl]. rewrite IH by (intros; apply Hk; [by right | done]).
  unfold tsumo_step. destruct (decide (id p = w)); [done|].
  assert (id p ≠ k) by (apply Hk; [by left | done]).
  destruct wd; [|destruct (isDealer p)]; simpl; by rewrite lookup_insert_ne.
Qed.

(** A player other than the winner ends with the negated amount owed. *)
Lemma tsumo_loop_payer l acc p :
  NoDup (id <$> l) → p ∈ l → id p ≠ w →
  (foldl (tsumo_step w wd dp ndp) acc l).1 !! id p = Some (- tsumo_pays wd dp ndp p).
Proof.
  revert acc. induction l as [|q l IH]; intros acc Hnd Hp Hne.
  { by apply not_elem_of_nil in Hp. }
  rewrite fmap_cons in Hnd. apply NoDup_cons in Hnd as [Hq Hnd].
  cbn [foldl]. apply elem_of_cons in Hp as [<- | Hp]; [|by apply IH].
  rewrite tsumo_loop_other.
  - unfold tsumo_step, tsumo_pays. rewrite decide_False by done.
    destruct wd; [|destruct (isDealer p)]; simpl; by rewrite lookup_insert_eq.
  - intros r Hr _ Heq. apply Hq. rewrite <- Heq.
    by apply list_elem_of_fmap_2.
Qed.

(** [collected] is the sum of the amounts owed by the visited players. *)
Lemma tsumo_loop_collected l acc :
  (foldl (tsumo_step w wd dp ndp) acc l).2 = acc.2 + outgoing w wd dp ndp l.
Proof.
  revert acc. induction l as [|p l IH]; intros acc; simpl; [lia|].
  rewrite IH. unfold tsumo_step, tsumo_pays.
  destruct (decide (id p = w)); [lia|].
  destruct wd; [|destruct (isDealer p)]; simpl; lia.
Qed.

(** What is collected is what the entries lose. *)
Lemma tsumo_loop_balance l acc :
  NoDup (id <$> l) → (∀ p, p ∈ l → acc.1 !! id p = Some 0) →
  sum_payments (foldl (tsumo_step w wd dp ndp) acc l).1 + (foldl (tsumo_step w wd dp ndp) acc l).2
  = sum_payments acc.1 + acc.2.
Proof.
  revert acc. induction l as [|p l IH]; intros acc Hnd Hzero; [done|].
  rewrite fmap_cons in Hnd. apply NoDup_cons in Hnd as [Hp Hnd].
  cbn [foldl]. rewrite IH; [|done|].
  - unfold tsumo_step. destruct (decide (id p = w)); [done|].
    destruct wd; [|destruct (isDealer p)]; simpl;
      rewrite sum_payments_insert, (Hzero p) by (by left); simpl; lia.
  - intros q Hq. unfold tsumo_step.
    assert (id p ≠ id q).
    { intros Heq. apply Hp. rewrite Heq. by apply list_elem_of_fmap_2. }
    destruct (decide (id p = w)); [apply Hzero; by right|].
    destruct wd; [|destruct (isDealer p)]; simpl;
      rewrite lookup_insert_ne by done; apply Hzero; by right.
Qed.
End tsumo_loop.

(** The mapping built by [computeTsumoPayments] adds up to zero. *)
Lemma tsumo_payments_balance (ps : list Player) (winner : Player) (dp ndp : Z) :
  NoDup (id <$> ps) → winner ∈ ps →
  let acc := foldl (tsumo_step (id winner) (isDealer winner) dp ndp)
               (zero_payments ps, 0) ps in
  sum_payments (<[id winner := acc.2]> (acc.1)) = 0.
Proof.
  intros Hnd Hw acc. subst acc.
  rewrite sum_payments_insert.
  rewrite tsumo_loop_other by (intros; done). cbn [fst].
  rewrite lookup_zero_payments.
  rewrite decide_True by (by apply list_elem_of_fmap_2). simpl.
  pose proof (tsumo_loop_balance (id winner) (isDealer winner)
                dp ndp ps (zero_payments ps, 0) Hnd) as Hbal.
  cbn [fst snd] in Hbal. rewrite sum_zero_payments in Hbal by done.
  cut (∀ p, p ∈ ps → zero_payments ps !! id p = Some 0).
  { intros Hzero. specialize (Hbal Hzero). lia. }
  intros p Hp. rewrite lookup_zero_payments.
  by rewrite decide_True by (by apply list_elem_of_fmap_2).
Qed.

(** C6.  For players with distinct identifiers and a winner among them,
    [computeTsumoPayments] returns a mapping in which every other player has
    [-dealerPayment] when the winner is the dealer, and otherwise
    [-dealerPayment] if that player is the dealer and [-nonDealerPayment] if
    not; the winner's entry is the sum of these outgoing payments, and the
    mapping sums to zero. *)
Theorem computeTsumoPayments_spec (ps : list Player) (winner : Player)
    (dealerPayment nonDealerPayment totalPoints : Z) :
  NoDup (id <$> ps) → winner ∈ ps →
  ∃ m,
    computeTsumoPayments ps (id winner) dealerPayment nonDealerPayment totalPoints
      = Ok m
    ∧ (∀ p, p ∈ ps → id p ≠ id winner →
         m !! id p = Some (- (if isDealer winner then dealerPayment
                              else if isDealer p then dealerPayment
                                   else nonDealerPayment)))
    ∧ m !! id winner
      = Some (outgoing (id winner) (isDealer winner)
                dealerPayment nonDealerPayment ps)
    ∧ sum_payments m = 0.
Proof.
  intros Hnd Hw. unfold computeTsumoPayments.
  rewrite find_player_Some by done.
  eexists; split; [reflexivity|].
  split; [|split].
  - intros p Hp Hne. rewrite lookup_insert_ne by done.
    by rewrite tsumo_loop_payer.
  - by rewrite lookup_insert_eq, tsumo_loop_collected.
  - by apply tsumo_payments_balance.
Qed.

Lemma computeTsumoPayments_spec_witness :
  ∃ m,
    computeTsumoPayments four_players "player-1" 2000 1000 4000 = Ok m
    ∧ (∀ p, p ∈ four_players → id p ≠ "player-1" →
         m !! id p = Some (- (if isDealer p then 2000 else 1000)))
    ∧ m !! "player-1" = Some 4000
    ∧ sum_payments m = 0.
Proof.
  apply (computeTsumoPayments_spec four_players
           (sample_player "player-1" South) 2000 1000 4000).
  - compute_done.
  - right. left.
Defined.

(** ** The score sheet's mapping *)

Lemma sheet_loop_tsumo_loop w wd dp ndp l m c :
  foldl (sheet_step w wd dp ndp) m l
  = (foldl (tsumo_step w wd dp ndp) (m, c) l).1.
Proof.
  revert m c. induction l as [|p l IH]; intros m c; [done|].
  cbn [foldl]. unfold sheet_step at 2, tsumo_step at 2.
  destruct (decide (id p = w)); [apply IH|].
  destruct wd; [|destruct (isDealer p)]; apply IH.
Qed.

Lemma tsumo_pays_nonneg wd dp ndp p :
  0 ≤ dp → 0 ≤ ndp → 0 ≤ tsumo_pays wd dp ndp p.
Proof. intros. unfold tsumo_pays. by repeat case_match. Qed.

(** [totalIn], read back from the entries of the payers, is what the store's
    calculator accumulates in [collected], provided no amount is negative. *)
Lemma sheet_totalIn w wd dp ndp (m : gmap string Z) (ps : list Player) :
  0 ≤ dp → 0 ≤ ndp →
  (∀ p, p ∈ ps → id p ≠ w → m !! id p = Some (- tsumo_pays wd dp ndp p)) →
  foldl (λ sum p, sum + Z.abs (default 0 (m !! id p))) 0
        (filter (λ p, id p ≠ w) ps)
  = outgoing w wd dp ndp ps.
Proof.
  intros Hdp Hndp Hm.
  cut (∀ a, foldl (λ sum p, sum + Z.abs (default 0 (m !! id p))) a
              (filter (λ p, id p ≠ w) ps)
            = a + outgoing w wd dp ndp ps).
  { intros H. by rewrite H. }
  induction ps as [|p ps IH]; intros a; [simpl; lia|].
  rewrite filter_cons. cbn [outgoing foldr].
  fold (outgoing w wd dp ndp ps).
  destruct (decide (id p = w)) as [Hw|Hw].
  - rewrite decide_False by tauto.
    rewrite IH by (intros; apply Hm; [by right | done]).
    cbv beta iota. lia.
  - rewrite decide_True by done. cbn [foldl].
    rewrite IH by (intros; apply Hm; [by right | done]).
    rewrite (Hm p) by (done || by left). cbn [default Datatypes.id].
    pose proof (tsumo_pays_nonneg wd dp ndp p Hdp Hndp). lia.
Qed.

(** On a self-draw with amounts that are not negative, the score sheet
    builds the mapping of [computeTsumoPayments]. *)
Lemma scoreSheetPayments_tsumo ps w l dp ndp tot :
  NoDup (id <$> ps) → 0 ≤ dp → 0 ≤ ndp →
  scoreSheetPayments ps w l true true dp ndp tot
  = computeTsumoPayments ps w dp ndp tot.
Proof.
  intros Hnd Hdp Hndp. unfold scoreSheetPayments, computeTsumoPayments.
  destruct (find_player ps w) as [winner|]; [|done].
  rewrite (sheet_loop_tsumo_loop w (isDealer winner) dp ndp ps _ 0).
  f_equal. f_equal.
  rewrite (sheet_totalIn w (isDealer winner) dp ndp) by
    (done || by intros; apply tsumo_loop_payer).
  by rewrite tsumo_loop_collected.
Qed.

(** The sample ron is the mapping the score sheet computes for a winning
    hand of 3900 points. *)
Lemma sample_ron_score_sheet :
  scoreSheetPayments four_players "player-2" (Some "player-0") false true
    0 0 3900
  = Ok (payments sample_ron)
  ∧ settlement four_players (payments sample_ron).
Proof.
  split; [by vm_compute|].
  apply settlement_ron; [compute_done | compute_done | done].
Qed.

(** * The match state machine *)

(** ** Declaring and retracting a bet *)

Lemma imap_score_round_trip i (ps : list Player) :
  imap (λ j p, if decide (j = i) then with_score p (score p + 1000) else p)
    (imap (λ j p, if decide (j = i) then with_score p (score p - 1000) else p)
       ps)
  = ps.
Proof.
  apply list_eq. intros j. rewrite !list_lookup_imap.
  destruct (ps !! j) as [p|]; [simpl | done].
  destruct (decide (j = i)); [|done].
  f_equal. destruct p; unfold with_score; simpl. f_equal. lia.
Qed.

Lemma array_set_in_range {A} (arr : list (option A)) i v :
  (i < length arr)%nat → array_set arr i v = <[i := Some v]> arr.
Proof. intros Hi. unfold array_set. by rewrite decide_True. Qed.

(** C8.  Declaring a bet and retracting it again restores the store
    exactly, for an index whose flag is [false] (the pool holding a count,
    i.e. not negative).  Declaring a bet that is already declared, and
    retracting one that is not, leave the store as it is. *)
Theorem declareRiichi_undoRiichi (s : GameStore) (playerIndex : nat) :
  (playerRiichi s !! playerIndex = Some (Some false) → 0 ≤ riichiBets s →
   undoRiichi (declareRiichi s playerIndex) playerIndex = s)
  ∧ (truthy (playerRiichi s !! playerIndex) = true →
     declareRiichi s playerIndex = s)
  ∧ (truthy (playerRiichi s !! playerIndex) = false →
     undoRiichi s playerIndex = s).
Proof.
  split; [|split].
  - intros Hflag Hpool.
    assert (playerIndex < length (playerRiichi s))%nat as Hrange
      by (exact (lookup_lt_Some _ _ _ Hflag)).
    unfold declareRiichi. rewrite Hflag. cbn [truthy].
    unfold undoRiichi. cbn [playerRiichi players riichiBets].
    rewrite (array_set_in_range (playerRiichi s)) by done.
    rewrite list_lookup_insert_eq by done. cbn [truthy negb].
    rewrite array_set_in_range by (by rewrite length_insert).
    rewrite list_insert_insert_eq. rewrite (list_insert_id _ _ _ Hflag).
    rewrite imap_score_round_trip.
    replace (Z.max 0 (riichiBets s + 1 - 1)) with (riichiBets s) by lia.
    by destruct s.
  - intros Hflag. unfold declareRiichi. by rewrite Hflag.
  - intros Hflag. unfold undoRiichi. by rewrite Hflag.
Qed.

Lemma declareRiichi_undoRiichi_witness :
  undoRiichi (declareRiichi sample_session 2) 2 = sample_session
  ∧ declareRiichi (declareRiichi sample_session 2) 2
    = declareRiichi sample_session 2
  ∧ undoRiichi sample_session 2 = sample_session.
Proof.
  split; [|split].
  - refine (proj1 (declareRiichi_undoRiichi sample_session 2) _ _);
      [reflexivity | cbn; lia].
  - refine (proj1 (proj2 (declareRiichi_undoRiichi
                            (declareRiichi sample_session 2) 2)) _).
    reflexivity.
  - refine (proj2 (proj2 (declareRiichi_undoRiichi sample_session 2)) _).
    reflexivity.
Defined.

(** ** Rotation of the dealer *)

(** [rotate] on a dealer index that is a natural number, for a table that is
    not empty: [%] is then the mathematical modulo. *)
Lemma rotate_spec (d : Z) (count : nat) (n : number) (w : RoundWind) :
  0 ≤ d → (0 < count)%nat →
  rotate (Int d) count n w =
    let nd := (d + 1) mod Z.of_nat count in
    if decide (nd = 0) then
      match w with
      | EastRound => (Int nd, Int 1, SouthRound, playing)
      | SouthRound => (Int nd, n, SouthRound, finished)
      end
    else (Int nd, Int (nd + 1), w, playing).
Proof.
  intros Hd Hcount. unfold rotate. cbn [js_add js_rem].
  destruct (Z.of_nat count =? 0) eqn:Hz; [apply Z.eqb_eq in Hz; lia|].
  rewrite Z.rem_mod_nonneg by lia. cbn [js_eq js_add].
  cbv zeta. destruct (decide ((d + 1) mod Z.of_nat count = 0)) as [H0|H0].
  - rewrite (proj2 (Z.eqb_eq _ _) H0). by destruct w.
  - by rewrite (proj2 (Z.eqb_neq _ _) H0).
Qed.

(** Among players with distinct identifiers, [winnerIsDealer] is the dealer
    flag of the player who has the winner's identifier. *)
Lemma winnerIsDealer_player ps round winner :
  NoDup (id <$> ps) → winner ∈ ps → winnerId round = Some (id winner) →
  winnerIsDealer ps round = isDealer winner.
Proof.
  intros Hnd Hin Hid. unfold winnerIsDealer.
  by rewrite Hid, (find_player_Some ps winner Hnd Hin).
Qed.

(** C4.  [recordWin] among players with distinct identifiers, the dealer
    index being a natural number [d] and [winner] the player who has the
    identifier [round.winnerId].  If [winner] holds the dealer flag, dealer
    index, round number and wind stay, honba goes up by one and the phase is
    [playing].  If [winner] does not hold it, honba is 0 and the dealer index
    is [(d + 1) mod playerCount]; when that is 0, the East round becomes the
    South round with round number 1, and the South round ends the match;
    when it is not 0, the round number is the new dealer index plus one. *)
Theorem recordWin_rotation (s : GameStore) (round : RoundOutcome) (d : Z)
    (winner : Player) :
  dealerIndex s = Int d → 0 ≤ d →
  NoDup (id <$> players s) →
  winner ∈ players s → winnerId round = Some (id winner) →
  let s' := recordWin s round in
  let newDealerIndex := (d + 1) mod Z.of_nat (length (players s)) in
  (isDealer winner = true →
     dealerIndex s' = dealerIndex s
     ∧ currentRoundNumber s' = currentRoundNumber s
     ∧ currentRoundWind s' = currentRoundWind s
     ∧ honba s' = honba s + 1
     ∧ phase s' = playing)
  ∧ (isDealer winner = false →
     honba s' = 0
     ∧ dealerIndex s' = Int newDealerIndex
     ∧ (newDealerIndex = 0 → currentRoundWind s = EastRound →
        currentRoundWind s' = SouthRound ∧ currentRoundNumber s' = Int 1
        ∧ phase s' = playing)
     ∧ (newDealerIndex = 0 → currentRoundWind s = SouthRound →
        phase s' = finished)
     ∧ (newDealerIndex ≠ 0 →
        currentRoundNumber s' = Int (newDealerIndex + 1)
        ∧ currentRoundWind s' = currentRoundWind s
        ∧ phase s' = playing)).
Proof.
  intros Hidx Hd Hnd Hin Hid s' nd. subst s'.
  assert (0 < length (players s))%nat as Hcount.
  { destruct (players s); [by apply not_elem_of_nil in Hin | simpl; lia]. }
  unfold recordWin. rewrite (winnerIsDealer_player _ _ _ Hnd Hin Hid).
  split; intros Hwin; rewrite Hwin.
  - done.
  - rewrite Hidx, rotate_spec by done. fold nd. cbv zeta.
    destruct (decide (nd = 0)) as [H0|H0].
    + destruct (currentRoundWind s) eqn:Hwind; cbn; repeat split; done.
    + cbn. repeat split; done.
Qed.

Lemma recordWin_rotation_witness :
  (dealerIndex (recordWin sample_session sample_dealer_ron) = Int 0
   ∧ currentRoundNumber (recordWin sample_session sample_dealer_ron) = Int 1
   ∧ honba (recordWin sample_session sample_dealer_ron) = 1)
  ∧ (dealerIndex (recordWin sample_session sample_ron) = Int 1
     ∧ currentRoundNumber (recordWin sample_session sample_ron) = Int 2
     ∧ honba (recordWin sample_session sample_ron) = 0).
Proof.
  split.
  - destruct (recordWin_rotation sample_session sample_dealer_ron 0
                (sample_player "player-0" East)) as [Hkeep _].
    + reflexivity.
    + lia.
    + compute_done.
    + vm_compute. repeat constructor.
    + reflexivity.
    + destruct Hkeep as (Hd & Hn & _ & Hh & _); [reflexivity|].
      exact (conj Hd (conj Hn Hh)).
  - destruct (recordWin_rotation sample_session sample_ron 0
                {| id := "player-2"; name := "player-2"; iconId := "icon";
                   seatWind := Some West; score := 25000;
                   isDealer := false |}) as [_ Hrot].
    + reflexivity.
    + lia.
    + compute_done.
    + vm_compute. repeat constructor.
    + reflexivity.
    + destruct Hrot as (Hh & Hd & _ & _ & Hn); [reflexivity|].
      destruct Hn as (Hn & _); [discriminate|].
      exact (conj Hd (conj Hn Hh)).
Defined.

(** ** Draws and the bet pool *)

(** C3, as the store has it.  When the dealer index names a player,
    [recordDraw] returns; it leaves the bet pool as it is and adds one to
    honba, for every tenpai list, and it sets the bet-declared flags to one
    [false] per player. *)
Theorem recordDraw_bets (s : GameStore) (tenpai : list string) :
  is_Some (selectDealer s) →
  ∃ s', recordDraw s tenpai = Ok s'
    ∧ riichiBets s' = riichiBets s
    ∧ honba s' = honba s + 1
    ∧ playerRiichi s' = array_fill (length (players s)) false.
Proof.
  intros [dealer Hdealer]. unfold selectDealer in Hdealer.
  unfold recordDraw. rewrite Hdealer.
  destruct (negb (bool_decide (id dealer ∈ tenpai)));
    [destruct (rotate _ _ _ _) as [[[??]?]?]|]; eexists; done.
Qed.

Lemma recordDraw_bets_witness :
  ∃ s', recordDraw (declareRiichi sample_session 1) ["player-1"] = Ok s'
    ∧ riichiBets s' = 1
    ∧ honba s' = 1
    ∧ playerRiichi s' = [Some false; Some false; Some false; Some false].
Proof.
  apply (recordDraw_bets (declareRiichi sample_session 1) ["player-1"]).
  by eexists.
Defined.

(** A draw after a declared bet: the flag of the player who declared is
    [true] before the draw and [false] after it. *)
Lemma recordDraw_resets_flags :
  let s := declareRiichi sample_session 1 in
  playerRiichi s = [Some false; Some true; Some false; Some false]
  ∧ match recordDraw s ["player-1"] with
    | Ok s' =>
        playerRiichi s' = [Some false; Some false; Some false; Some false]
        ∧ playerRiichi s' ≠ playerRiichi s
    | TypeError => False
    end.
Proof. split; [reflexivity|]. vm_compute. split; [reflexivity | discriminate]. Qed.

(** ** Dealer flag and seat winds *)

Lemma one_dealer d ps :
  (d < length ps)%nat →
  (∀ i p, ps !! i = Some p → isDealer p = bool_decide (i = d)) →
  length (filter (λ p, isDealer p = true) ps) = 1%nat.
Proof.
  revert d. induction ps as [|p ps IH]; intros d Hd Hflag; simpl in Hd; [lia|].
  rewrite filter_cons. destruct d as [|d].
  - rewrite decide_True by (by rewrite (Hflag 0%nat p)).
    simpl. f_equal. apply length_zero_iff_nil, elem_of_nil_inv.
    intros q [Hq Hin]%list_elem_of_filter.
    apply list_elem_of_lookup in Hin as [i Hi].
    rewrite (Hflag (S i) q Hi) in Hq. by apply bool_decide_eq_true in Hq.
  - rewrite decide_False.
    + apply (IH d); [lia|]. intros i q Hi.
      rewrite (Hflag (S i) q Hi). apply bool_decide_ext. lia.
    + rewrite (Hflag 0%nat p) by done. by rewrite bool_decide_eq_false_2.
Qed.

Lemma table_ok_invariant s : table_ok s → dealer_invariant s.
Proof.
  intros (Hcount & d & Hidx & Hd & Hseat). exists d.
  split; [done|]. split; [lia|]. split; [|split; [|done]].
  - apply (one_dealer d); [done|]. intros i p Hi. by apply Hseat.
  - unfold selectDealer. rewrite Hidx. cbn [js_index].
    destruct (Z.of_nat d <? 0) eqn:Hneg; [apply Z.ltb_lt in Hneg; lia|].
    rewrite Nat2Z.id.
    destruct (lookup_lt_is_Some_2 (players s) d Hd) as [p Hp].
    exists p. split; [done|].
    rewrite (proj1 (Hseat d p Hp)). by apply bool_decide_eq_true_2.
Qed.

Lemma length_reassign nd count ps : length (reassign nd count ps) = length ps.
Proof. apply length_imap. Qed.

Lemma length_apply_payments pay ps : length (apply_payments pay ps) = length ps.
Proof. apply length_fmap. Qed.

(** [reassign] seats the players around the new dealer. *)
Lemma seated_reassign (nd : nat) (ps : list Player) :
  (nd < length ps)%nat → (length ps ≤ 4)%nat →
  seated nd (reassign (Int (Z.of_nat nd)) (length ps) ps).
Proof.
  intros Hnd Hcount i p'. unfold reassign.
  rewrite list_lookup_imap, length_imap.
  destruct (ps !! i) as [p|] eqn:Hi; [|done].
  intros [= <-]. apply lookup_lt_Some in Hi.
  cbn [with_seat isDealer seatWind js_eq].
  assert (seatWindOf (Int (Z.of_nat i)) (Int (Z.of_nat nd))
            (Int (Z.of_nat (length ps)))
          = WINDS !! Z.to_nat ((Z.of_nat i - Z.of_nat nd + Z.of_nat (length ps))
                               mod Z.of_nat (length ps))) as Hwind.
  { unfold seatWindOf. cbn [js_sub js_add js_rem].
    destruct (Z.of_nat (length ps) =? 0) eqn:Hz; [apply Z.eqb_eq in Hz; lia|].
    rewrite Z.rem_mod_nonneg by lia. cbn [js_index].
    pose proof (Z.mod_pos_bound
                  (Z.of_nat i - Z.of_nat nd + Z.of_nat (length ps))
                  (Z.of_nat (length ps))) as Hb.
    destruct (_ <? 0) eqn:Hneg; [apply Z.ltb_lt in Hneg; lia | done]. }
  split; [|split; [|done]].
  - destruct (decide (i = nd)) as [->|Hne].
    + by rewrite Z.eqb_refl, bool_decide_eq_true_2.
    + rewrite bool_decide_eq_false_2 by done. apply Z.eqb_neq. lia.
  - rewrite Hwind. apply lookup_lt_is_Some_2.
    pose proof (Z.mod_pos_bound
                  (Z.of_nat i - Z.of_nat nd + Z.of_nat (length ps))
                  (Z.of_nat (length ps))) as Hb.
    change (length WINDS) with 4%nat. lia.
Qed.

(** Seating is a matter of the flags and seat winds alone. *)
Lemma seated_same_seats d (ps ps' : list Player) :
  length ps' = length ps →
  (∀ i p', ps' !! i = Some p' →
     ∃ p, ps !! i = Some p ∧ isDealer p' = isDealer p
          ∧ seatWind p' = seatWind p) →
  seated d ps → seated d ps'.
Proof.
  intros Hlen Hsame Hseat i p' Hi.
  destruct (Hsame i p' Hi) as (p & Hp & -> & ->).
  rewrite Hlen. by apply Hseat.
Qed.

Lemma table_ok_initGame s ps startingScore :
  length ps = 3%nat ∨ length ps = 4%nat →
  table_ok (initGame s ps startingScore).
Proof.
  intros Hcount. unfold table_ok. cbn [initGame players dealerIndex].
  rewrite length_imap. split; [done|].
  exists 0%nat. split; [done|]. split; [lia|].
  intros i p'. rewrite list_lookup_imap, length_imap.
  destruct (ps !! i) as [p|] eqn:Hi; [|done]. intros [= <-].
  apply lookup_lt_Some in Hi. cbn [isDealer seatWind].
  replace (Z.to_nat ((Z.of_nat i - Z.of_nat 0 + Z.of_nat (length ps))
                     mod Z.of_nat (length ps))) with i.
  - split; [done|]. split; [|done].
    apply lookup_lt_is_Some_2. change (length WINDS) with 4%nat. lia.
  - replace (Z.of_nat i - Z.of_nat 0 + Z.of_nat (length ps))
      with (Z.of_nat i + 1 * Z.of_nat (length ps)) by lia.
    rewrite Z.mod_add, Z.mod_small by lia. by rewrite Nat2Z.id.
Qed.

Lemma table_ok_declareRiichi s i : table_ok s → table_ok (declareRiichi s i).
Proof.
  intros Hok. unfold declareRiichi.
  destruct (truthy _); [done|].
  destruct Hok as (Hcount & d & Hidx & Hd & Hseat).
  unfold table_ok. cbn [players dealerIndex]. rewrite length_imap.
  split; [done|]. exists d. split; [done|]. split; [done|].
  apply (seated_same_seats d (players s)); [apply length_imap | | done].
  intros j p'. rewrite list_lookup_imap.
  destruct (players s !! j) as [p|]; [|done]. intros [= <-].
  exists p. by destruct (decide (j = i)).
Qed.

Lemma table_ok_undoRiichi s i : table_ok s → table_ok (undoRiichi s i).
Proof.
  intros Hok. unfold undoRiichi.
  destruct (negb (truthy _)); [done|].
  destruct Hok as (Hcount & d & Hidx & Hd & Hseat).
  unfold table_ok. cbn [players dealerIndex]. rewrite length_imap.
  split; [done|]. exists d. split; [done|]. split; [done|].
  apply (seated_same_seats d (players s)); [apply length_imap | | done].
  intros j p'. rewrite list_lookup_imap.
  destruct (players s !! j) as [p|]; [|done]. intros [= <-].
  exists p. by destruct (decide (j = i)).
Qed.

Lemma rotate_dealer (d count : nat) (n : number) (w : RoundWind) :
  (0 < count)%nat →
  ∃ n' w' ph,
    rotate (Int (Z.of_nat d)) count n w
    = (Int (Z.of_nat ((d + 1) mod count)), n', w', ph).
Proof.
  intros Hcount. rewrite rotate_spec by lia. cbv zeta.
  replace ((Z.of_nat d + 1) mod Z.of_nat count)
    with (Z.of_nat ((d + 1) mod count))
    by (rewrite Nat2Z.inj_mod; f_equal; lia).
  case_decide; [destruct w|]; eauto.
Qed.

(** A store whose players were reseated around an index of the table. *)
Lemma table_ok_reseated (s' : GameStore) (nd : nat) (ps : list Player) :
  length ps = 3%nat ∨ length ps = 4%nat → (nd < length ps)%nat →
  players s' = reassign (Int (Z.of_nat nd)) (length ps) ps →
  dealerIndex s' = Int (Z.of_nat nd) →
  table_ok s'.
Proof.
  intros Hcount Hnd Hps Hidx. unfold table_ok.
  rewrite Hps, length_reassign. split; [done|].
  exists nd. split; [done|]. split; [done|].
  apply seated_reassign; lia.
Qed.

Lemma table_ok_recordWin s round : table_ok s → table_ok (recordWin s round).
Proof.
  intros (Hcount & d & Hidx & Hd & _).
  pose proof (length_apply_payments (payments round) (players s)) as Hlen.
  unfold recordWin. destruct (winnerIsDealer _ _).
  - apply (table_ok_reseated _ d (apply_payments (payments round) (players s)));
      cbn [players dealerIndex]; rewrite ?Hlen, ?Hidx; done.
  - rewrite Hidx.
    destruct (rotate_dealer d (length (players s)) (currentRoundNumber s)
                (currentRoundWind s)) as (n' & w' & ph & ->); [lia|].
    apply (table_ok_reseated _ ((d + 1) mod length (players s))
             (apply_payments (payments round) (players s)));
      cbn [players dealerIndex]; rewrite ?Hlen; try done.
    apply Nat.mod_upper_bound. lia.
Qed.

Lemma recordDraw_returns s tenpai :
  table_ok s → ∃ s', recordDraw s tenpai = Ok s'.
Proof.
  intros Hok. apply table_ok_invariant in Hok as (d & _ & _ & _ & Hsel & _).
  destruct Hsel as (p & Hp & _). unfold selectDealer in Hp.
  unfold recordDraw. rewrite Hp.
  destruct (negb _); [destruct (rotate _ _ _ _) as [[[??]?]?]|]; by eexists.
Qed.

Lemma table_ok_recordDraw s tenpai s' :
  table_ok s → recordDraw s tenpai = Ok s' → table_ok s'.
Proof.
  intros (Hcount & d & Hidx & Hd & _).
  pose proof (length_apply_payments
                (computeDrawPayments (players s) tenpai) (players s)) as Hlen.
  unfold recordDraw. destruct (js_index _ _) as [dealer|]; [|done].
  destruct (negb _).
  - rewrite Hidx.
    destruct (rotate_dealer d (length (players s)) (currentRoundNumber s)
                (currentRoundWind s)) as (n' & w' & ph & ->); [lia|].
    intros [= <-].
    apply (table_ok_reseated _ ((d + 1) mod length (players s))
             (apply_payments (computeDrawPayments (players s) tenpai)
                (players s)));
      cbn [players dealerIndex]; rewrite ?Hlen; try done.
    apply Nat.mod_upper_bound. lia.
  - intros [= <-].
    apply (table_ok_reseated _ d
             (apply_payments (computeDrawPayments (players s) tenpai)
                (players s)));
      cbn [players dealerIndex]; rewrite ?Hlen, ?Hidx; done.
Qed.

Lemma session_table_ok s : session s → table_ok s.
Proof.
  induction 1 as [s ps sc Hcount | s i _ IH | s i _ IH | s r _ IH
                 | s t s' _ IH Hdraw | s _ IH].
  - by apply table_ok_initGame.
  - by apply table_ok_declareRiichi.
  - by apply table_ok_undoRiichi.
  - by apply table_ok_recordWin.
  - by apply (table_ok_recordDraw s t).
  - exact IH.
Qed.

(** C9.  In every state of a session (from [initGame] with three or four
    players, through [declareRiichi], [undoRiichi], [recordWin],
    [recordDraw] and [endGame]): the dealer index is a number in
    [0, playerCount); exactly one player has the dealer flag; that player is
    [players[dealerIndex]]; and the seat wind of the player at index [i] is
    the entry of [WINDS] at [(i - dealerIndex + playerCount) mod playerCount].
    In such a state [recordDraw] never throws. *)
Theorem session_dealer_invariant (s : GameStore) :
  session s →
  dealer_invariant s ∧ ∀ tenpai, ∃ s', recordDraw s tenpai = Ok s'.
Proof.
  intros Hs%session_table_ok. split.
  - by apply table_ok_invariant.
  - intros tenpai. by apply recordDraw_returns.
Qed.

Lemma session_dealer_invariant_witness :
  dealer_invariant (recordWin sample_session sample_ron)
  ∧ ∀ tenpai, ∃ s', recordDraw (recordWin sample_session sample_ron) tenpai = Ok s'.
Proof.
  apply (session_dealer_invariant (recordWin sample_session sample_ron)).
  apply session_recordWin, session_initGame. right. reflexivity.
Defined.

(** [resetGame] ends the session: it leaves a table without players, hence
    without a dealer, until the next [initGame]. *)
Lemma resetGame_no_players s :
  players (resetGame s) = [] ∧ selectDealer (resetGame s) = None.
Proof. done. Qed.

(** ** Phases *)

Lemma phase_rotate d count n w :
  (rotate d count n w).2 = playing ∨ (rotate d count n w).2 = finished.
Proof.
  unfold rotate. destruct (js_eq _ _); [destruct w|]; cbn; auto.
Qed.

Lemma phase_recordWin s round :
  phase (recordWin s round) = playing ∨ phase (recordWin s round) = finished.
Proof.
  unfold recordWin. destruct (winnerIsDealer _ _); [by left|].
  pose proof (phase_rotate (dealerIndex s) (length (players s))
                (currentRoundNumber s) (currentRoundWind s)) as H.
  by destruct (rotate _ _ _ _) as [[[??]?]?].
Qed.

Lemma phase_recordDraw s tenpai s' :
  recordDraw s tenpai = Ok s' → phase s' = playing ∨ phase s' = finished.
Proof.
  unfold recordDraw. destruct (js_index _ _); [|done].
  destruct (negb _).
  - pose proof (phase_rotate (dealerIndex s) (length (players s))
                  (currentRoundNumber s) (currentRoundWind s)) as H.
    destruct (rotate _ _ _ _) as [[[??]?]?]. by intros [= <-].
  - intros [= <-]. by left.
Qed.

Lemma phase_declareRiichi s i : phase (declareRiichi s i) = phase s.
Proof. unfold declareRiichi. by destruct (truthy _). Qed.

Lemma phase_undoRiichi s i : phase (undoRiichi s i) = phase s.
Proof. unfold undoRiichi. by destruct (negb _). Qed.

(** No action reads the phase: stores that differ in the phase only (their
    images under [endGame] are the same) give the same store after
    [recordWin] and after [recordDraw], and stores that differ in the phase
    only after [declareRiichi] and after [undoRiichi]. *)
Lemma phase_blind_recordWin s0 s round :
  endGame s0 = endGame s → recordWin s0 round = recordWin s round.
Proof.
  intros [= Hp Hs Hr Hn Hw Hh Hb Hf Hd]. unfold recordWin.
  by rewrite Hp, Hr, Hn, Hw, Hh, Hb, Hd, Hs.
Qed.

Lemma phase_blind_recordDraw s0 s tenpai :
  endGame s0 = endGame s → recordDraw s0 tenpai = recordDraw s tenpai.
Proof.
  intros [= Hp Hs Hr Hn Hw Hh Hb Hf Hd]. unfold recordDraw.
  by rewrite Hp, Hr, Hn, Hw, Hh, Hb, Hd, Hs.
Qed.

Lemma phase_blind_declareRiichi s0 s i :
  endGame s0 = endGame s →
  endGame (declareRiichi s0 i) = endGame (declareRiichi s i).
Proof.
  intros Heq.
  assert (playerRiichi s0 = playerRiichi s) as Hf
    by exact (f_equal playerRiichi Heq).
  unfold declareRiichi. rewrite Hf. destruct (truthy _); [done|].
  unfold endGame. cbn. injection Heq as Hp Hs Hr Hn Hw Hh Hb _ Hd.
  congruence.
Qed.

Lemma phase_blind_undoRiichi s0 s i :
  endGame s0 = endGame s →
  endGame (undoRiichi s0 i) = endGame (undoRiichi s i).
Proof.
  intros Heq.
  assert (playerRiichi s0 = playerRiichi s) as Hf
    by exact (f_equal playerRiichi Heq).
  unfold undoRiichi. rewrite Hf. destruct (negb _); [done|].
  unfold endGame. cbn. injection Heq as Hp Hs Hr Hn Hw Hh Hb _ Hd.
  congruence.
Qed.

(** The phase that the rotation past seat [d] leaves. *)
Lemma phase_after_recordWin s round d winner :
  dealerIndex s = Int d → 0 ≤ d → NoDup (id <$> players s) →
  winner ∈ players s → winnerId round = Some (id winner) →
  phase (recordWin s round)
  = if isDealer winner then playing
    else if decide ((d + 1) mod Z.of_nat (length (players s)) = 0) then
      match currentRoundWind s with
      | EastRound => playing
      | SouthRound => finished
      end
    else playing.
Proof.
  intros Hidx Hd Hnd Hin Hid.
  assert (0 < length (players s))%nat as Hcount.
  { destruct (players s); [by apply not_elem_of_nil in Hin | simpl; lia]. }
  unfold recordWin. rewrite (winnerIsDealer_player _ _ _ Hnd Hin Hid).
  destruct (isDealer winner); [done|].
  rewrite Hidx, rotate_spec by done. cbv zeta.
  destruct (decide (_ = 0)); [by destruct (currentRoundWind s)|done].
Qed.

Lemma phase_after_recordDraw s tenpai d dealer :
  dealerIndex s = Int d → 0 ≤ d → selectDealer s = Some dealer →
  ∃ s', recordDraw s tenpai = Ok s'
    ∧ phase s'
      = if decide (id dealer ∈ tenpai) then playing
        else if decide ((d + 1) mod Z.of_nat (length (players s)) = 0) then
          match currentRoundWind s with
          | EastRound => playing
          | SouthRound => finished
          end
        else playing.
Proof.
  intros Hidx Hd Hsel. unfold selectDealer in Hsel.
  assert (0 < length (players s))%nat as Hcount.
  { rewrite Hidx in Hsel. cbn in Hsel.
    destruct (d <? 0); [done|].
    apply lookup_lt_Some in Hsel. lia. }
  unfold recordDraw. rewrite Hsel.
  destruct (decide (id dealer ∈ tenpai)) as [Hten|Hten].
  - rewrite bool_decide_eq_true_2 by done. cbn [negb]. by eexists.
  - rewrite bool_decide_eq_false_2 by done. cbn [negb].
    rewrite Hidx, rotate_spec by done. cbv zeta.
    destruct (decide (_ = 0)); [destruct (currentRoundWind s)|];
      by eexists.
Qed.

(** C2, as the store has it.  [declareRiichi] and [undoRiichi] keep the
    phase and [endGame] sets it to [finished], in every phase.  Applied in
    the setup or playing phase, [initGame], [recordWin] and [recordDraw]
    keep the phase or move it forward.  No action reads the phase: a store
    that differs from [s] in the phase only gives the same store after
    [recordWin] and [recordDraw], and a store that differs in the phase only
    after [declareRiichi] and [undoRiichi].  So in the finished phase too,
    [recordWin] and a returning [recordDraw] add a round to the history,
    [declareRiichi] on a flag that is not set adds a bet and [undoRiichi] on
    a set flag takes one away.  Among players with distinct identifiers and
    with a natural dealer index [d], the phase after a player's [recordWin]
    and after [recordDraw] is [finished] exactly when the deal passes on (the
    winner does not hold the dealer flag; the dealer is not tenpai), the next
    dealer index [(d + 1) mod playerCount] is 0 and the round is South; in
    every other case it is [playing], whatever the phase before. *)
Theorem phase_moves_forward (s : GameStore) :
  (∀ i, phase (declareRiichi s i) = phase s)
  ∧ (∀ i, phase (undoRiichi s i) = phase s)
  ∧ phase (endGame s) = finished
  ∧ (phase s ≠ finished →
     (∀ ps startingScore, phase_le (phase s) (phase (initGame s ps startingScore)))
     ∧ (∀ round, phase_le (phase s) (phase (recordWin s round)))
     ∧ (∀ tenpai s', recordDraw s tenpai = Ok s' →
          phase_le (phase s) (phase s')))
  ∧ (∀ s0, endGame s0 = endGame s →
       (∀ round, recordWin s0 round = recordWin s round)
       ∧ (∀ tenpai, recordDraw s0 tenpai = recordDraw s tenpai)
       ∧ (∀ i, endGame (declareRiichi s0 i) = endGame (declareRiichi s i))
       ∧ (∀ i, endGame (undoRiichi s0 i) = endGame (undoRiichi s i)))
  ∧ (∀ round, length (rounds (recordWin s round)) = S (length (rounds s)))
  ∧ (∀ tenpai s', recordDraw s tenpai = Ok s' →
       length (rounds s') = S (length (rounds s)))
  ∧ (∀ i, truthy (playerRiichi s !! i) = false →
       riichiBets (declareRiichi s i) = riichiBets s + 1)
  ∧ (∀ i, truthy (playerRiichi s !! i) = true →
       riichiBets (undoRiichi s i) = Z.max 0 (riichiBets s - 1))
  ∧ (∀ d, dealerIndex s = Int d → 0 ≤ d →
       let passes_to_first :=
         (d + 1) mod Z.of_nat (length (players s)) = 0 in
       (∀ round winner,
          NoDup (id <$> players s) →
          winner ∈ players s → winnerId round = Some (id winner) →
          phase (recordWin s round)
          = if isDealer winner then playing
            else if decide passes_to_first then
              match currentRoundWind s with
              | EastRound => playing
              | SouthRound => finished
              end
            else playing)
       ∧ (∀ tenpai dealer,
            selectDealer s = Some dealer →
            ∃ s', recordDraw s tenpai = Ok s'
              ∧ phase s'
                = if decide (id dealer ∈ tenpai) then playing
                  else if decide passes_to_first then
                    match currentRoundWind s with
                    | EastRound => playing
                    | SouthRound => finished
                    end
                  else playing)).
Proof.
  split; [exact (phase_declareRiichi s)|].
  split; [exact (phase_undoRiichi s)|].
  split; [done|].
  split.
  { intros Hphase. unfold phase_le. split; [|split].
    - intros ps sc. cbn. destruct (phase s); cbn; lia || done.
    - intros round. destruct (phase_recordWin s round) as [-> | ->];
        destruct (phase s); cbn; lia || done.
    - intros tenpai s' Hdraw.
      destruct (phase_recordDraw s tenpai s' Hdraw) as [-> | ->];
        destruct (phase s); cbn; lia || done. }
  split.
  { intros s0 Heq. split; [|split; [|split]].
    - intros round. by apply phase_blind_recordWin.
    - intros tenpai. by apply phase_blind_recordDraw.
    - intros i. by apply phase_blind_declareRiichi.
    - intros i. by apply phase_blind_undoRiichi. }
  split.
  { intros round. unfold recordWin. destruct (winnerIsDealer _ _); [done|].
    by destruct (rotate _ _ _ _) as [[[??]?]?]. }
  split.
  { intros tenpai s'. unfold recordDraw. destruct (js_index _ _); [|done].
    destruct (negb _); [destruct (rotate _ _ _ _) as [[[??]?]?]|];
      by intros [= <-]. }
  split.
  { intros i Hflag. unfold declareRiichi. by rewrite Hflag. }
  split.
  { intros i Hflag. unfold undoRiichi. by rewrite Hflag. }
  intros d Hidx Hd passes. split.
  - intros round winner Hnd Hin Hid.
    by apply (phase_after_recordWin s round d winner).
  - intros tenpai dealer Hsel.
    by apply (phase_after_recordDraw s tenpai d dealer).
Qed.

Lemma phase_moves_forward_witness :
  phase_le (phase sample_session) (phase (recordWin sample_session sample_ron))
  ∧ phase (endGame sample_session) = finished
  ∧ recordWin (endGame sample_session) sample_dealer_ron
    = recordWin sample_session sample_dealer_ron
  ∧ phase (recordWin (endGame sample_session) sample_dealer_ron) = playing.
Proof.
  destruct (phase_moves_forward sample_session)
    as (_ & _ & Hend & Hforward & Hblind & _).
  destruct (phase_moves_forward (endGame sample_session))
    as (_ & _ & _ & _ & _ & _ & _ & _ & _ & Hafter).
  split; [|split; [|split]].
  - destruct Hforward as (_ & Hwin & _); [discriminate|].
    exact (Hwin sample_ron).
  - exact Hend.
  - destruct (Hblind (endGame sample_session) eq_refl) as [Hwin _].
    exact (Hwin sample_dealer_ron).
  - destruct (Hafter 0 eq_refl) as [Hwin _]; [lia|].
    apply (Hwin sample_dealer_ron (sample_player "player-0" East)).
    + compute_done.
    + vm_compute. repeat constructor.
    + reflexivity.
Defined.

(** After [endGame] the phase is [finished]; a [recordWin] is applied all the
    same: it appends the round, pays the points and sets the phase back to
    [playing].  [declareRiichi] takes the bet as well. *)
Lemma recordWin_when_finished :
  let s := endGame sample_session in
  phase s = finished
  ∧ phase (recordWin s sample_ron) = playing
  ∧ length (rounds (recordWin s sample_ron)) = 1%nat
  ∧ score <$> players (recordWin s sample_ron) = [21100; 25000; 28900; 25000]
  ∧ riichiBets (declareRiichi s 0) = 1.
Proof. vm_compute. repeat split. Qed.

(** ** No guards *)

(** C7, as the store has it.  [initGame] does not look at the player count:
    for every player list it sets the phase to [playing] and seats as many
    players as it was given.  [recordWin] does not look at the phase: in
    every state it appends the round to the history and leaves a phase that
    is not [setup]. *)
Theorem actions_are_unguarded (s : GameStore) :
  (∀ ps startingScore,
     phase (initGame s ps startingScore) = playing
     ∧ length (players (initGame s ps startingScore)) = length ps)
  ∧ (∀ round,
       length (rounds (recordWin s round)) = S (length (rounds s))
       ∧ phase (recordWin s round) ≠ setup).
Proof.
  split.
  - intros ps sc. cbn. by rewrite length_imap.
  - intros round. split.
    + unfold recordWin. destruct (winnerIsDealer _ _); [done|].
      by destruct (rotate _ _ _ _) as [[[??]?]?].
    + by destruct (phase_recordWin s round) as [-> | ->].
Qed.

(** [initGame] with two players starts a match; [recordWin] in the setup
    phase records a round and starts one too. *)
Lemma initGame_two_players :
  phase initial_store = setup
  ∧ phase (initGame initial_store two_players 25000) = playing
  ∧ length (players (initGame initial_store two_players 25000)) = 2%nat
  ∧ phase (recordWin initial_store sample_ron) = playing
  ∧ length (rounds (recordWin initial_store sample_ron)) = 1%nat.
Proof. vm_compute. repeat split. Qed.

(** ** Conservation of points *)

Lemma sum_scores_imap (f : nat → Player → Player) ps :
  (∀ i p, score (f i p) = score p) →
  sum_scores (imap f ps) = sum_scores ps.
Proof.
  revert f. induction ps as [|p ps IH]; intros f Hf; [done|].
  rewrite imap_cons. simpl. rewrite Hf. f_equal.
  apply IH. intros i q. apply Hf.
Qed.

Lemma sum_scores_reassign nd count ps :
  sum_scores (reassign nd count ps) = sum_scores ps.
Proof. by apply sum_scores_imap. Qed.

Lemma sum_scores_apply_payments pay ps :
  sum_scores (apply_payments pay ps)
  = sum_scores ps + sum_over (λ k, default 0 (pay !! k)) (id <$> ps).
Proof.
  unfold apply_payments, sum_scores, sum_over.
  induction ps as [|p ps IH]; [done|].
  rewrite !fmap_cons. cbn [foldr]. rewrite IH. cbn [with_score score]. lia.
Qed.

(** [recordWin] adds to the scores what the mapping holds for the players,
    and empties the bet pool. *)
Lemma recordWin_scores s round :
  sum_scores (players (recordWin s round))
  = sum_scores (players s)
    + sum_over (λ k, default 0 (payments round !! k)) (id <$> players s)
  ∧ riichiBets (recordWin s round) = 0
  ∧ length (players (recordWin s round)) = length (players s)
  ∧ startingScore (recordWin s round) = startingScore s.
Proof.
  unfold recordWin. destruct (winnerIsDealer _ _).
  - cbn [players riichiBets startingScore].
    by rewrite sum_scores_reassign, sum_scores_apply_payments,
      length_reassign, length_apply_payments.
  - destruct (rotate _ _ _ _) as [[[??]?]?].
    cbn [players riichiBets startingScore].
    by rewrite sum_scores_reassign, sum_scores_apply_payments,
      length_reassign, length_apply_payments.
Qed.

(** With a mapping that moves points between the players only, a win
    conserves the points when no bet is on the table. *)
Lemma recordWin_conserved_empty_pool s round :
  sum_over (λ k, default 0 (payments round !! k)) (id <$> players s) = 0 →
  riichiBets s = 0 → conserved s → conserved (recordWin s round).
Proof.
  intros Hzero Hpool Hcons. unfold conserved in *.
  destruct (recordWin_scores s round) as (-> & -> & -> & ->). lia.
Qed.

(** A draw between three or four players conserves the points, bets on the
    table included. *)
Lemma recordDraw_conserved s tenpai s' :
  length (players s) = 3%nat ∨ length (players s) = 4%nat →
  NoDup (id <$> players s) → NoDup tenpai →
  (∀ k, k ∈ tenpai → k ∈ id <$> players s) →
  conserved s → recordDraw s tenpai = Ok s' → conserved s'.
Proof.
  intros Hcount Hids Hten Hsub Hcons.
  pose proof (sum_computeDrawPayments (players s) tenpai
                Hcount Hids Hten Hsub) as Hzero.
  unfold conserved in *. unfold recordDraw.
  destruct (js_index _ _); [|done].
  destruct (negb _); [destruct (rotate _ _ _ _) as [[[??]?]?]|];
    intros [= <-]; cbn [players riichiBets startingScore];
    rewrite sum_scores_reassign, sum_scores_apply_payments,
      length_reassign, length_apply_payments; lia.
Qed.

(** What a win does to the ledger when bets are on the table: the mapping
    moving points between the players only, the scores keep their sum while
    the pool is emptied, so the ledger is short of [1000 * riichiBets]. *)
Lemma recordWin_loses_pool s round :
  sum_over (λ k, default 0 (payments round !! k)) (id <$> players s) = 0 →
  conserved s →
  sum_scores (players (recordWin s round))
  + 1000 * riichiBets (recordWin s round)
  = Z.of_nat (length (players (recordWin s round)))
    * startingScore (recordWin s round)
    - 1000 * riichiBets s.
Proof.
  intros Hzero Hcons. unfold conserved in Hcons.
  destruct (recordWin_scores s round) as (-> & -> & -> & ->). lia.
Qed.

(** C1 at a session in which a bet is declared before a win.  Four players
    start at 25000; [player-0] declares a bet (1000 points go to the pool);
    [player-2] then wins 3900 points off [player-0].  Before the win the
    scores and the pool add up to 100000; after it the pool is empty and the
    scores add up to 99000: the bet is credited to nobody. *)
Lemma recordWin_drops_bets :
  let s1 := declareRiichi sample_session 0 in
  let s2 := recordWin s1 sample_ron in
  conserved sample_session
  ∧ conserved s1
  ∧ score <$> players s1 = [24000; 25000; 25000; 25000]
  ∧ riichiBets s1 = 1
  ∧ sum_payments (payments sample_ron) = 0
  ∧ score <$> players s2 = [20100; 25000; 28900; 25000]
  ∧ riichiBets s2 = 0
  ∧ sum_scores (players s2) + 1000 * riichiBets s2 = 99000
  ∧ ¬ conserved s2.
Proof.
  vm_compute. repeat split; discriminate.
Qed.

(** ** Sessions without bets *)

Lemma tsumo_loop_dom w wd dp ndp l acc k :
  (∀ p, p ∈ l → is_Some (acc.1 !! id p)) →
  is_Some ((foldl (tsumo_step w wd dp ndp) acc l).1 !! k)
  ↔ is_Some (acc.1 !! k).
Proof.
  revert acc. induction l as [|p l IH]; intros acc Hdom; [done|].
  assert (is_Some (acc.1 !! id p)) as Hp by (apply Hdom; by left).
  assert (∀ v j, is_Some (<[id p := v]> (acc.1) !! j) ↔ is_Some (acc.1 !! j))
    as Hins.
  { intros v j. rewrite lookup_insert_is_Some. split.
    - by intros [<- | [_ ?]].
    - intros Hj. destruct (decide (id p = j)); [by left | by right]. }
  cbn [foldl]. rewrite IH.
  - unfold tsumo_step. destruct (decide (id p = w)); [done|].
    destruct wd; [|destruct (isDealer p)]; apply Hins.
  - intros q Hq. unfold tsumo_step.
    destruct (decide (id p = w)); [apply Hdom; by right|].
    destruct wd; [|destruct (isDealer p)]; cbn [fst]; rewrite Hins;
      apply Hdom; by right.
Qed.

Lemma find_player_elem ps w p :
  find_player ps w = Some p → p ∈ ps ∧ id p = w.
Proof.
  intros [Hin Hid]%List.find_some. split; [by apply list_elem_of_In|].
  by apply bool_decide_eq_true in Hid.
Qed.

Lemma zero_payments_dom ps k : is_Some (zero_payments ps !! k) ↔ k ∈ id <$> ps.
Proof.
  rewrite lookup_zero_payments.
  case_decide; split; (done || eauto || by intros [??]).
Qed.

(** A settlement mapping moves points between the players only. *)
Lemma settlement_zero_sum ps pay :
  NoDup (id <$> ps) → settlement ps pay →
  sum_over (λ k, default 0 (pay !! k)) (id <$> ps) = 0.
Proof.
  intros Hnd [w dp ndp tot pay' Hpay | w l tot Hw Hl Hne].
  - assert (∃ winner, winner ∈ ps ∧ id winner = w) as (winner & Hin & <-).
    { unfold computeTsumoPayments in Hpay.
      destruct (find_player ps w) as [winner|] eqn:Hfind; [|done].
      exists winner. by apply find_player_elem. }
    unfold computeTsumoPayments in Hpay.
    rewrite find_player_Some in Hpay by done. injection Hpay as <-.
    rewrite <- (sum_payments_keys (id <$> ps)); [|done|].
    { by apply tsumo_payments_balance. }
    intros k.
    rewrite lookup_insert_is_Some, tsumo_loop_dom; cbn [fst].
    + rewrite zero_payments_dom.
      destruct (decide (id winner = k)) as [<-|].
      * split; [intros _ | by left]. by apply list_elem_of_fmap_2.
      * split; [by intros [? | [_ ?]] | by right].
    + intros p Hp. apply zero_payments_dom. by apply list_elem_of_fmap_2.
  - rewrite <- (sum_payments_keys (id <$> ps)); [|done|].
    + rewrite !sum_payments_insert, sum_zero_payments by done.
      rewrite lookup_insert_ne by done.
      rewrite !lookup_zero_payments, !decide_True by done. simpl. lia.
    + intros k. rewrite !lookup_insert_is_Some, zero_payments_dom.
      destruct (decide (w = k)) as [<-|]; [split; [done | by left]|].
      destruct (decide (l = k)) as [<-|].
      * split; [done | right; split; [done | by left]].
      * split; [by intros [? | [_ [? | [_ ?]]]] | by right; split; [|right]].
Qed.

Lemma ids_reassign nd count ps : id <$> reassign nd count ps = id <$> ps.
Proof.
  unfold reassign. apply list_eq. intros i.
  rewrite !list_lookup_fmap, list_lookup_imap. by destruct (ps !! i).
Qed.

Lemma ids_apply_payments pay ps : id <$> apply_payments pay ps = id <$> ps.
Proof.
  unfold apply_payments. rewrite <- list_fmap_compose. by apply list_fmap_ext.
Qed.

Lemma ids_recordWin s round : id <$> players (recordWin s round) = id <$> players s.
Proof.
  unfold recordWin.
  destruct (winnerIsDealer _ _); [|destruct (rotate _ _ _ _) as [[[??]?]?]];
    cbn [players]; by rewrite ids_reassign, ids_apply_payments.
Qed.

Lemma ids_recordDraw s tenpai s' :
  recordDraw s tenpai = Ok s' → id <$> players s' = id <$> players s.
Proof.
  unfold recordDraw. destruct (js_index _ _); [|done].
  destruct (negb _); [destruct (rotate _ _ _ _) as [[[??]?]?]|];
    intros [= <-]; cbn [players]; by rewrite ids_reassign, ids_apply_payments.
Qed.

Lemma riichiBets_recordDraw s tenpai s' :
  recordDraw s tenpai = Ok s' → riichiBets s' = riichiBets s.
Proof.
  unfold recordDraw. destruct (js_index _ _); [|done].
  destruct (negb _); [destruct (rotate _ _ _ _) as [[[??]?]?]|];
    by intros [= <-].
Qed.

Lemma initGame_conserved s ps sc : conserved (initGame s ps sc).
Proof.
  unfold conserved. cbn [initGame players riichiBets startingScore].
  rewrite length_imap.
  cut (∀ (f : nat → Player → Player),
         (∀ i p, score (f i p) = sc) →
         sum_scores (imap f ps) = Z.of_nat (length ps) * sc).
  { intros H. rewrite H by done. lia. }
  induction ps as [|p l IH]; intros f Hf; [done|].
  rewrite imap_cons. cbn [sum_scores foldr length].
  fold (sum_scores (imap (f ∘ S) l)).
  rewrite Hf, IH by (intros; apply Hf). lia.
Qed.

(** As long as no bet is declared the pool stays empty and the points are
    conserved after every [recordWin] and [recordDraw]. *)
Lemma settled_session_conserved s :
  settled_session s → conserved s ∧ riichiBets s = 0.
Proof.
  intros Hs.
  cut ((length (players s) = 3%nat ∨ length (players s) = 4%nat)
       ∧ NoDup (id <$> players s) ∧ conserved s ∧ riichiBets s = 0).
  { tauto. }
  induction Hs as [s ps sc Hcount Hnd | s r _ IH Hpay
                  | s t s' _ IH Hten Hsub Hdraw].
  - split; [|split; [|split]].
    + cbn [initGame players]. by rewrite length_imap.
    + replace (id <$> players (initGame s ps sc)) with (id <$> ps); [done|].
      cbn [initGame players]. apply list_eq. intros i.
      rewrite !list_lookup_fmap, list_lookup_imap. by destruct (ps !! i).
    + apply initGame_conserved.
    + done.
  - destruct IH as (Hcount & Hnd & Hcons & Hpool).
    destruct (recordWin_scores s r) as (_ & Hbets & Hlen & _).
    rewrite ids_recordWin, Hlen. repeat split; [done..| |done].
    apply recordWin_conserved_empty_pool; [|done..].
    by apply settlement_zero_sum.
  - destruct IH as (Hcount & Hnd & Hcons & Hpool).
    rewrite (ids_recordDraw s t s' Hdraw), (riichiBets_recordDraw s t s' Hdraw).
    repeat split; [|done| |done].
    + rewrite <- (length_fmap id), (ids_recordDraw s t s' Hdraw), length_fmap.
      done.
    + by apply (recordDraw_conserved s t).
Qed.

(** * Further properties of the store *)

(** ** The bet pool and the flags *)

Lemma declared_count_fill n : declared_count (array_fill n false) = 0%nat.
Proof.
  unfold declared_count, array_fill.
  induction n as [|n IH]; [done|]. simpl. by rewrite filter_cons_False.
Qed.

Lemma declared_count_holes n : declared_count (replicate n None) = 0%nat.
Proof.
  unfold declared_count.
  induction n as [|n IH]; [done|]. simpl. by rewrite filter_cons_False.
Qed.

Lemma declared_count_app l k :
  declared_count (l ++ k) = (declared_count l + declared_count k)%nat.
Proof. unfold declared_count. by rewrite filter_app, length_app. Qed.

Lemma declared_count_cons v l :
  declared_count (v :: l)
  = ((if truthy (Some v) then 1 else 0) + declared_count l)%nat.
Proof.
  unfold declared_count. rewrite filter_cons.
  destruct (truthy (Some v)) eqn:Hv.
  - by rewrite decide_True.
  - by rewrite decide_False.
Qed.

(** Writing a flag changes the count by the difference of the truth values. *)
Lemma declared_count_array_set flags i (b : bool) :
  (declared_count (array_set flags i b)
   + (if truthy (flags !! i) then 1 else 0))%nat
  = (declared_count flags + (if b then 1 else 0))%nat.
Proof.
  unfold array_set. destruct (decide (i < length flags)%nat) as [Hi|Hi].
  - destruct (lookup_lt_is_Some_2 flags i Hi) as [v Hv].
    rewrite insert_take_drop by done. rewrite Hv.
    rewrite <- (take_drop_middle flags i v Hv) at 3.
    rewrite !declared_count_app, !declared_count_cons.
    destruct b; cbn [truthy]; lia.
  - rewrite lookup_ge_None_2 by lia.
    rewrite !declared_count_app, declared_count_holes, declared_count_cons.
    change (declared_count []) with 0%nat. destruct b; cbn [truthy]; lia.
Qed.

Lemma array_set_lookup {A} (arr : list (option A)) i v :
  array_set arr i v !! i = Some (Some v).
Proof.
  unfold array_set. destruct (decide (i < length arr)%nat) as [Hi|Hi].
  - by apply list_lookup_insert_eq.
  - rewrite lookup_app_r by lia.
    rewrite lookup_app_r by (rewrite length_replicate; lia).
    rewrite length_replicate.
    by replace (i - length arr - (i - length arr))%nat with 0%nat by lia.
Qed.

(** After [declareRiichi] the flag is set and after [undoRiichi] it is not,
    whatever the index and the flag before. *)
Lemma declareRiichi_flag s i :
  truthy (playerRiichi (declareRiichi s i) !! i) = true.
Proof.
  unfold declareRiichi. destruct (truthy (playerRiichi s !! i)) eqn:Hflag.
  - done.
  - cbn [playerRiichi]. by rewrite array_set_lookup.
Qed.

Lemma undoRiichi_flag s i :
  truthy (playerRiichi (undoRiichi s i) !! i) = false.
Proof.
  unfold undoRiichi. destruct (truthy (playerRiichi s !! i)) eqn:Hflag.
  - cbn [negb playerRiichi]. by rewrite array_set_lookup.
  - done.
Qed.

Lemma declared_flag_counts flags i :
  truthy (flags !! i) = true → (1 ≤ declared_count flags)%nat.
Proof.
  intros Hflag. pose proof (declared_count_array_set flags i false) as H.
  rewrite Hflag in H. lia.
Qed.

Lemma pool_covers_declareRiichi s i :
  pool_covers_flags s → pool_covers_flags (declareRiichi s i).
Proof.
  unfold pool_covers_flags, declareRiichi.
  destruct (truthy (playerRiichi s !! i)) eqn:Hflag; [done|].
  cbn [playerRiichi riichiBets].
  pose proof (declared_count_array_set (playerRiichi s) i true) as H.
  rewrite Hflag in H. lia.
Qed.

Lemma pool_covers_undoRiichi s i :
  pool_covers_flags s → pool_covers_flags (undoRiichi s i).
Proof.
  unfold pool_covers_flags, undoRiichi.
  destruct (truthy (playerRiichi s !! i)) eqn:Hflag; [|done].
  cbn [negb playerRiichi riichiBets].
  pose proof (declared_count_array_set (playerRiichi s) i false) as H.
  rewrite Hflag in H. lia.
Qed.

Lemma flags_recordWin s round :
  playerRiichi (recordWin s round) = array_fill (length (players s)) false
  ∧ riichiBets (recordWin s round) = 0.
Proof.
  unfold recordWin. destruct (winnerIsDealer _ _); [done|].
  by destruct (rotate _ _ _ _) as [[[??]?]?].
Qed.

Lemma flags_recordDraw s tenpai s' :
  recordDraw s tenpai = Ok s' →
  playerRiichi s' = array_fill (length (players s)) false
  ∧ riichiBets s' = riichiBets s
  ∧ honba s' = honba s + 1.
Proof.
  unfold recordDraw. destruct (js_index _ _); [|done].
  destruct (negb _); [destruct (rotate _ _ _ _) as [[[??]?]?]|];
    by intros [= <-].
Qed.

Lemma honba_recordWin s round :
  honba (recordWin s round) = honba s + 1 ∨ honba (recordWin s round) = 0.
Proof.
  unfold recordWin. destruct (winnerIsDealer _ _); [by left|].
  destruct (rotate _ _ _ _) as [[[??]?]?]. by right.
Qed.

Lemma honba_declareRiichi s i : honba (declareRiichi s i) = honba s.
Proof. unfold declareRiichi. by destruct (truthy _). Qed.

Lemma honba_undoRiichi s i : honba (undoRiichi s i) = honba s.
Proof. unfold undoRiichi. by destruct (negb _). Qed.

Lemma session_pool s : session s → pool_covers_flags s ∧ 0 ≤ honba s.
Proof.
  induction 1 as [s ps sc Hcount | s i _ IH | s i _ IH | s r _ IH
                 | s t s' _ IH Hdraw | s _ IH].
  - unfold pool_covers_flags. cbn [initGame playerRiichi riichiBets honba].
    by rewrite declared_count_fill.
  - destruct IH as [Hpool Hh]. rewrite honba_declareRiichi. split; [|done].
    by apply pool_covers_declareRiichi.
  - destruct IH as [Hpool Hh]. rewrite honba_undoRiichi. split; [|done].
    by apply pool_covers_undoRiichi.
  - destruct (flags_recordWin s r) as [Hflags Hbets]. split.
    + unfold pool_covers_flags. rewrite Hflags, Hbets, declared_count_fill. lia.
    + destruct (honba_recordWin s r) as [-> | ->]; lia.
  - destruct (flags_recordDraw s t s' Hdraw) as (Hflags & Hbets & Hhonba).
    destruct IH as [Hpool Hh]. unfold pool_covers_flags in *. split.
    + rewrite Hflags, Hbets, declared_count_fill. lia.
    + lia.
  - exact IH.
Qed.

(** X1 (bet pool).  In every state of a session the pool holds at least as
    many bets as there are flags set, and honba is not negative.  So the
    floor at zero in [undoRiichi] is never reached: retracting a declared
    bet takes exactly one bet out of the pool. *)
Theorem session_bet_pool (s : GameStore) :
  session s →
  Z.of_nat (declared_count (playerRiichi s)) ≤ riichiBets s
  ∧ 0 ≤ honba s
  ∧ ∀ playerIndex,
      truthy (playerRiichi s !! playerIndex) = true →
      riichiBets (undoRiichi s playerIndex) = riichiBets s - 1.
Proof.
  intros [Hpool Hhonba]%session_pool. split; [done|]. split; [done|].
  intros i Hflag. unfold undoRiichi. rewrite Hflag. cbn [negb riichiBets].
  pose proof (declared_flag_counts _ _ Hflag). unfold pool_covers_flags in Hpool.
  lia.
Qed.

Lemma session_bet_pool_witness :
  Z.of_nat (declared_count
              (playerRiichi (declareRiichi sample_session 3)))
  ≤ riichiBets (declareRiichi sample_session 3)
  ∧ 0 ≤ honba (declareRiichi sample_session 3)
  ∧ ∀ playerIndex,
      truthy (playerRiichi (declareRiichi sample_session 3) !! playerIndex)
      = true →
      riichiBets (undoRiichi (declareRiichi sample_session 3) playerIndex)
      = riichiBets (declareRiichi sample_session 3) - 1.
Proof.
  apply (session_bet_pool (declareRiichi sample_session 3)).
  apply session_declareRiichi, session_initGame. right. reflexivity.
Defined.

(** ** Toggling a bet *)

Lemma imap_score_back i (a b : Z) (ps : list Player) :
  a + b = 0 →
  imap (λ j p, if decide (j = i) then with_score p (score p + b) else p)
    (imap (λ j p, if decide (j = i) then with_score p (score p + a) else p) ps)
  = ps.
Proof.
  intros Hab. apply list_eq. intros j. rewrite !list_lookup_imap.
  destruct (ps !! j) as [p|]; [simpl | done].
  destruct (decide (j = i)); [|done].
  f_equal. destruct p; unfold with_score; simpl. f_equal. lia.
Qed.

Lemma declareRiichi_then_undoRiichi s i :
  playerRiichi s !! i = Some (Some false) → 0 ≤ riichiBets s →
  undoRiichi (declareRiichi s i) i = s.
Proof.
  intros Hflag Hpool.
  pose proof (lookup_lt_Some _ _ _ Hflag) as Hrange.
  unfold declareRiichi. rewrite Hflag. cbn [truthy].
  unfold undoRiichi. cbn [playerRiichi players riichiBets].
  rewrite array_set_lookup. cbn [truthy negb].
  rewrite (array_set_in_range (playerRiichi s)) by done.
  rewrite array_set_in_range by (by rewrite length_insert).
  rewrite list_insert_insert_eq. rewrite (list_insert_id _ _ _ Hflag).
  rewrite (imap_score_back i (-1000) 1000) by done.
  replace (Z.max 0 (riichiBets s + 1 - 1)) with (riichiBets s) by lia.
  by destruct s.
Qed.

Lemma undoRiichi_then_declareRiichi s i :
  playerRiichi s !! i = Some (Some true) → 1 ≤ riichiBets s →
  declareRiichi (undoRiichi s i) i = s.
Proof.
  intros Hflag Hpool.
  pose proof (lookup_lt_Some _ _ _ Hflag) as Hrange.
  unfold undoRiichi. rewrite Hflag. cbn [truthy negb].
  unfold declareRiichi. cbn [playerRiichi players riichiBets].
  rewrite array_set_lookup. cbn [truthy].
  rewrite (array_set_in_range (playerRiichi s)) by done.
  rewrite array_set_in_range by (by rewrite length_insert).
  rewrite list_insert_insert_eq. rewrite (list_insert_id _ _ _ Hflag).
  rewrite (imap_score_back i 1000 (-1000)) by done.
  replace (Z.max 0 (riichiBets s - 1) + 1) with (riichiBets s) by lia.
  by destruct s.
Qed.

(** X2 (toggle).  In a session, confirming the long-press action twice on a
    player whose flag is set or cleared puts the store back exactly: the
    bet is declared and retracted, or retracted and declared again. *)
Theorem toggleRiichi_twice (s : GameStore) (playerIndex : nat) (b : bool) :
  session s → playerRiichi s !! playerIndex = Some (Some b) →
  toggleRiichi (toggleRiichi s playerIndex) playerIndex = s.
Proof.
  intros [Hpool _]%session_pool Hflag. unfold pool_covers_flags in Hpool.
  unfold toggleRiichi at 2. rewrite Hflag. destruct b; cbn [truthy].
  - unfold toggleRiichi. rewrite undoRiichi_flag.
    apply undoRiichi_then_declareRiichi; [done|].
    assert (1 ≤ declared_count (playerRiichi s))%nat
      by (apply (declared_flag_counts _ playerIndex); by rewrite Hflag).
    lia.
  - unfold toggleRiichi. rewrite declareRiichi_flag.
    apply declareRiichi_then_undoRiichi; [done | lia].
Qed.

Lemma toggleRiichi_twice_witness :
  toggleRiichi (toggleRiichi (declareRiichi sample_session 1) 1) 1
  = declareRiichi sample_session 1.
Proof.
  apply (toggleRiichi_twice (declareRiichi sample_session 1) 1 true).
  - apply session_declareRiichi, session_initGame. right. reflexivity.
  - reflexivity.
Defined.

(** ** The ledger *)

Lemma sum_scores_imap_shift i (a : Z) (ps : list Player) :
  (i < length ps)%nat →
  sum_scores
    (imap (λ j p, if decide (j = i) then with_score p (score p + a) else p) ps)
  = sum_scores ps + a.
Proof.
  revert i. induction ps as [|p ps IH]; intros i Hi; simpl in Hi; [lia|].
  rewrite imap_cons. cbn [sum_scores foldr].
  fold (sum_scores ps). destruct i as [|i].
  - rewrite decide_True by done. cbn [with_score score].
    fold (sum_scores (imap
      ((λ j p, if decide (j = 0%nat) then with_score p (score p + a) else p)
       ∘ S) ps)).
    rewrite sum_scores_imap; [lia|]. intros j q. by simpl.
  - rewrite decide_False by done.
    fold (sum_scores (imap
      ((λ j p, if decide (j = S i) then with_score p (score p + a) else p)
       ∘ S) ps)).
    rewrite (imap_ext _
      (λ j p, if decide (j = i) then with_score p (score p + a) else p)).
    + rewrite IH by lia. lia.
    + intros j q _. simpl.
      destruct (decide (S j = S i)), (decide (j = i)); done || lia.
Qed.

Lemma players_declareRiichi s i :
  id <$> players (declareRiichi s i) = id <$> players s
  ∧ length (players (declareRiichi s i)) = length (players s)
  ∧ startingScore (declareRiichi s i) = startingScore s
  ∧ rounds (declareRiichi s i) = rounds s.
Proof.
  unfold declareRiichi. destruct (truthy _); [done|]. cbn.
  rewrite length_imap. repeat split.
  apply list_eq. intros j. rewrite !list_lookup_fmap, list_lookup_imap.
  destruct (players s !! j) as [p|]; [simpl | done].
  by destruct (decide (j = i)).
Qed.

Lemma players_undoRiichi s i :
  id <$> players (undoRiichi s i) = id <$> players s
  ∧ length (players (undoRiichi s i)) = length (players s)
  ∧ startingScore (undoRiichi s i) = startingScore s
  ∧ rounds (undoRiichi s i) = rounds s.
Proof.
  unfold undoRiichi. destruct (negb _); [done|]. cbn.
  rewrite length_imap. repeat split.
  apply list_eq. intros j. rewrite !list_lookup_fmap, list_lookup_imap.
  destruct (players s !! j) as [p|]; [simpl | done].
  by destruct (decide (j = i)).
Qed.

Lemma rounds_recordWin s round :
  rounds (recordWin s round)
  = {| Round.roundNumber := currentRoundNumber s;
       Round.roundWind := currentRoundWind s;
       Round.honba := honba s;
       Round.riichiBets := riichiBets s;
       Round.outcome := round |} :: rounds s.
Proof.
  unfold recordWin. destruct (winnerIsDealer _ _); [done|].
  by destruct (rotate _ _ _ _) as [[[??]?]?].
Qed.

Lemma rounds_recordDraw s tenpai s' :
  recordDraw s tenpai = Ok s' →
  ∃ r, rounds s' = r :: rounds s
       ∧ Round.roundNumber r = currentRoundNumber s
       ∧ Round.roundWind r = currentRoundWind s
       ∧ Round.honba r = honba s
       ∧ Round.riichiBets r = riichiBets s
       ∧ isDraw (Round.outcome r) = true
       ∧ winnerId (Round.outcome r) = None
       ∧ tenpaiPlayerIds (Round.outcome r) = tenpai
       ∧ payments (Round.outcome r) = computeDrawPayments (players s) tenpai.
Proof.
  unfold recordDraw. destruct (js_index _ _); [|done].
  destruct (negb _); [destruct (rotate _ _ _ _) as [[[??]?]?]|];
    intros [= <-]; eexists; by repeat split.
Qed.

Lemma played_session s : played s → session s.
Proof.
  induction 1; eauto using session.
Qed.

Lemma scores_recordDraw s tenpai s' :
  length (players s) = 3%nat ∨ length (players s) = 4%nat →
  NoDup (id <$> players s) → NoDup tenpai →
  (∀ k, k ∈ tenpai → k ∈ id <$> players s) →
  recordDraw s tenpai = Ok s' →
  sum_scores (players s') = sum_scores (players s)
  ∧ startingScore s' = startingScore s.
Proof.
  intros Hcount Hids Hten Hsub.
  pose proof (sum_computeDrawPayments (players s) tenpai
                Hcount Hids Hten Hsub) as Hzero.
  unfold recordDraw. destruct (js_index _ _); [|done].
  destruct (negb _); [destruct (rotate _ _ _ _) as [[[??]?]?]|];
    intros [= <-]; cbn [players startingScore];
    rewrite sum_scores_reassign, sum_scores_apply_payments; split; lia || done.
Qed.

Lemma played_facts s :
  played s →
  (length (players s) = 3%nat ∨ length (players s) = 4%nat)
  ∧ NoDup (id <$> players s)
  ∧ ledger_balanced s.
Proof.
  intros Hplayed.
  induction Hplayed as [s ps sc Hcount Hnd | s i Hs IH Hi | s i Hs IH Hi
                       | s r Hs IH Hpay Hwin | s t s' Hs IH Hten Hsub Hdraw
                       | s Hs IH].
  - split; [|split].
    + cbn [initGame players]. by rewrite length_imap.
    + replace (id <$> players (initGame s ps sc)) with (id <$> ps); [done|].
      cbn [initGame players]. apply list_eq. intros i.
      rewrite !list_lookup_fmap, list_lookup_imap. by destruct (ps !! i).
    + pose proof (initGame_conserved s ps sc) as Hcons.
      unfold conserved in Hcons. unfold ledger_balanced.
      change (rounds (initGame s ps sc)) with (@nil Round.t).
      cbn [claimed_bets foldr]. lia.
  - destruct IH as (Hcount & Hnd & Hled).
    destruct (players_declareRiichi s i) as (Hids & Hlen & Hstart & Hrounds).
    rewrite Hids, Hlen. split; [done|]. split; [done|].
    unfold ledger_balanced. rewrite Hlen, Hstart, Hrounds.
    unfold ledger_balanced in Hled. unfold declareRiichi.
    destruct (truthy _); [done|]. cbn [players riichiBets].
    rewrite (sum_scores_imap_shift i (-1000)) by done. lia.
  - destruct IH as (Hcount & Hnd & Hled).
    destruct (players_undoRiichi s i) as (Hids & Hlen & Hstart & Hrounds).
    rewrite Hids, Hlen. split; [done|]. split; [done|].
    unfold ledger_balanced. rewrite Hlen, Hstart, Hrounds.
    unfold ledger_balanced in Hled.
    destruct (session_pool s (played_session s Hs)) as [Hpool _].
    unfold pool_covers_flags in Hpool. unfold undoRiichi.
    destruct (truthy (playerRiichi s !! i)) eqn:Hflag; [|done].
    cbn [negb players riichiBets].
    pose proof (declared_flag_counts _ _ Hflag).
    rewrite (sum_scores_imap_shift i 1000) by done. lia.
  - destruct IH as (Hcount & Hnd & Hled).
    destruct (recordWin_scores s r) as (Hsum & Hbets & Hlen & Hstart).
    rewrite ids_recordWin, Hlen. split; [done|]. split; [done|].
    unfold ledger_balanced. rewrite Hsum, Hbets, Hlen, Hstart, rounds_recordWin.
    rewrite (settlement_zero_sum (players s) (payments r)) by done.
    unfold ledger_balanced in Hled. cbn [claimed_bets foldr Round.outcome
      Round.riichiBets]. fold (claimed_bets (rounds s)). rewrite Hwin. lia.
  - destruct IH as (Hcount & Hnd & Hled).
    destruct (rounds_recordDraw s t s' Hdraw)
      as (r & Hrounds & _ & _ & _ & _ & Hisdraw & _).
    destruct (flags_recordDraw s t s' Hdraw) as (_ & Hbets & _).
    pose proof (ids_recordDraw s t s' Hdraw) as Hids.
    assert (length (players s') = length (players s)) as Hlen.
    { by rewrite <- (length_fmap id), Hids, length_fmap. }
    rewrite Hids, Hlen. split; [done|]. split; [done|].
    destruct (scores_recordDraw s t s' Hcount Hnd Hten Hsub Hdraw)
      as [Hsum Hstart].
    unfold ledger_balanced. rewrite Hsum, Hstart, Hbets, Hlen, Hrounds.
    cbn [claimed_bets foldr]. fold (claimed_bets (rounds s)).
    rewrite Hisdraw. unfold ledger_balanced in Hled. lia.
  - exact IH.
Qed.

(** X3 (ledger).  In a match as the screens play it, the scores, the bets in
    the pool and the bets that the recorded wins found on the table always
    add up to [playerCount * startingScore]: points leave the ledger only
    when [recordWin] empties a pool that holds bets, and the history keeps
    count of them. *)
Theorem played_ledger (s : GameStore) :
  played s →
  sum_scores (players s) + 1000 * riichiBets s
  + 1000 * claimed_bets (rounds s)
  = Z.of_nat (length (players s)) * startingScore s.
Proof. intros Hs. by apply played_facts. Qed.

Lemma played_ledger_witness :
  sum_scores (players (recordWin (declareRiichi sample_session 0) sample_ron))
  + 1000 * riichiBets (recordWin (declareRiichi sample_session 0) sample_ron)
  + 1000 * claimed_bets
             (rounds (recordWin (declareRiichi sample_session 0) sample_ron))
  = Z.of_nat
      (length (players (recordWin (declareRiichi sample_session 0) sample_ron)))
    * startingScore (recordWin (declareRiichi sample_session 0) sample_ron).
Proof.
  apply (played_ledger (recordWin (declareRiichi sample_session 0) sample_ron)).
  apply played_recordWin; [apply played_declareRiichi| |done].
  - apply played_initGame; [by right | compute_done].
  - cbn. lia.
  - apply (settlement_ron
             (players (declareRiichi sample_session 0))
             "player-2" "player-0" 3900); [compute_done | compute_done | done].
Defined.

(** ** Round number, wind and history *)

Lemma rotate_round (d n : Z) (count : nat) (w : RoundWind) :
  0 ≤ d < Z.of_nat count → 1 ≤ n ≤ Z.of_nat count →
  (n = d + 1 ∨ (d = 0 ∧ n = Z.of_nat count ∧ w = SouthRound)) →
  ∃ d' n' w' ph,
    rotate (Int d) count (Int n) w = (Int d', Int n', w', ph)
    ∧ 0 ≤ d' < Z.of_nat count
    ∧ 1 ≤ n' ≤ Z.of_nat count
    ∧ (n' = d' + 1 ∨ (d' = 0 ∧ n' = Z.of_nat count ∧ w' = SouthRound)).
Proof.
  intros Hd Hn Hfollow. rewrite rotate_spec by lia. cbv zeta.
  pose proof (Z.mod_pos_bound (d + 1) (Z.of_nat count)) as Hb.
  destruct (decide ((d + 1) mod Z.of_nat count = 0)) as [H0|H0].
  - assert (d + 1 = Z.of_nat count) as Hlast.
    { destruct (decide (d + 1 = Z.of_nat count)) as [|Hne]; [done|].
      rewrite Z.mod_small in H0 by lia. lia. }
    rewrite H0. destruct w.
    + exists 0, 1, SouthRound, playing. repeat split; lia || auto.
    + exists 0, n, SouthRound, finished. repeat split; try lia.
      right. repeat split; lia.
  - exists ((d + 1) mod Z.of_nat count),
      ((d + 1) mod Z.of_nat count + 1), w, playing.
    repeat split; lia || auto.
Qed.

Lemma frame_declareRiichi s i :
  dealerIndex (declareRiichi s i) = dealerIndex s
  ∧ currentRoundNumber (declareRiichi s i) = currentRoundNumber s
  ∧ currentRoundWind (declareRiichi s i) = currentRoundWind s
  ∧ roster (players (declareRiichi s i)) = roster (players s).
Proof.
  unfold declareRiichi. destruct (truthy _); [done|]. cbn.
  repeat split. unfold roster. apply list_eq. intros j.
  rewrite !list_lookup_fmap, list_lookup_imap.
  destruct (players s !! j) as [p|]; [simpl | done].
  by destruct (decide (j = i)).
Qed.

Lemma frame_undoRiichi s i :
  dealerIndex (undoRiichi s i) = dealerIndex s
  ∧ currentRoundNumber (undoRiichi s i) = currentRoundNumber s
  ∧ currentRoundWind (undoRiichi s i) = currentRoundWind s
  ∧ roster (players (undoRiichi s i)) = roster (players s).
Proof.
  unfold undoRiichi. destruct (negb _); [done|]. cbn.
  repeat split. unfold roster. apply list_eq. intros j.
  rewrite !list_lookup_fmap, list_lookup_imap.
  destruct (players s !! j) as [p|]; [simpl | done].
  by destruct (decide (j = i)).
Qed.

Lemma roster_length ps qs : roster ps = roster qs → length ps = length qs.
Proof.
  unfold roster. intros H. apply (f_equal length) in H.
  by rewrite !length_fmap in H.
Qed.

Lemma table_ok_dealer s :
  table_ok s →
  ∃ d : Z, dealerIndex s = Int d ∧ 0 ≤ d < Z.of_nat (length (players s)).
Proof.
  intros (_ & d & Hidx & Hd & _). exists (Z.of_nat d). split; [done | lia].
Qed.

Lemma round_in_range_rotated s s' (d n : Z) :
  length (players s') = length (players s) →
  dealerIndex s = Int d → currentRoundNumber s = Int n →
  0 ≤ d < Z.of_nat (length (players s)) →
  round_in_range s →
  (dealerIndex s', currentRoundNumber s', currentRoundWind s')
  = (let '(nd, nn, nw, _) :=
       rotate (dealerIndex s) (length (players s)) (currentRoundNumber s)
              (currentRoundWind s) in (nd, nn, nw)) →
  round_in_range s'.
Proof.
  intros Hlen Hidx Hnum Hd (d0 & n0 & Hidx0 & Hnum0 & Hn & Hfollow) Hrot.
  rewrite Hidx in Hidx0. rewrite Hnum in Hnum0.
  injection Hidx0 as <-. injection Hnum0 as <-.
  rewrite Hidx, Hnum in Hrot.
  destruct (rotate_round d n (length (players s)) (currentRoundWind s)
              Hd Hn Hfollow) as (d' & n' & w' & ph & Hr & Hd' & Hn' & Hf').
  rewrite Hr in Hrot. injection Hrot as Hdi Hnu Hwi.
  exists d', n'. rewrite Hlen, Hdi, Hnu, Hwi. done.
Qed.

Lemma session_round s : session s → round_in_range s.
Proof.
  induction 1 as [s ps sc Hcount | s i Hs IH | s i Hs IH | s r Hs IH
                 | s t s' Hs IH Hdraw | s Hs IH].
  - exists 0, 1. cbn [initGame dealerIndex currentRoundNumber players].
    rewrite length_imap. repeat split; lia || auto.
  - destruct (frame_declareRiichi s i) as (Hd & Hn & Hw & Hr).
    destruct IH as (d & n & ?). exists d, n.
    by rewrite Hd, Hn, Hw, (roster_length _ _ Hr).
  - destruct (frame_undoRiichi s i) as (Hd & Hn & Hw & Hr).
    destruct IH as (d & n & ?). exists d, n.
    by rewrite Hd, Hn, Hw, (roster_length _ _ Hr).
  - destruct (table_ok_dealer s (session_table_ok s Hs)) as (d & Hidx & Hd).
    pose proof IH as (d0 & n & Hidx0 & Hnum & _).
    destruct (recordWin_scores s r) as (_ & _ & Hlen & _).
    unfold recordWin in *. destruct (winnerIsDealer _ _).
    + destruct IH as (d1 & n1 & ?). exists d1, n1.
      cbn [dealerIndex currentRoundNumber currentRoundWind] in *.
      by rewrite Hlen.
    + eapply (round_in_range_rotated s _ d n); try done.
      by destruct (rotate _ _ _ _) as [[[??]?]?].
  - destruct (table_ok_dealer s (session_table_ok s Hs)) as (d & Hidx & Hd).
    pose proof IH as (d0 & n & Hidx0 & Hnum & _).
    assert (length (players s') = length (players s)) as Hlen.
    { by rewrite <- (length_fmap id), (ids_recordDraw s t s' Hdraw),
        length_fmap. }
    unfold recordDraw in Hdraw. destruct (js_index _ _); [|done].
    destruct (negb _).
    + eapply (round_in_range_rotated s _ d n); try done.
      destruct (rotate _ _ _ _) as [[[??]?]?]. by injection Hdraw as <-.
    + injection Hdraw as <-. destruct IH as (d1 & n1 & ?). exists d1, n1.
      cbn [dealerIndex currentRoundNumber currentRoundWind players] in *.
      by rewrite length_reassign, length_apply_payments.
  - exact IH.
Qed.

(** X4 (round number).  In every state of a session the round number is an
    integer between 1 and the number of players.  It is the dealer's seat
    plus one, except after the rotation that ended the South round, which
    keeps the last round number while the dealer index is back at 0. *)
Theorem session_round_number (s : GameStore) :
  session s →
  ∃ d n : Z,
    dealerIndex s = Int d
    ∧ currentRoundNumber s = Int n
    ∧ 1 ≤ n ≤ Z.of_nat (length (players s))
    ∧ (n = d + 1
       ∨ (d = 0 ∧ n = Z.of_nat (length (players s))
          ∧ currentRoundWind s = SouthRound)).
Proof. exact (session_round s). Qed.

Lemma session_round_number_witness :
  ∃ d n : Z,
    dealerIndex (recordWin sample_session sample_ron) = Int d
    ∧ currentRoundNumber (recordWin sample_session sample_ron) = Int n
    ∧ 1 ≤ n ≤ 4
    ∧ (n = d + 1
       ∨ (d = 0 ∧ n = 4
          ∧ currentRoundWind (recordWin sample_session sample_ron)
            = SouthRound)).
Proof.
  apply (session_round_number (recordWin sample_session sample_ron)).
  apply session_recordWin, session_initGame. right. reflexivity.
Defined.

Lemma roster_reassign nd count ps : roster (reassign nd count ps) = roster ps.
Proof.
  unfold roster, reassign. apply list_eq. intros i.
  rewrite !list_lookup_fmap, list_lookup_imap. by destruct (ps !! i).
Qed.

Lemma roster_apply_payments pay ps : roster (apply_payments pay ps) = roster ps.
Proof.
  unfold roster, apply_payments. rewrite <- list_fmap_compose.
  by apply list_fmap_ext.
Qed.

Lemma wind_rotate d count n w :
  w = SouthRound → (rotate d count n w).1.2 = SouthRound.
Proof.
  intros ->. unfold rotate. by destruct (js_eq _ _).
Qed.

Lemma frame_recordWin s round :
  startingScore (recordWin s round) = startingScore s
  ∧ roster (players (recordWin s round)) = roster (players s)
  ∧ (currentRoundWind s = SouthRound →
     currentRoundWind (recordWin s round) = SouthRound).
Proof.
  unfold recordWin. destruct (winnerIsDealer _ _).
  - cbn. by rewrite roster_reassign, roster_apply_payments.
  - pose proof (wind_rotate (dealerIndex s) (length (players s))
                  (currentRoundNumber s) (currentRoundWind s)) as Hw.
    destruct (rotate _ _ _ _) as [[[??]?]?]. cbn in *.
    by rewrite roster_reassign, roster_apply_payments.
Qed.

Lemma frame_recordDraw s tenpai s' :
  recordDraw s tenpai = Ok s' →
  startingScore s' = startingScore s
  ∧ roster (players s') = roster (players s)
  ∧ (currentRoundWind s = SouthRound → currentRoundWind s' = SouthRound).
Proof.
  unfold recordDraw. destruct (js_index _ _); [|done].
  destruct (negb _).
  - pose proof (wind_rotate (dealerIndex s) (length (players s))
                  (currentRoundNumber s) (currentRoundWind s)) as Hw.
    destruct (rotate _ _ _ _) as [[[??]?]?]. intros [= <-]. cbn in *.
    by rewrite roster_reassign, roster_apply_payments.
  - intros [= <-]. cbn. by rewrite roster_reassign, roster_apply_payments.
Qed.

(** X5 (what no action does).  No action of a running match ([declareRiichi],
    [undoRiichi], [recordWin], [recordDraw], [endGame]) changes the starting
    score, or the identifier, name, icon or position of a player; none
    rewrites the history, to which it adds at most one round in front; and
    none turns the South round back into the East round. *)
Theorem step_frame (s s' : GameStore) :
  step s s' →
  startingScore s' = startingScore s
  ∧ roster (players s') = roster (players s)
  ∧ (∃ new, rounds s' = new ++ rounds s ∧ (length new ≤ 1)%nat)
  ∧ (currentRoundWind s = SouthRound → currentRoundWind s' = SouthRound).
Proof.
  intros [s0 i | s0 i | s0 r | s0 t s1 Hdraw | s0].
  - destruct (frame_declareRiichi s0 i) as (_ & _ & Hw & Hr).
    destruct (players_declareRiichi s0 i) as (_ & _ & Hs & Hh).
    rewrite Hw, Hr, Hs, Hh.
    split; [done|]. split; [done|]. split; [|done].
    exists []. split; [done | simpl; lia].
  - destruct (frame_undoRiichi s0 i) as (_ & _ & Hw & Hr).
    destruct (players_undoRiichi s0 i) as (_ & _ & Hs & Hh).
    rewrite Hw, Hr, Hs, Hh.
    split; [done|]. split; [done|]. split; [|done].
    exists []. split; [done | simpl; lia].
  - destruct (frame_recordWin s0 r) as (Hs & Hr & Hw).
    rewrite rounds_recordWin.
    split; [done|]. split; [done|]. split; [|done].
    eexists [_]. split; [reflexivity | simpl; lia].
  - destruct (frame_recordDraw s0 t s1 Hdraw) as (Hs & Hr & Hw).
    destruct (rounds_recordDraw s0 t s1 Hdraw) as (r & Hh & _).
    rewrite Hh.
    split; [done|]. split; [done|]. split; [|done].
    exists [r]. split; [reflexivity | simpl; lia].
  - split; [done|]. split; [done|]. split; [|done].
    exists []. split; [done | simpl; lia].
Qed.

Lemma step_frame_witness :
  startingScore (recordWin sample_session sample_ron)
  = startingScore sample_session
  ∧ roster (players (recordWin sample_session sample_ron))
    = roster (players sample_session)
  ∧ (∃ new, rounds (recordWin sample_session sample_ron)
            = new ++ rounds sample_session ∧ (length new ≤ 1)%nat)
  ∧ (currentRoundWind sample_session = SouthRound →
     currentRoundWind (recordWin sample_session sample_ron) = SouthRound).
Proof.
  apply (step_frame sample_session (recordWin sample_session sample_ron)).
  apply step_recordWin.
Defined.

(** ** Draws: rotation and scores *)

(** X6 (draw rotation).  [recordDraw] at a table whose dealer index [d] names
    a player.  Honba goes up by one.  A tenpai dealer keeps the deal: dealer
    index, round number and wind stay and the phase is [playing].  Otherwise
    the dealer index becomes [(d + 1) mod playerCount]; when that is 0 the
    East round becomes the South round with round number 1, and the South
    round ends the match; when it is not 0 the round number is the new
    dealer index plus one. *)
Theorem recordDraw_rotation (s : GameStore) (tenpai : list string)
    (d : Z) (dealer : Player) :
  dealerIndex s = Int d → 0 ≤ d → selectDealer s = Some dealer →
  let newDealerIndex := (d + 1) mod Z.of_nat (length (players s)) in
  ∃ s', recordDraw s tenpai = Ok s'
    ∧ honba s' = honba s + 1
    ∧ (id dealer ∈ tenpai →
       dealerIndex s' = dealerIndex s
       ∧ currentRoundNumber s' = currentRoundNumber s
       ∧ currentRoundWind s' = currentRoundWind s
       ∧ phase s' = playing)
    ∧ (id dealer ∉ tenpai →
       dealerIndex s' = Int newDealerIndex
       ∧ (newDealerIndex = 0 → currentRoundWind s = EastRound →
          currentRoundWind s' = SouthRound ∧ currentRoundNumber s' = Int 1
          ∧ phase s' = playing)
       ∧ (newDealerIndex = 0 → currentRoundWind s = SouthRound →
          phase s' = finished)
       ∧ (newDealerIndex ≠ 0 →
          currentRoundNumber s' = Int (newDealerIndex + 1)
          ∧ currentRoundWind s' = currentRoundWind s
          ∧ phase s' = playing)).
Proof.
  intros Hidx Hd Hdealer nd. unfold selectDealer in Hdealer.
  assert (0 < length (players s))%nat as Hcount.
  { rewrite Hidx in Hdealer. cbn [js_index] in Hdealer.
    destruct (d <? 0); [done|]. apply lookup_lt_Some in Hdealer. lia. }
  unfold recordDraw. rewrite Hdealer.
  destruct (decide (id dealer ∈ tenpai)) as [Hin|Hout].
  - rewrite bool_decide_eq_true_2 by done. cbn [negb].
    eexists. split; [reflexivity|]. cbn. repeat split; done.
  - rewrite bool_decide_eq_false_2 by done. cbn [negb].
    rewrite Hidx, rotate_spec by done. fold nd. cbv zeta.
    destruct (decide (nd = 0)) as [H0|H0].
    + destruct (currentRoundWind s) eqn:Hwind;
        (eexists; split; [reflexivity|]); cbn; repeat split; done.
    + eexists. split; [reflexivity|]. cbn. repeat split; done.
Qed.

Lemma recordDraw_rotation_witness :
  ∃ s', recordDraw sample_session ["player-1"] = Ok s'
    ∧ honba s' = 1
    ∧ dealerIndex s' = Int 1
    ∧ currentRoundNumber s' = Int 2.
Proof.
  destruct (recordDraw_rotation sample_session ["player-1"] 0
              (sample_player "player-0" East))
    as (s' & Hs' & Hh & _ & Hrot).
  - reflexivity.
  - lia.
  - reflexivity.
  - exists s'. destruct Hrot as (Hd & _ & _ & Hn); [compute_done|].
    destruct Hn as (Hn & _); [discriminate|]. done.
Defined.

(** ** Scores after a settlement *)

Lemma lookup_settled pay nd count ps i p :
  ps !! i = Some p →
  ∃ p', reassign nd count (apply_payments pay ps) !! i = Some p'
        ∧ id p' = id p ∧ name p' = name p ∧ iconId p' = iconId p
        ∧ score p' = score p + default 0 (pay !! id p).
Proof.
  intros Hp. unfold reassign, apply_payments.
  rewrite list_lookup_imap, list_lookup_fmap, Hp. cbn.
  eexists. split; [reflexivity|]. done.
Qed.

Lemma players_recordWin s round i p :
  players s !! i = Some p →
  ∃ p', players (recordWin s round) !! i = Some p'
        ∧ id p' = id p ∧ name p' = name p ∧ iconId p' = iconId p
        ∧ score p' = score p + default 0 (payments round !! id p).
Proof.
  intros Hp. unfold recordWin.
  destruct (winnerIsDealer _ _); [|destruct (rotate _ _ _ _) as [[[??]?]?]];
    cbn [players]; by apply lookup_settled.
Qed.

Lemma players_recordDraw s tenpai s' i p :
  recordDraw s tenpai = Ok s' → players s !! i = Some p →
  ∃ p', players s' !! i = Some p'
        ∧ id p' = id p ∧ name p' = name p ∧ iconId p' = iconId p
        ∧ score p' = score p
            + default 0 (computeDrawPayments (players s) tenpai !! id p).
Proof.
  intros Hdraw Hp. unfold recordDraw in Hdraw.
  destruct (js_index _ _); [|done].
  destruct (negb _); [destruct (rotate _ _ _ _) as [[[??]?]?]|];
    injection Hdraw as <-; cbn [players]; by apply lookup_settled.
Qed.

(** X7 (ron).  A ron recorded with the mapping of the score sheet (a loser
    identifier that is not empty): the winner's score rises by
    [total_points], the loser's falls by [total_points], every other score
    stays, and no player changes identifier, name or icon.  When the loser
    identifier is the winner's, the winner still gains [total_points] and
    nobody pays. *)
Theorem recordWin_ron_scores (s : GameStore) (round : RoundOutcome)
    (w l : string) (dealer_payment non_dealer_payment total_points : Z)
    (i : nat) (p : Player) :
  l ≠ "" →
  scoreSheetPayments (players s) w (Some l) false true
    dealer_payment non_dealer_payment total_points = Ok (payments round) →
  players s !! i = Some p →
  ∃ p', players (recordWin s round) !! i = Some p'
        ∧ id p' = id p ∧ name p' = name p ∧ iconId p' = iconId p
        ∧ score p' = score p
            + (if decide (id p = w) then total_points
               else if decide (id p = l) then - total_points
               else 0).
Proof.
  intros Hl Hsheet Hp.
  destruct (players_recordWin s round i p Hp) as (p' & Hp' & ? & ? & ? & Hs).
  exists p'. repeat split; try done. rewrite Hs. f_equal.
  unfold scoreSheetPayments in Hsheet. cbn [truthy_id] in Hsheet.
  rewrite decide_False in Hsheet by done. injection Hsheet as <-.
  destruct (decide (id p = w)) as [->|Hw].
  - by rewrite lookup_insert_eq.
  - rewrite lookup_insert_ne by done.
    destruct (decide (id p = l)) as [->|Hne].
    + by rewrite lookup_insert_eq.
    + rewrite lookup_insert_ne by done. rewrite lookup_zero_payments.
      rewrite decide_True; [done|].
      apply list_elem_of_fmap_2. by eapply list_elem_of_lookup_2.
Qed.

Lemma recordWin_ron_scores_witness :
  ∃ p', players (recordWin sample_session sample_ron) !! 2%nat = Some p'
        ∧ id p' = "player-2" ∧ name p' = "player-2" ∧ iconId p' = "icon"
        ∧ score p' = 25000 + 3900.
Proof.
  apply (recordWin_ron_scores sample_session sample_ron
           "player-2" "player-0" 0 0 3900 2
           {| id := "player-2"; name := "player-2"; iconId := "icon";
              seatWind := Some West; score := 25000; isDealer := false |}).
  - done.
  - by vm_compute.
  - reflexivity.
Defined.

(** X8 (ron mapping).  The mapping the score sheet builds for a ron between
    players of the table has an entry for every player and for nobody else;
    it sums to zero when loser and winner differ, and to [total_points] when
    the loser identifier is the winner's. *)
Theorem scoreSheetPayments_ron_sum (ps : list Player) (w l : string)
    (dealer_payment non_dealer_payment total_points : Z) :
  NoDup (id <$> ps) → w ∈ id <$> ps → l ∈ id <$> ps → l ≠ "" →
  ∃ m, scoreSheetPayments ps w (Some l) false true
         dealer_payment non_dealer_payment total_points = Ok m
       ∧ (∀ k, is_Some (m !! k) ↔ k ∈ id <$> ps)
       ∧ sum_payments m = if decide (w = l) then total_points else 0.
Proof.
  intros Hnd Hw Hl Hne. unfold scoreSheetPayments. cbn [truthy_id].
  rewrite decide_False by done. eexists. split; [reflexivity|]. split.
  - intros k. rewrite !lookup_insert_is_Some, zero_payments_dom.
    destruct (decide (w = k)) as [<-|]; [split; [done | by left]|].
    destruct (decide (l = k)) as [<-|].
    + split; [done | right; split; [done | by left]].
    + split; [by intros [? | [_ [? | [_ ?]]]] | by right; split; [|right]].
  - rewrite !sum_payments_insert, sum_zero_payments by done.
    rewrite lookup_zero_payments, decide_True by done.
    destruct (decide (w = l)) as [->|Hwl].
    + rewrite lookup_insert_eq. simpl. lia.
    + rewrite lookup_insert_ne by done.
      rewrite lookup_zero_payments, decide_True by done. simpl. lia.
Qed.

Lemma scoreSheetPayments_ron_sum_witness :
  ∃ m, scoreSheetPayments four_players "player-2" (Some "player-2") false true
         0 0 3900 = Ok m
       ∧ (∀ k, is_Some (m !! k) ↔ k ∈ id <$> four_players)
       ∧ sum_payments m = 3900.
Proof.
  apply (scoreSheetPayments_ron_sum four_players "player-2" "player-2"
           0 0 3900).
  - compute_done.
  - compute_done.
  - compute_done.
  - done.
Defined.

(** X9 (self-draw on the score sheet).  With amounts that are not negative
    and a winner among players with distinct identifiers, the mapping the
    score sheet builds for a self-draw gives every other player the negated
    amount owed ([dealer_payment] if the winner or that player is the
    dealer, [non_dealer_payment] otherwise), gives the winner their sum, and
    sums to zero. *)
Theorem scoreSheetPayments_tsumo_spec (ps : list Player) (winner : Player)
    (loserId : option string)
    (dealer_payment non_dealer_payment total_points : Z) :
  NoDup (id <$> ps) → winner ∈ ps →
  0 ≤ dealer_payment → 0 ≤ non_dealer_payment →
  ∃ m, scoreSheetPayments ps (id winner) loserId true true
         dealer_payment non_dealer_payment total_points = Ok m
       ∧ (∀ p, p ∈ ps → id p ≠ id winner →
            m !! id p
            = Some (- (if isDealer winner || isDealer p
                       then dealer_payment else non_dealer_payment)))
       ∧ m !! id winner
         = Some (outgoing (id winner) (isDealer winner)
                   dealer_payment non_dealer_payment ps)
       ∧ sum_payments m = 0.
Proof.
  intros Hnd Hw Hdp Hndp. rewrite scoreSheetPayments_tsumo by done.
  unfold computeTsumoPayments. rewrite find_player_Some by done.
  eexists. split; [reflexivity|]. split; [|split].
  - intros p Hp Hne. rewrite lookup_insert_ne by done.
    rewrite tsumo_loop_payer by done. unfold tsumo_pays.
    by destruct (isDealer winner), (isDealer p).
  - by rewrite lookup_insert_eq, tsumo_loop_collected.
  - by apply tsumo_payments_balance.
Qed.

Lemma scoreSheetPayments_tsumo_spec_witness :
  ∃ m, scoreSheetPayments four_players "player-0" None true true
         2000 1000 6000 = Ok m
       ∧ (∀ p, p ∈ four_players → id p ≠ "player-0" →
            m !! id p = Some (- 2000))
       ∧ m !! "player-0" = Some 6000
       ∧ sum_payments m = 0.
Proof.
  apply (scoreSheetPayments_tsumo_spec four_players
           (sample_player "player-0" East) None 2000 1000 6000).
  - compute_done.
  - left.
  - lia.
  - lia.
Defined.

(** X10 (draw scores).  A draw among players with distinct identifiers, the
    tenpai set being a duplicate-free list of their identifiers: when nobody
    or everybody is tenpai every score stays; otherwise every tenpai
    player's score rises by [floor(3000 / tenpaiCount)] and every other
    player's falls by [floor(3000 / notenCount)].  No player changes
    identifier, name or icon. *)
Theorem recordDraw_scores (s : GameStore) (tenpai : list string)
    (s' : GameStore) (i : nat) (p : Player) :
  NoDup (id <$> players s) → NoDup tenpai →
  (∀ k, k ∈ tenpai → k ∈ id <$> players s) →
  recordDraw s tenpai = Ok s' → players s !! i = Some p →
  ∃ p', players s' !! i = Some p'
        ∧ id p' = id p ∧ name p' = name p ∧ iconId p' = iconId p
        ∧ score p' = score p
            + (if decide (tenpai = []
                          ∨ Forall (λ q, id q ∈ tenpai) (players s))
               then 0
               else if decide (id p ∈ tenpai)
                    then 3000 / Z.of_nat (length tenpai)
                    else - (3000 / Z.of_nat
                              (length (filter (λ q, id q ∉ tenpai)
                                         (players s))))).
Proof.
  intros Hnd Hten Hsub Hdraw Hp.
  destruct (players_recordDraw s tenpai s' i p Hdraw Hp)
    as (p' & Hp' & ? & ? & ? & Hs).
  exists p'. repeat split; try done. rewrite Hs. f_equal.
  rewrite lookup_computeDrawPayments by done.
  rewrite decide_True
    by (apply list_elem_of_fmap_2; by eapply list_elem_of_lookup_2).
  by repeat case_decide.
Qed.

Lemma recordDraw_scores_witness :
  ∃ p', match recordDraw sample_session ["player-1"] with
        | Ok s' => players s' !! 1%nat = Some p'
        | TypeError => False
        end
        ∧ score p' = 25000 + 3000.
Proof.
  destruct (recordDraw sample_session ["player-1"]) as [s'|] eqn:Hdraw;
    [|by vm_compute in Hdraw].
  destruct (recordDraw_scores sample_session ["player-1"] s' 1
              (sample_player "player-1" South))
    as (p' & Hp' & _ & _ & _ & Hs).
  - compute_done.
  - compute_done.
  - intros k Hk. apply list_elem_of_singleton in Hk. subst k. compute_done.
  - done.
  - by vm_compute.
  - exists p'. split; [done|]. rewrite Hs. by vm_compute.
Defined.

(** ** Seats *)

Lemma seat_offset (i d n : Z) :
  0 ≤ i < n → 0 ≤ d < n →
  (i - d + n) mod n = if i <? d then i - d + n else i - d.
Proof.
  intros Hi Hd. destruct (i <? d) eqn:Hlt.
  - apply Z.ltb_lt in Hlt. apply Z.mod_small. lia.
  - apply Z.ltb_ge in Hlt.
    replace (i - d + n) with (i - d + 1 * n) by lia.
    rewrite Z.mod_add by lia. apply Z.mod_small. lia.
Qed.

(** X11 (seats).  In every state of a session no two players have the same
    seat wind, and the dealer's seat wind is East. *)
Theorem session_seats (s : GameStore) :
  session s →
  (∀ i j p q, players s !! i = Some p → players s !! j = Some q →
     i ≠ j → seatWind p ≠ seatWind q)
  ∧ (∀ p, selectDealer s = Some p → seatWind p = Some East).
Proof.
  intros (Hcount & d & Hidx & Hd & Hseat)%session_table_ok. split.
  - intros i j p q Hp Hq Hij Heq.
    destruct (Hseat i p Hp) as (_ & [w Hw] & Hpw).
    destruct (Hseat j q Hq) as (_ & _ & Hqw).
    apply lookup_lt_Some in Hp, Hq.
    rewrite Heq, Hqw in Hpw. rewrite Heq, Hqw in Hw.
    rewrite (seat_offset (Z.of_nat i)), (seat_offset (Z.of_nat j)) in Hpw
      by lia.
    rewrite (seat_offset (Z.of_nat j)) in Hw by lia.
    assert (NoDup WINDS) as Hnd by compute_done.
    rewrite Hw in Hpw. symmetry in Hpw.
    pose proof (NoDup_lookup _ _ _ _ Hnd Hw Hpw) as Hk. revert Hk.
    destruct (Z.of_nat i <? Z.of_nat d) eqn:Hi,
             (Z.of_nat j <? Z.of_nat d) eqn:Hj;
      intros Hk; rewrite ?Z.ltb_lt, ?Z.ltb_ge in Hi, Hj; lia.
  - intros p Hp. unfold selectDealer in Hp. rewrite Hidx in Hp.
    cbn [js_index] in Hp.
    destruct (Z.of_nat d <? 0) eqn:Hneg; [done|].
    rewrite Nat2Z.id in Hp.
    destruct (Hseat d p Hp) as (_ & _ & ->).
    replace (Z.of_nat d - Z.of_nat d + Z.of_nat (length (players s)))
      with (0 + 1 * Z.of_nat (length (players s))) by lia.
    rewrite Z.mod_add by lia. by rewrite Z.mod_0_l by lia.
Qed.

Lemma session_seats_witness :
  (∀ i j p q,
     players (recordWin sample_session sample_ron) !! i = Some p →
     players (recordWin sample_session sample_ron) !! j = Some q →
     i ≠ j → seatWind p ≠ seatWind q)
  ∧ (∀ p, selectDealer (recordWin sample_session sample_ron) = Some p →
       seatWind p = Some East).
Proof.
  apply (session_seats (recordWin sample_session sample_ron)).
  apply session_recordWin, session_initGame. right. reflexivity.
Defined.

(** ** Initialisation *)

(** X12 (initGame).  [initGame] takes from the players it is given their
    identifier, name and icon and nothing else: the score, seat wind and
    dealer flag of the caller's records, and the store before the call, do
    not reach the result (the seat winds picked on the setup screen
    included).  Every player starts with [startingScore]. *)
Theorem initGame_roster_only (s s' : GameStore) (ps ps' : list Player)
    (startingScore : Z) :
  roster ps = roster ps' →
  initGame s ps startingScore = initGame s' ps' startingScore
  ∧ ∀ p, p ∈ players (initGame s ps startingScore) → score p = startingScore.
Proof.
  intros Hroster. split.
  - unfold initGame. rewrite (roster_length _ _ Hroster). f_equal.
    apply list_eq. intros i. rewrite !list_lookup_imap.
    assert (roster ps !! i = roster ps' !! i) as Hi by (by rewrite Hroster).
    unfold roster in Hi. rewrite !list_lookup_fmap in Hi.
    destruct (ps !! i) as [p|], (ps' !! i) as [p'|]; try done.
    cbn in Hi. injection Hi as Hid Hname Hicon. cbn.
    by rewrite Hid, Hname, Hicon.
  - intros p Hp. cbn [initGame players] in Hp.
    apply list_elem_of_lookup in Hp as [i Hi].
    rewrite list_lookup_imap in Hi.
    destruct (ps !! i); [|done]. by injection Hi as <-.
Qed.

Lemma initGame_roster_only_witness :
  initGame initial_store four_players 30000
  = initGame sample_session
      (reassign (Int 2) 4 (apply_payments ∅ four_players)) 30000
  ∧ ∀ p, p ∈ players (initGame initial_store four_players 30000) →
      score p = 30000.
Proof.
  apply (initGame_roster_only initial_store sample_session four_players
           (reassign (Int 2) 4 (apply_payments ∅ four_players)) 30000).
  reflexivity.
Defined.

(** * The screens around the store *)

(** ** Hand levels *)

(** X13 (hand level).  The level of a hand never falls when han rises; a hand
    is [normal], and the score sheet shows no level label, exactly when it
    is no yakuman and has fewer than five han; and the level's label is
    empty exactly for [normal]. *)
Theorem getHandLevel_monotone (han han' : Z) (isYakuman : bool) :
  han ≤ han' →
  (level_rank (getHandLevel han isYakuman)
   ≤ level_rank (getHandLevel han' isYakuman))%nat
  ∧ (getHandLevel han isYakuman = normal ↔ isYakuman = false ∧ han < 5)
  ∧ (hasLevelLabel han isYakuman = true ↔ isYakuman = true ∨ 5 ≤ han)
  ∧ (HAND_LEVEL_LABELS_en (getHandLevel han isYakuman) = ""
     ↔ getHandLevel han isYakuman = normal).
Proof.
  intros Hle. unfold hasLevelLabel, getHandLevel.
  destruct isYakuman; cbn.
  { repeat split; (done || lia || intuition congruence). }
  repeat (match goal with
          | |- context [?a <=? ?b] =>
              destruct (Z.leb_spec a b)
          end); cbn; repeat split; try (done || lia);
    intuition (congruence || lia).
Qed.

Lemma getHandLevel_monotone_witness :
  (level_rank (getHandLevel 7 false) ≤ level_rank (getHandLevel 12 false))%nat
  ∧ (getHandLevel 7 false = normal ↔ false = false ∧ 7 < 5)
  ∧ (hasLevelLabel 7 false = true ↔ false = true ∨ 5 ≤ 7)
  ∧ (HAND_LEVEL_LABELS_en (getHandLevel 7 false) = ""
     ↔ getHandLevel 7 false = normal).
Proof. apply (getHandLevel_monotone 7 12 false). lia. Defined.

(** ** The draw sheet *)

Lemma NoDup_togglePlayer t x : NoDup t → NoDup (togglePlayer t x).
Proof.
  intros Hnd. unfold togglePlayer, Set_delete, Set_add, Set_has.
  destruct (decide (x ∈ t)) as [Hin|Hout].
  - rewrite bool_decide_eq_true_2 by done. by apply NoDup_filter.
  - rewrite !bool_decide_eq_false_2 by done.
    apply NoDup_app. split; [done|]. split; [|apply NoDup_singleton].
    intros k Hk ->%list_elem_of_singleton. done.
Qed.

Lemma elem_togglePlayer t x k :
  k ∈ togglePlayer t x ↔ if decide (k = x) then k ∉ t else k ∈ t.
Proof.
  unfold togglePlayer, Set_delete, Set_add, Set_has.
  destruct (decide (x ∈ t)) as [Hin|Hout].
  - rewrite bool_decide_eq_true_2 by done. rewrite list_elem_of_filter.
    destruct (decide (k = x)) as [->|Hne]; tauto.
  - rewrite !bool_decide_eq_false_2 by done.
    rewrite elem_of_app, list_elem_of_singleton.
    destruct (decide (k = x)) as [->|Hne]; tauto.
Qed.

Lemma presses_parity presses k :
  k ∈ foldl togglePlayer [] presses
  ↔ Nat.odd (length (filter (λ x, x = k) presses)) = true.
Proof.
  induction presses as [|x presses IH] using rev_ind.
  - split; [by intros ?%not_elem_of_nil | done].
  - rewrite foldl_app. cbn [foldl]. rewrite elem_togglePlayer.
    rewrite filter_app, length_app, filter_cons, filter_nil.
    destruct (decide (k = x)) as [->|Hne].
    + rewrite decide_True by done. cbn [length].
      rewrite Nat.add_1_r, Nat.odd_succ, <- Nat.negb_odd.
      rewrite IH. by destruct (Nat.odd _).
    + rewrite decide_False by done. cbn [length].
      by rewrite Nat.add_0_r.
Qed.

(** X14 (tenpai set).  Whatever players are pressed on the draw sheet, in
    whatever order and however often, the tenpai set handed to [recordDraw]
    is a duplicate-free list of identifiers of players of the table: it
    holds exactly the players pressed an odd number of times. *)
Theorem togglePlayer_presses (ps : list Player) (presses : list string) :
  (∀ k, k ∈ presses → k ∈ id <$> ps) →
  NoDup (foldl togglePlayer [] presses)
  ∧ (∀ k, k ∈ foldl togglePlayer [] presses → k ∈ id <$> ps)
  ∧ (∀ k, k ∈ foldl togglePlayer [] presses
          ↔ Nat.odd (length (filter (λ x, x = k) presses)) = true).
Proof.
  intros Hpresses. split; [|split].
  - induction presses as [|x presses IH] using rev_ind; [constructor|].
    rewrite foldl_app. apply NoDup_togglePlayer, IH.
    intros k Hk. apply Hpresses, elem_of_app. by left.
  - intros k Hk%presses_parity. apply Hpresses.
    destruct (filter (λ x, x = k) presses) as [|y l] eqn:Hf; [done|].
    assert (y ∈ filter (λ x, x = k) presses) as Hy by (rewrite Hf; by left).
    by apply list_elem_of_filter in Hy as [-> ?].
  - apply presses_parity.
Qed.

Lemma togglePlayer_presses_witness :
  NoDup (foldl togglePlayer [] ["player-1"; "player-3"; "player-1"])
  ∧ (∀ k, k ∈ foldl togglePlayer [] ["player-1"; "player-3"; "player-1"] →
       k ∈ id <$> four_players)
  ∧ (∀ k, k ∈ foldl togglePlayer [] ["player-1"; "player-3"; "player-1"]
          ↔ Nat.odd (length (filter (λ x, x = k)
                               ["player-1"; "player-3"; "player-1"])) = true).
Proof.
  apply (togglePlayer_presses four_players
           ["player-1"; "player-3"; "player-1"]).
  intros k Hk. repeat (apply elem_of_cons in Hk as [-> | Hk]; [compute_done|]).
  by apply not_elem_of_nil in Hk.
Defined.

(** X15 (preview).  For a tenpai set of players with distinct identifiers,
    the two amounts of the payment preview are the amounts [recordDraw]
    will apply: every tenpai player's entry of [computeDrawPayments] is
    [receivePerTenpai] and every other player's is [-payPerNoten]; and when
    the preview says "No exchange" both amounts are zero. *)
Theorem drawPreview_payments (ps : list Player) (tenpaiIds : list string) :
  NoDup (id <$> ps) → NoDup tenpaiIds →
  (∀ k, k ∈ tenpaiIds → k ∈ id <$> ps) →
  (∀ p, p ∈ ps →
     computeDrawPayments ps tenpaiIds !! id p
     = Some (if decide (id p ∈ tenpaiIds) then (drawPreview ps tenpaiIds).1
             else - (drawPreview ps tenpaiIds).2))
  ∧ (previewNoExchange ps tenpaiIds = true → drawPreview ps tenpaiIds = (0, 0)).
Proof.
  intros Hnd Hten Hsub.
  pose proof (tenpai_count_split ps tenpaiIds Hnd Hten Hsub) as Hsplit.
  rewrite noten_count_players in Hsplit.
  pose proof (no_exchange_guard ps tenpaiIds Hnd Hten Hsub) as Hguard.
  unfold previewNoExchange, drawPreview.
  destruct ((Z.of_nat (length tenpaiIds) =? 0)
            || (Z.of_nat (length tenpaiIds) =? Z.of_nat (length ps)))
    eqn:Hg.
  - assert ((0 <? Z.of_nat (length tenpaiIds))
            && (Z.of_nat (length tenpaiIds) <? Z.of_nat (length ps)) = false)
      as ->.
    { apply orb_true_iff in Hg as [H0%Z.eqb_eq | Hn%Z.eqb_eq].
      - apply andb_false_iff. left. apply Z.ltb_ge. lia.
      - apply andb_false_iff. right. apply Z.ltb_ge. lia. }
    split; [|done]. intros p Hp.
    rewrite lookup_computeDrawPayments by done.
    rewrite decide_True by (by apply list_elem_of_fmap_2).
    rewrite decide_True by (by apply Hguard). by case_decide.
  - assert ((0 <? Z.of_nat (length tenpaiIds))
            && (Z.of_nat (length tenpaiIds) <? Z.of_nat (length ps)) = true)
      as ->.
    { apply orb_false_iff in Hg as [H0%Z.eqb_neq Hn%Z.eqb_neq].
      apply andb_true_iff. split; apply Z.ltb_lt; lia. }
    split; [|done]. intros p Hp.
    rewrite lookup_computeDrawPayments by done.
    rewrite decide_True by (by apply list_elem_of_fmap_2).
    rewrite decide_False by (rewrite <- Hguard; congruence).
    cbn [fst snd].
    replace (Z.of_nat (length ps) - Z.of_nat (length tenpaiIds))
      with (Z.of_nat (length (filter (λ q, id q ∉ tenpaiIds) ps))) by lia.
    by case_decide.
Qed.

Lemma drawPreview_payments_witness :
  (∀ p, p ∈ four_players →
     computeDrawPayments four_players ["player-3"] !! id p
     = Some (if decide (id p ∈ ["player-3"]) then 3000 else - 1000))
  ∧ (previewNoExchange four_players ["player-3"] = true →
     drawPreview four_players ["player-3"] = (0, 0)).
Proof.
  apply (drawPreview_payments four_players ["player-3"]).
  - compute_done.
  - compute_done.
  - intros k Hk. apply list_elem_of_singleton in Hk. subst k. compute_done.
Defined.

Lemma assign_all_Permutation v t t' m :
  t ≡ₚ t' → assign_all v t m = assign_all v t' m.
Proof.
  intros Hperm. apply map_eq. intros k. rewrite !lookup_assign_all.
  destruct (decide (k ∈ t)) as [Hk|Hk].
  - rewrite decide_True; [done|]. by rewrite <- Hperm.
  - rewrite decide_False; [done|]. by rewrite <- Hperm.
Qed.

(** X16 (order of the tenpai set).  [computeDrawPayments] does not depend on
    the order of the tenpai identifiers: pressing the same players in
    another order on the draw sheet leads to the same payments. *)
Theorem computeDrawPayments_Permutation (ps : list Player)
    (tenpai tenpai' : list string) :
  tenpai ≡ₚ tenpai' →
  computeDrawPayments ps tenpai = computeDrawPayments ps tenpai'.
Proof.
  intros Hperm. unfold computeDrawPayments.
  rewrite <- (Permutation_length Hperm).
  rewrite <- (list_filter_iff (λ i, i ∉ tenpai) (λ i, i ∉ tenpai'))
    by (intros i; by rewrite Hperm).
  destruct (_ || _); [done|].
  by rewrite (assign_all_Permutation _ tenpai tenpai').
Qed.

Lemma computeDrawPayments_Permutation_witness :
  computeDrawPayments four_players ["player-1"; "player-3"]
  = computeDrawPayments four_players ["player-3"; "player-1"].
Proof.
  apply (computeDrawPayments_Permutation four_players).
  apply perm_swap.
Defined.

(** ** The result screen *)

Lemma insert_by_score_Permutation p l : insert_by_score p l ≡ₚ p :: l.
Proof.
  induction l as [|q l IH]; [done|]. cbn [insert_by_score].
  destruct (score q <=? score p); [done|].
  rewrite IH. apply perm_swap.
Qed.

Lemma sort_by_score_Permutation ps : sort_by_score ps ≡ₚ ps.
Proof.
  induction ps as [|p ps IH]; [done|]. cbn [sort_by_score foldr].
  fold (sort_by_score ps). by rewrite insert_by_score_Permutation, IH.
Qed.

Lemma insert_by_score_sorted p l :
  StronglySorted (λ a b, score b ≤ score a) l →
  StronglySorted (λ a b, score b ≤ score a) (insert_by_score p l).
Proof.
  induction l as [|q l IH]; intros Hl; cbn [insert_by_score].
  - apply StronglySorted_cons. split; [constructor | constructor].
  - apply StronglySorted_cons in Hl as [Hq Hl].
    destruct (Z.leb_spec (score q) (score p)) as [Hle|Hgt].
    + apply StronglySorted_cons. split.
      * constructor; [done|]. eapply Forall_impl; [exact Hq|].
        intros r Hr. cbn in *. lia.
      * apply StronglySorted_cons. done.
    + apply StronglySorted_cons. split; [|by apply IH].
      rewrite insert_by_score_Permutation. constructor; [lia | done].
Qed.

Lemma sort_by_score_sorted ps :
  StronglySorted (λ a b, score b ≤ score a) (sort_by_score ps).
Proof.
  induction ps as [|p ps IH]; [constructor|].
  cbn [sort_by_score foldr]. by apply insert_by_score_sorted.
Qed.

Lemma insert_by_score_stable (v : Z) p l :
  filter (λ q, score q = v) (insert_by_score p l)
  = filter (λ q, score q = v) (p :: l).
Proof.
  induction l as [|q l IH]; [done|]. cbn [insert_by_score].
  destruct (Z.leb_spec (score q) (score p)) as [Hle|Hgt]; [done|].
  rewrite filter_cons, IH, !filter_cons.
  destruct (decide (score q = v)), (decide (score p = v)); done || lia.
Qed.

Lemma sort_by_score_stable (v : Z) ps :
  filter (λ q, score q = v) (sort_by_score ps) = filter (λ q, score q = v) ps.
Proof.
  induction ps as [|p ps IH]; [done|]. cbn [sort_by_score foldr].
  fold (sort_by_score ps).
  by rewrite insert_by_score_stable, !filter_cons, IH.
Qed.

(** X17 (ranking).  The result screen lists every player of the table exactly
    once, in non-increasing score order, players with equal scores in
    seating order; the entry at position [i] has rank [i] and as delta the
    player's score less the starting score. *)
Theorem ranked_spec (s : GameStore) :
  player <$> ranked s ≡ₚ players s
  ∧ StronglySorted (λ a b, score b ≤ score a) (player <$> ranked s)
  ∧ (∀ v, filter (λ q, score q = v) (player <$> ranked s)
          = filter (λ q, score q = v) (players s))
  ∧ (∀ i r, ranked s !! i = Some r →
       rank r = i ∧ delta r = score (player r) - startingScore s).
Proof.
  assert (player <$> ranked s = sort_by_score (players s)) as Hps.
  { unfold ranked. apply list_eq. intros i.
    rewrite list_lookup_fmap, list_lookup_imap.
    by destruct (sort_by_score (players s) !! i). }
  rewrite Hps. split; [apply sort_by_score_Permutation|].
  split; [apply sort_by_score_sorted|].
  split; [intros v; apply sort_by_score_stable|].
  intros i r Hr. unfold ranked in Hr. rewrite list_lookup_imap in Hr.
  destruct (sort_by_score (players s) !! i); [|done]. by injection Hr as <-.
Qed.

Lemma sum_deltas_ranked s :
  sum_deltas (ranked s)
  = sum_scores (players s) - Z.of_nat (length (players s)) * startingScore s.
Proof.
  rewrite <- (Permutation_length (sort_by_score_Permutation (players s))).
  assert (sum_scores (players s) = sum_scores (sort_by_score (players s)))
    as ->.
  { unfold sum_scores.
    apply (foldr_permutation (=) (λ p acc, score p + acc) 0).
    - intros j1 a1 j2 a2 b _ _ _. lia.
    - by rewrite sort_by_score_Permutation. }
  unfold ranked.
  generalize (sort_by_score (players s)). intros l.
  cut (∀ (f : nat → Player → RankedPlayer),
         (∀ i p, delta (f i p) = score p - startingScore s) →
         sum_deltas (imap f l)
         = sum_scores l - Z.of_nat (length l) * startingScore s).
  { intros H. by apply H. }
  induction l as [|p l IH]; intros f Hf; [done|].
  rewrite imap_cons. cbn [sum_deltas sum_scores foldr length].
  fold (sum_deltas (imap (f ∘ S) l)). fold (sum_scores l).
  rewrite Hf, IH by (intros; apply Hf). lia.
Qed.

(** X18 (deltas).  In a match as the screens play it the deltas of the result
    screen add up to minus a thousand points for every bet in the pool or
    found on the table by a recorded win: they add up to zero only if no
    bet was lost. *)
Theorem played_sum_deltas (s : GameStore) :
  played s →
  sum_deltas (ranked s)
  = - (1000 * riichiBets s + 1000 * claimed_bets (rounds s)).
Proof.
  intros (_ & _ & Hled)%played_facts. unfold ledger_balanced in Hled.
  rewrite sum_deltas_ranked. lia.
Qed.

Lemma played_sum_deltas_witness :
  sum_deltas
    (ranked (endGame (recordWin (declareRiichi sample_session 0) sample_ron)))
  = - (1000 * 0 + 1000 * 1).
Proof.
  apply (played_sum_deltas
           (endGame (recordWin (declareRiichi sample_session 0) sample_ron))).
  apply played_endGame.
  apply played_recordWin; [apply played_declareRiichi| |done].
  - apply played_initGame; [by right | compute_done].
  - cbn. lia.
  - apply (settlement_ron
             (players (declareRiichi sample_session 0))
             "player-2" "player-0" 3900); [compute_done | compute_done | done].
Defined.

(** ** The scoring request *)

(** X19 (game context).  In every state of a session the game context sent to
    the scoring service is well formed: [player_position] is 2 or 3, the
    dealer position is a seat between 0 and [player_position], the round
    number lies between 1 and 4, the wind is east or south, and neither
    honba nor the number of riichi sticks is negative. *)
Theorem session_game_context (s : GameStore) :
  session s →
  let c := game_context s in
  (GameContextInput.player_position c = 2
   ∨ GameContextInput.player_position c = 3)
  ∧ (∃ d n : Z,
       GameContextInput.dealer_position c = Int d
       ∧ GameContextInput.round_number c = Int n
       ∧ 0 ≤ d ≤ GameContextInput.player_position c
       ∧ 1 ≤ n ≤ 4)
  ∧ (GameContextInput.round_wind c = east
     ∨ GameContextInput.round_wind c = south)
  ∧ 0 ≤ GameContextInput.honba c
  ∧ 0 ≤ GameContextInput.riichi_sticks c.
Proof.
  intros Hs. cbn.
  destruct (session_table_ok s Hs) as (Hcount & d0 & Hidx0 & Hd0 & _).
  destruct (session_round s Hs) as (d & n & Hidx & Hnum & Hn & _).
  destruct (session_pool s Hs) as [Hpool Hhonba].
  unfold pool_covers_flags in Hpool.
  split; [lia|]. split.
  - exists d, n. rewrite Hidx0 in Hidx. injection Hidx as <-.
    split; [done|]. split; [done|]. lia.
  - split; [|split; [done | lia]].
    unfold selectRoundWindLower. destruct (currentRoundWind s); auto.
Qed.

Lemma session_game_context_witness :
  let c := game_context (recordWin sample_session sample_ron) in
  (GameContextInput.player_position c = 2
   ∨ GameContextInput.player_position c = 3)
  ∧ (∃ d n : Z,
       GameContextInput.dealer_position c = Int d
       ∧ GameContextInput.round_number c = Int n
       ∧ 0 ≤ d ≤ GameContextInput.player_position c
       ∧ 1 ≤ n ≤ 4)
  ∧ (GameContextInput.round_wind c = east
     ∨ GameContextInput.round_wind c = south)
  ∧ 0 ≤ GameContextInput.honba c
  ∧ 0 ≤ GameContextInput.riichi_sticks c.
Proof.
  apply (session_game_context (recordWin sample_session sample_ron)).
  apply session_recordWin, session_initGame. right. reflexivity.
Defined.

(** ** The hand input, the meld sheet and the win sheet *)

Lemma snd_imap_pair {A} (g : nat → nat) (xs : list A) :
  snd <$> imap (λ i x, (g i, x)) xs = xs.
Proof.
  revert g. induction xs as [|x xs IH]; intros g; [done|].
  rewrite imap_cons. cbn. f_equal. apply (IH (g ∘ S)).
Qed.

Lemma remove_index_shift {A} (k index : nat) (xs : list A) :
  snd <$> filter (λ ix, ix.1 ≠ (k + index)%nat)
            (imap (λ i x, ((k + i)%nat, x)) xs)
  = delete index xs.
Proof.
  revert k index. induction xs as [|x xs IH]; intros k index; [done|].
  rewrite imap_cons. destruct index as [|index].
  - rewrite filter_cons_False by (cbn; lia). cbn [delete list_delete].
    assert (∀ l : list (nat * A), Forall (λ ix, ix.1 ≠ (k + 0)%nat) l →
              filter (λ ix, ix.1 ≠ (k + 0)%nat) l = l) as Hall.
    { induction 1; [done|]. rewrite filter_cons_True by done. by f_equal. }
    rewrite Hall.
    + apply (snd_imap_pair (λ i, (k + S i)%nat)).
    + apply Forall_forall. intros [j y] Hin.
      apply elem_of_lookup_imap in Hin as (i & z & Heq & _). cbn in Heq.
      injection Heq as -> ->. cbn. lia.
  - rewrite filter_cons_True by (cbn; lia).
    cbn [fmap list_fmap snd].
    change (delete (S index) (x :: xs)) with (x :: delete index xs).
    f_equal. rewrite <- (IH (S k) index).
    replace (k + S index)%nat with (S k + index)%nat by lia.
    do 2 f_equal. apply imap_ext. intros i y _. cbn. f_equal. lia.
Qed.

Lemma remove_index_delete {A} (index : nat) (xs : list A) :
  remove_index index xs = delete index xs.
Proof. apply (remove_index_shift 0). Qed.

Lemma occurrences_app tile xs ys :
  occurrences tile (xs ++ ys)
  = (occurrences tile xs + occurrences tile ys)%nat.
Proof. unfold occurrences. by rewrite filter_app, length_app. Qed.

Lemma occurrences_cons tile x xs :
  occurrences tile (x :: xs)
  = ((if decide (x = tile) then 1 else 0) + occurrences tile xs)%nat.
Proof.
  unfold occurrences. rewrite filter_cons. by destruct (decide (x = tile)).
Qed.

Lemma occurrences_delete tile xs index x :
  xs !! index = Some x →
  occurrences tile xs
  = ((if decide (x = tile) then 1 else 0)
     + occurrences tile (delete index xs))%nat.
Proof.
  revert index. induction xs as [|y xs IH]; intros [|index] Hx;
    try done; cbn in Hx.
  - injection Hx as ->. apply occurrences_cons.
  - change (delete (S index) (y :: xs)) with (y :: delete index xs).
    rewrite !occurrences_cons, (IH index Hx). lia.
Qed.

Lemma occurrences_Permutation tile xs ys :
  xs ≡ₚ ys → occurrences tile xs = occurrences tile ys.
Proof. intros H. unfold occurrences. by rewrite H. Qed.

Section hand_input.
Import HandInputScreen.

Ltac case_compare :=
  repeat match goal with
  | |- context [?a <=? ?b] => destruct (Z.leb_spec a b)
  | |- context [?a =? ?b] => destruct (Z.eqb_spec a b)
  end.

Lemma hand_ok_handleTilePress h tile :
  hand_ok h → hand_ok (handleTilePress h tile).
Proof.
  intros (Hmirror & Hlen & Hocc & Hwin). unfold handleTilePress.
  destruct (_ || _) eqn:Hguard; [done|].
  apply orb_false_elim in Hguard as [Hc Htotal].
  unfold totalSelected in Htotal. apply Z.leb_gt in Htotal.
  assert (default 0 (counts h !! tile) < 4) as Hlt.
  { destruct (counts h !! tile) as [c|]; cbn; [by apply Z.leb_gt | lia]. }
  split; [|split; [|split]]; unfold counts_mirror_tiles;
    cbn [tiles counts winTileIndex].
  - intros k. rewrite occurrences_app, occurrences_cons. unfold occurrences at 2.
    rewrite filter_nil. cbn [length].
    destruct (decide (tile = k)) as [Heq|Hne]; [subst k|].
    + rewrite lookup_insert_eq. cbn [default Datatypes.id]. rewrite (Hmirror tile). lia.
    + rewrite lookup_insert_ne by done. rewrite (Hmirror k). lia.
  - rewrite length_app. cbn [length]. lia.
  - intros k. rewrite occurrences_app, occurrences_cons. unfold occurrences at 2.
    rewrite filter_nil. cbn [length].
    destruct (decide (tile = k)) as [Heq|Hne]; [subst k|];
      [|specialize (Hocc k); lia].
    rewrite (Hmirror tile) in Hlt. lia.
  - right. rewrite length_app. cbn [length]. lia.
Qed.

Lemma hand_ok_handleSlotPress h index :
  hand_ok h → (index < length (tiles h))%nat →
  hand_ok (handleSlotPress h index).
Proof.
  intros (Hmirror & Hlen & Hocc & Hwin) Hindex.
  destruct (lookup_lt_is_Some_2 _ _ Hindex) as [x Hx].
  unfold handleSlotPress. rewrite Hx, remove_index_delete. cbn [default Datatypes.id].
  assert (length (delete index (tiles h)) = (length (tiles h) - 1)%nat)
    as Hdel by (apply length_delete; eauto).
  split; [|split; [|split]]; unfold counts_mirror_tiles;
    cbn [tiles counts winTileIndex].
  - intros k. pose proof (occurrences_delete k _ _ _ Hx) as Hk.
    destruct (decide (x = k)) as [Heq|Hne]; [subst k|].
    + rewrite lookup_insert_eq. cbn [default Datatypes.id].
      pose proof (Hmirror x) as Hm.
      destruct (counts h !! x) as [c|]; cbn [default Datatypes.id] in *; lia.
    + rewrite lookup_insert_ne by done. rewrite (Hmirror k). lia.
  - lia.
  - intros k. pose proof (occurrences_delete k _ _ _ Hx).
    specialize (Hocc k). lia.
  - rewrite Hdel.
    destruct (tiles h) as [|y [|z rest]] eqn:Htiles; cbn in Hindex; [lia| |].
    + left. destruct index; [|lia]. split; [done|].
      destruct Hwin as [[? _]|Hwin]; [done|]. cbn in Hwin.
      cbn [length]. case_compare; lia.
    + right. destruct Hwin as [[? _]|Hwin]; [done|].
      cbn [length] in *. case_compare; lia.
Qed.

Lemma entering_hand_ok h : entering h → hand_ok h.
Proof.
  induction 1 as [|h tile _ IH|h index _ IH Hi|h index _ IH Hi
                  |h tile _ IH|h meld _ IH|h index _ IH].
  - split; [|split; [|split]]; [| cbn; lia | | by left].
    + intros k. unfold initial. cbn [counts tiles]. by rewrite lookup_empty.
    + intros k. unfold occurrences. cbn. lia.
  - by apply hand_ok_handleTilePress.
  - by apply hand_ok_handleSlotPress.
  - destruct IH as (? & ? & ? & _). split; [done|]. split; [done|].
    split; [done|]. right. cbn. lia.
  - done.
  - done.
  - done.
Qed.

Lemma effectiveWinIndex_ok h :
  hand_ok h →
  effectiveWinIndex h = winTileIndex h
  ∧ (tiles h ≠ [] →
     0 ≤ winTileIndex h
     ∧ ∃ w, tiles h !! Z.to_nat (winTileIndex h) = Some w
            ∧ at_index (tiles h) (effectiveWinIndex h) = Some w).
Proof.
  intros (_ & _ & _ & Hwin). unfold effectiveWinIndex.
  destruct Hwin as [[Hnil ->]|Hwin].
  - rewrite Hnil. split; [done|]. by intros [].
  - rewrite (proj2 (Z.leb_le _ _)) by lia. split; [done|]. intros _.
    split; [lia|].
    destruct (lookup_lt_is_Some_2 (tiles h) (Z.to_nat (winTileIndex h)))
      as [w Hw]; [lia|].
    exists w. split; [done|]. unfold at_index, js_index.
    by rewrite (proj2 (Z.ltb_ge _ _)) by lia.
Qed.

End hand_input.

Section hand_calc.
Import HandInputScreen.

Lemma lookup_meldTileCounts ms tile :
  default 0 (meldTileCounts ms !! tile) = Z.of_nat (occurrences tile ms).
Proof.
  induction ms as [|x ms IH] using rev_ind.
  - unfold meldTileCounts. cbn [foldl]. by rewrite lookup_empty.
  - unfold meldTileCounts. rewrite foldl_app. cbn [foldl].
    fold (meldTileCounts ms).
    rewrite occurrences_app, occurrences_cons. unfold occurrences at 2.
    rewrite filter_nil. cbn [length].
    destruct (decide (x = tile)) as [Heq|Hne]; [subst x|].
    + rewrite lookup_insert_eq. cbn [default Datatypes.id]. rewrite IH. lia.
    + rewrite lookup_insert_ne by done. rewrite IH. lia.
Qed.

Lemma hand_loop win red L : ∀ mc ht hf,
  let kept := snd <$> filter (λ it : nat * string, Z.of_nat it.1 ≠ win) L in
  ∃ mc' ht',
    foldl (hand_step win red) (mc, ht, hf) L
    = (mc', ht ++ ht', hf ++ (red_flag red <$> ht'))
    ∧ ht' `sublist_of` kept
    ∧ (∀ tile, Z.of_nat (occurrences tile ht')
               = Z.max 0 (Z.of_nat (occurrences tile kept) - avail mc tile))
    ∧ ((∀ tile, avail mc tile = 0) → ht' = kept).
Proof.
  induction L as [|[i t] L IH]; intros mc ht hf kept.
  - exists mc, []. cbn. rewrite !app_nil_r. split; [done|]. split; [done|].
    split; [|done]. intros tile. unfold occurrences, avail. cbn. lia.
  - cbn [foldl hand_step]. subst kept. rewrite filter_cons. cbn [fst].
    destruct (Z.eqb_spec (Z.of_nat i) win) as [Heq|Hne].
    + rewrite decide_False by (intros H; by apply H). apply IH.
    + rewrite decide_True by done. cbn [fmap list_fmap snd].
      set (kept := snd <$> filter _ L) in *.
      destruct (mc !! t) as [c|] eqn:Hc;
        [destruct (negb (c =? 0) && (0 <? c)) eqn:Hpos|].
      * apply andb_true_iff in Hpos as [_ Hpos%Z.ltb_lt].
        destruct (IH (<[t := c - 1]> mc) ht hf) as (mc' & ht' & -> & Hsub & Hcount & _).
        exists mc', ht'. split; [done|]. split; [by apply sublist_cons|].
        split.
        -- intros tile. rewrite Hcount, occurrences_cons. unfold avail.
           destruct (decide (t = tile)) as [Heq|Hne']; [subst tile|].
           ++ rewrite lookup_insert_eq, Hc. cbn [default Datatypes.id]. lia.
           ++ rewrite lookup_insert_ne by done. lia.
        -- intros Hnone. specialize (Hnone t). unfold avail in Hnone.
           rewrite Hc in Hnone. cbn [default Datatypes.id] in Hnone. lia.
      * assert (avail mc t = 0) as Ht.
        { unfold avail. rewrite Hc. cbn [default Datatypes.id].
          apply andb_false_iff in Hpos as [Hz|Hz].
          - apply negb_false_iff, Z.eqb_eq in Hz. lia.
          - apply Z.ltb_ge in Hz. lia. }
        destruct (IH mc (ht ++ [t]) (hf ++ [default false (red !! t)]))
          as (mc' & ht' & -> & Hsub & Hcount & Hall).
        exists mc', (t :: ht'). rewrite <- !app_assoc. cbn [app fmap list_fmap].
        split; [done|]. split; [by apply sublist_skip|]. split.
        -- intros tile. rewrite !occurrences_cons, Nat2Z.inj_add, Hcount.
           destruct (decide (t = tile)) as [Heq|Hne']; [subst tile|]; lia.
        -- intros Hnone. by rewrite Hall.
      * assert (avail mc t = 0) as Ht.
        { unfold avail. rewrite Hc. cbn [default Datatypes.id]. lia. }
        destruct (IH mc (ht ++ [t]) (hf ++ [default false (red !! t)]))
          as (mc' & ht' & -> & Hsub & Hcount & Hall).
        exists mc', (t :: ht'). rewrite <- !app_assoc. cbn [app fmap list_fmap].
        split; [done|]. split; [by apply sublist_skip|]. split.
        -- intros tile. rewrite !occurrences_cons, Nat2Z.inj_add, Hcount.
           destruct (decide (t = tile)) as [Heq|Hne']; [subst tile|]; lia.
        -- intros Hnone. by rewrite Hall.
Qed.

Lemma kept_delete (win : Z) (xs : list string) :
  0 ≤ win →
  snd <$> filter (λ it : nat * string, Z.of_nat it.1 ≠ win)
            (imap (λ i tile, (i, tile)) xs)
  = delete (Z.to_nat win) xs.
Proof.
  intros Hwin. rewrite <- remove_index_delete. unfold remove_index.
  f_equal. apply list_filter_iff. intros [i x]. cbn. lia.
Qed.

End hand_calc.

Section hand_theorems.
Import HandInputScreen.

(** X20 (hand).  In every state the hand input goes through, [counts] holds
    for each tile the number of its occurrences in [tiles]; at most 14 tiles
    are selected and at most four of a kind; the effective winning index is
    the stored one, and it names a tile of the hand whenever the hand is not
    empty. *)
Theorem entering_hand (h : HandInputScreen.t) :
  entering h →
  counts_mirror_tiles h
  ∧ (length (tiles h) ≤ 14)%nat
  ∧ (∀ tile, (occurrences tile (tiles h) ≤ 4)%nat)
  ∧ effectiveWinIndex h = winTileIndex h
  ∧ (tiles h ≠ [] →
     ∃ w, at_index (tiles h) (effectiveWinIndex h) = Some w).
Proof.
  intros Hok%entering_hand_ok.
  destruct (effectiveWinIndex_ok h Hok) as [Heff Hw].
  destruct Hok as (Hmirror & Hlen & Hocc & _).
  split; [done|]. split; [done|]. split; [done|]. split; [done|].
  intros Hne. destruct (Hw Hne) as (_ & w & _ & Hat). by exists w.
Qed.

Lemma entering_sample_hand : entering sample_hand.
Proof.
  unfold sample_hand. apply entering_handleSlotPress.
  - cbn [foldl]. repeat apply entering_handleTilePress. apply entering_initial.
  - vm_compute. lia.
Qed.

Lemma entering_hand_witness :
  counts_mirror_tiles sample_hand
  ∧ (length (tiles sample_hand) ≤ 14)%nat
  ∧ (∀ tile, (occurrences tile (tiles sample_hand) ≤ 4)%nat)
  ∧ effectiveWinIndex sample_hand = winTileIndex sample_hand
  ∧ (tiles sample_hand ≠ [] →
     ∃ w, at_index (tiles sample_hand) (effectiveWinIndex sample_hand)
          = Some w).
Proof. apply (entering_hand sample_hand), entering_sample_hand. Defined.

(** X21 (marker).  Pressing the slot [index] of the hand deletes that one
    position.  The winning marker then names the last tile of the new hand
    when the removed tile was the winning one; the same tile as before when
    the removed slot lies after the winning tile, or lies before it while
    the winning tile was the last of the hand; and otherwise, when the
    removed slot lies before a winning tile that is not the last, the tile
    that followed the winning tile, since the stored index is kept. *)
Theorem handleSlotPress_marker (h : HandInputScreen.t) (index : nat) :
  entering h → (index < length (tiles h))%nat →
  let h' := handleSlotPress h index in
  let w := Z.to_nat (winTileIndex h) in
  tiles h' = delete index (tiles h)
  ∧ at_index (tiles h') (effectiveWinIndex h')
    = if decide (w = index) then last (tiles h')
      else if decide (w < index)%nat then tiles h !! w
      else if decide (w = length (tiles h) - 1)%nat then tiles h !! w
      else tiles h !! S w.
Proof.
  intros Hh Hindex h' w.
  pose proof (entering_hand_ok h Hh) as Hok.
  assert (entering h') as Hh' by by apply entering_handleSlotPress.
  pose proof (entering_hand_ok h' Hh') as Hok'.
  destruct (effectiveWinIndex_ok h' Hok') as [Heff' Hw'].
  assert (tiles h' = delete index (tiles h)) as Htiles
    by apply remove_index_delete.
  split; [done|].
  destruct Hok as (_ & _ & _ & [[Hnil _]|Hwin]);
    [rewrite Hnil in Hindex; cbn in Hindex; lia|].
  assert (length (tiles h') = (length (tiles h) - 1)%nat) as Hlen.
  { rewrite Htiles. apply length_delete. apply lookup_lt_is_Some_2. lia. }
  assert (winTileIndex h'
          = if Z.of_nat (length (tiles h')) <=? winTileIndex h
            then Z.of_nat (length (tiles h')) - 1
            else if winTileIndex h =? Z.of_nat index
                 then Z.of_nat (length (tiles h')) - 1
                 else winTileIndex h) as Hwin' by done.
  destruct (decide (tiles h' = [])) as [Hempty|Hnonempty].
  - rewrite Hempty in Hlen. cbn [length] in Hlen.
    rewrite decide_True by lia. rewrite Hempty. cbn [last].
    destruct Hok' as (_ & _ & _ & [[_ Hw1]|Hw1]);
      [|rewrite Hempty in Hw1; cbn in Hw1; lia].
    unfold at_index, js_index. rewrite Heff', Hw1. done.
  - destruct (Hw' Hnonempty) as (Hpos & x & Hx & ->).
    rewrite <- Hx, Htiles.
    revert Hwin'.
    destruct (Z.leb_spec (Z.of_nat (length (tiles h'))) (winTileIndex h));
      [|destruct (Z.eqb_spec (winTileIndex h) (Z.of_nat index))];
      intros ->.
    + destruct (decide (w = index)) as [Hwi|Hwi].
      * rewrite last_lookup, <- Htiles. f_equal. lia.
      * rewrite decide_False by lia. rewrite decide_True by lia.
        rewrite list_lookup_delete_ge by lia. f_equal. lia.
    + rewrite decide_True by lia.
      rewrite last_lookup, <- Htiles. f_equal. lia.
    + rewrite decide_False by lia. fold w.
      destruct (decide (w < index)%nat) as [Hlt|Hge].
      * by rewrite list_lookup_delete_lt.
      * rewrite decide_False by lia.
        by rewrite list_lookup_delete_ge by lia.
Qed.

Lemma handleSlotPress_marker_witness :
  let h := foldl handleTilePress initial ["1B"; "2B"; "3B"; "3B"] in
  let h' := handleSlotPress h 1 in
  let w := Z.to_nat (winTileIndex h) in
  tiles h' = delete 1%nat (tiles h)
  ∧ at_index (tiles h') (effectiveWinIndex h')
    = if decide (w = 1%nat) then last (tiles h')
      else if decide (w < 1)%nat then tiles h !! w
      else if decide (w = length (tiles h) - 1)%nat then tiles h !! w
      else tiles h !! S w.
Proof.
  apply (handleSlotPress_marker
           (foldl handleTilePress initial ["1B"; "2B"; "3B"; "3B"]) 1).
  - cbn [foldl]. repeat apply entering_handleTilePress. apply entering_initial.
  - vm_compute. lia.
Defined.


(** X23 (request).  With at least two tiles selected, [handleCalculate]
    builds a request.  Its winning tile is the marked tile of the hand.  Its
    hand tiles are a subsequence of the selection without the marked
    position, holding of each kind the occurrences there minus those in the
    melds (none when the melds hold more); the red flags are those of the
    hand tiles, one by one; with no melds the hand tiles are exactly the
    selection without the marked position. *)
Theorem handleCalculate_hand (s : GameStore) (isTsumo : bool)
    (h : HandInputScreen.t) :
  entering h → (2 ≤ length (tiles h))%nat →
  ∃ req w,
    handleCalculate s isTsumo h = Some req
    ∧ tiles h !! Z.to_nat (winTileIndex h) = Some w
    ∧ ScoreRequest.winning_tile req = Some w
    ∧ ScoreRequest.tiles req
        `sublist_of` delete (Z.to_nat (winTileIndex h)) (tiles h)
    ∧ (∀ tile,
         Z.of_nat (occurrences tile (ScoreRequest.tiles req))
         = Z.max 0
             (Z.of_nat (occurrences tile
                          (delete (Z.to_nat (winTileIndex h)) (tiles h)))
              - Z.of_nat (occurrences tile
                            (flat_map MeldEntry.tiles (melds h)))))
    ∧ ScoreRequest.red_tile_flags req
      = red_flag (redFlags h) <$> ScoreRequest.tiles req
    ∧ (melds h = [] →
       ScoreRequest.tiles req
       = delete (Z.to_nat (winTileIndex h)) (tiles h)).
Proof.
  intros Hh Hlen. pose proof (entering_hand_ok h Hh) as Hok.
  destruct (effectiveWinIndex_ok h Hok) as [Heff Hw].
  destruct Hw as (Hpos & w & Hw & Hat).
  { intros Hnil. rewrite Hnil in Hlen. cbn in Hlen. lia. }
  unfold handleCalculate. rewrite decide_False by lia.
  rewrite Hat, Heff.
  destruct (hand_loop (winTileIndex h) (redFlags h)
              (imap (λ i tile, (i, tile)) (tiles h))
              (meldTileCounts (flat_map MeldEntry.tiles (melds h))) [] [])
    as (mc' & ht' & -> & Hsub & Hcount & Hall).
  rewrite kept_delete in Hsub, Hcount, Hall by done.
  cbn [app]. eexists _, w. split; [reflexivity|].
  cbn [ScoreRequest.tiles ScoreRequest.winning_tile
       ScoreRequest.red_tile_flags].
  split; [done|]. split; [done|]. split; [done|]. split; [|split; [done|]].
  - intros tile. rewrite Hcount. unfold avail.
    rewrite lookup_meldTileCounts. lia.
  - intros Hnone. apply Hall. intros tile. unfold avail.
    rewrite lookup_meldTileCounts, Hnone. done.
Qed.

Lemma handleCalculate_hand_witness :
  ∃ req w,
    handleCalculate sample_session false sample_hand = Some req
    ∧ tiles sample_hand !! Z.to_nat (winTileIndex sample_hand) = Some w
    ∧ ScoreRequest.winning_tile req = Some w
    ∧ ScoreRequest.tiles req
        `sublist_of` delete (Z.to_nat (winTileIndex sample_hand))
                       (tiles sample_hand)
    ∧ (∀ tile,
         Z.of_nat (occurrences tile (ScoreRequest.tiles req))
         = Z.max 0
             (Z.of_nat (occurrences tile
                          (delete (Z.to_nat (winTileIndex sample_hand))
                             (tiles sample_hand)))
              - Z.of_nat (occurrences tile
                            (flat_map MeldEntry.tiles (melds sample_hand)))))
    ∧ ScoreRequest.red_tile_flags req
      = red_flag (redFlags sample_hand) <$> ScoreRequest.tiles req
    ∧ (melds sample_hand = [] →
       ScoreRequest.tiles req
       = delete (Z.to_nat (winTileIndex sample_hand)) (tiles sample_hand)).
Proof.
  apply (handleCalculate_hand sample_session false sample_hand).
  - apply entering_sample_hand.
  - vm_compute. lia.
Defined.

End hand_theorems.

Section meld_builder.
Import MeldBuilder.

Lemma collect_flat_map (m : Counts) (acc : list string) :
  foldl (λ tiles kc, tiles ++ replicate (Z.to_nat kc.2) kc.1) acc m
  = acc ++ flat_map (λ kc, replicate (Z.to_nat kc.2) kc.1) m.
Proof.
  revert acc. induction m as [|kc m IH]; intros acc; cbn.
  - by rewrite app_nil_r.
  - by rewrite IH, app_assoc.
Qed.

Lemma collect_cons k c (m : Counts) :
  collect ((k, c) :: m) = replicate (Z.to_nat c) k ++ collect m.
Proof.
  unfold collect. cbn [foldl]. by rewrite !collect_flat_map.
Qed.

Lemma meldTotal_shift (m : Counts) (a : Z) :
  foldl (λ a kc, a + kc.2) a m = a + meldTotal m.
Proof.
  unfold meldTotal. revert a. induction m as [|kc m IH]; intros a; cbn.
  - lia.
  - rewrite (IH (a + kc.2)), (IH (0 + kc.2)). lia.
Qed.

Lemma meldTotal_cons k c (m : Counts) :
  meldTotal ((k, c) :: m) = c + meldTotal m.
Proof. unfold meldTotal at 1. cbn [foldl]. by rewrite meldTotal_shift. Qed.

Lemma meld_set (m : Counts) (tile : string) :
  Forall (λ kc, 0 ≤ kc.2) m →
  let cur := default 0 (get m tile) in
  0 ≤ cur ≤ meldTotal m
  ∧ Forall (λ kc, 0 ≤ kc.2) (set m tile (cur + 1))
  ∧ collect (set m tile (cur + 1)) ≡ₚ tile :: collect m
  ∧ meldTotal (set m tile (cur + 1)) = meldTotal m + 1.
Proof.
  induction m as [|[k c] m IH]; intros Hpos; cbn [get set].
  - cbn. split; [done|]. split; [|done].
    apply Forall_cons. split; [cbn; lia | done].
  - apply Forall_cons in Hpos as [Hc Hpos]. cbn in Hc.
    destruct (IH Hpos) as (Hcur & Hall & Hperm & Htotal).
    destruct (decide (k = tile)) as [->|Hne]; cbn [default Datatypes.id].
    + split; [rewrite meldTotal_cons; lia|]. split.
      { apply Forall_cons. split; [cbn; lia | done]. }
      rewrite !collect_cons, !meldTotal_cons.
      split; [|lia].
      replace (Z.to_nat (c + 1)) with (S (Z.to_nat c)) by lia. done.
    + split; [rewrite meldTotal_cons; lia|]. split.
      { apply Forall_cons. split; [done | done]. }
      rewrite !collect_cons, !meldTotal_cons. split; [|lia].
      rewrite Hperm. by rewrite Permutation_middle.
Qed.

Lemma meld_loop_invariant (presses : list string) :
  let m := foldl handleTilePress [] presses in
  Forall (λ kc, 0 ≤ kc.2) m
  ∧ collect m ≡ₚ take 4 presses
  ∧ meldTotal m = Z.of_nat (length (take 4 presses)).
Proof.
  induction presses as [|x presses IH] using rev_ind; [done|].
  cbn zeta in *. rewrite foldl_app. cbn [foldl].
  set (m := foldl handleTilePress [] presses) in *.
  destruct IH as (Hpos & Hperm & Htotal).
  destruct (meld_set m x Hpos) as (Hcur & Hpos' & Hperm' & Htotal').
  rewrite length_take in Htotal.
  unfold handleTilePress.
  destruct (decide (length presses < 4)%nat) as [Hlt|Hge].
  - rewrite (proj2 (Z.leb_gt _ _)) by lia.
    rewrite (proj2 (Z.leb_gt _ _)) by lia. cbn [orb].
    rewrite take_ge in Hperm by lia.
    rewrite take_ge by (rewrite length_app; cbn; lia).
    split; [done|]. split.
    + rewrite Hperm', Hperm. by rewrite Permutation_app_comm.
    + rewrite Htotal', Htotal, length_app. cbn [length]. lia.
  - rewrite (proj2 (Z.leb_le _ _)) by lia. cbn [orb].
    rewrite take_app_le by lia. rewrite length_take. done.
Qed.

(** X24 (meld).  From the empty meld sheet, the first four presses are taken
    and later ones ignored: the tiles collected on confirmation are a
    permutation of the first four presses.  Confirming yields a meld exactly
    when at least three tiles were pressed; the meld has three or four
    tiles and the chosen open flag, and the counts start again empty. *)
Theorem meld_presses (presses : list string) (isOpen : bool) :
  let m := foldl handleTilePress [] presses in
  collect m ≡ₚ take 4 presses
  ∧ meldTotal m = Z.of_nat (length presses) `min` 4
  ∧ match handleConfirmMeld m isOpen with
    | Some (meld, m') =>
        (3 ≤ length presses)%nat
        ∧ m' = []
        ∧ MeldEntry.tiles meld ≡ₚ take 4 presses
        ∧ (length (MeldEntry.tiles meld) = 3%nat
           ∨ length (MeldEntry.tiles meld) = 4%nat)
        ∧ MeldEntry.isOpen meld = isOpen
    | None => (length presses < 3)%nat
    end.
Proof.
  intros m. destruct (meld_loop_invariant presses) as (_ & Hperm & Htotal).
  fold m in Hperm, Htotal. split; [done|].
  split; [rewrite Htotal, length_take; lia|].
  unfold handleConfirmMeld.
  pose proof (Permutation_length Hperm) as Hlen. rewrite length_take in Hlen.
  destruct (decide (length (collect m) < 3)%nat) as [Hlt|Hge]; [lia|].
  cbn [MeldEntry.tiles MeldEntry.isOpen].
  split; [lia|]. split; [done|]. split; [done|]. split; [lia|done].
Qed.

End meld_builder.




(** X26 (same player).  The win sheet lets a ron be entered whose loser is
    the winner: choose ron, a loser, then the same player as winner.  The
    selection may proceed, the score sheet builds its mapping for that one
    identifier, and [handleNext] then raises the sum of the scores by
    [total_points]. *)
Theorem round_modal_same_player (s : GameStore) (a : Player)
    (r : ScoreResponse.t) :
  NoDup (id <$> players s) → a ∈ players s → id a ≠ "" →
  ScoreResponse.is_winning r = true →
  ∃ st pay,
    RoundModal.selecting (players s) st
    ∧ RoundModal.canProceed st = true
    ∧ RoundModal.winnerId st = Some (id a)
    ∧ RoundModal.shownLoserId st = Some (id a)
    ∧ scoreSheetPayments (players s) (id a) (RoundModal.shownLoserId st)
        (RoundModal.isTsumo st) (ScoreResponse.is_winning r)
        (ScoreResponse.dealer_payment r) (ScoreResponse.non_dealer_payment r)
        (ScoreResponse.total_points r) = Ok pay
    ∧ sum_scores (players (handleNext st (Some r) pay s).1)
      = sum_scores (players s) + ScoreResponse.total_points r.
Proof.
  intros Hnd Ha Hne ->.
  exists (RoundModal.setWinnerId
            (RoundModal.setLoserId
               (RoundModal.setIsTsumo RoundModal.initial false) (id a))
            (id a)).
  eexists. split; [|split; [done|split; [done|split; [done|split]]]].
  - apply RoundModal.selecting_setWinnerId; [|done].
    apply RoundModal.selecting_setLoserId; [|done|done|done].
    apply RoundModal.selecting_setIsTsumo, RoundModal.selecting_initial.
  - unfold scoreSheetPayments, RoundModal.shownLoserId.
    cbn [RoundModal.isTsumo RoundModal.loserId RoundModal.setWinnerId
         RoundModal.setLoserId RoundModal.setIsTsumo truthy_id].
    rewrite decide_False by done. reflexivity.
  - unfold handleNext.
    cbn [RoundModal.winnerId RoundModal.setWinnerId truthy_id].
    rewrite decide_False by done. cbn [fst].
    match goal with
    | |- sum_scores (players (recordWin s ?round)) = _ =>
        destruct (recordWin_scores s round) as [-> _]
    end.
    f_equal. cbn [payments].
    rewrite <- (sum_payments_keys (id <$> players s)); [|done|].
    + rewrite !sum_payments_insert, sum_zero_payments by done.
      rewrite lookup_insert_eq, lookup_zero_payments.
      rewrite decide_True by (by apply list_elem_of_fmap_2). simpl. lia.
    + intros k. rewrite !lookup_insert_is_Some, zero_payments_dom.
      assert (id a ∈ id <$> players s) by (by apply list_elem_of_fmap_2).
      destruct (decide (id a = k)) as [<-|]; [split; [done | by left]|].
      split; [by intros [? | [_ [? | [_ ?]]]] | by right; split; [|right]].
Qed.

Lemma round_modal_same_player_witness :
  ∃ st pay,
    RoundModal.selecting (players sample_session) st
    ∧ RoundModal.canProceed st = true
    ∧ RoundModal.winnerId st = Some "player-2"
    ∧ RoundModal.shownLoserId st = Some "player-2"
    ∧ scoreSheetPayments (players sample_session) "player-2"
        (RoundModal.shownLoserId st) (RoundModal.isTsumo st)
        (ScoreResponse.is_winning sample_response)
        (ScoreResponse.dealer_payment sample_response)
        (ScoreResponse.non_dealer_payment sample_response)
        (ScoreResponse.total_points sample_response) = Ok pay
    ∧ sum_scores (players (handleNext st (Some sample_response) pay
                             sample_session).1)
      = sum_scores (players sample_session)
        + ScoreResponse.total_points sample_response.
Proof.
  apply (round_modal_same_player sample_session
           {| id := "player-2"; name := "player-2"; iconId := "icon";
              seatWind := Some West; score := 25000; isDealer := false |}
           sample_response).
  - compute_done.
  - vm_compute. repeat constructor.
  - done.
  - reflexivity.
Defined.

Lemma toggled_set presses :
  NoDup (foldl togglePlayer [] presses)
  ∧ (∀ k, k ∈ foldl togglePlayer [] presses → k ∈ presses).
Proof.
  induction presses as [|x presses [IHnd IHsub]] using rev_ind.
  - split; [constructor | done].
  - rewrite foldl_app. cbn [foldl]. split; [by apply NoDup_togglePlayer|].
    intros k. rewrite elem_togglePlayer, elem_of_app, list_elem_of_singleton.
    destruct (decide (k = x)); [by right | intros ?; left; by apply IHsub].
Qed.

(** X27 (draw sheet).  In a played match, after any presses on the player
    chips of the draw sheet, [handleConfirm] records the draw without a
    [TypeError]; the result is again a played match with a balanced ledger,
    the same sum of scores and the same bets on the table. *)
Theorem draw_sheet_confirm (s : GameStore) (presses : list string) :
  played s →
  (∀ k, k ∈ presses → k ∈ id <$> players s) →
  ∃ s',
    handleConfirm s (foldl togglePlayer [] presses) = Ok s'
    ∧ played s'
    ∧ ledger_balanced s'
    ∧ sum_scores (players s') = sum_scores (players s)
    ∧ riichiBets s' = riichiBets s.
Proof.
  intros Hs Hpresses.
  destruct (toggled_set presses) as [Hnd Hsub].
  destruct (played_facts s Hs) as (Hcount & Hids & _).
  destruct (recordDraw_returns s (foldl togglePlayer [] presses)) as [s' Hs'].
  { by apply session_table_ok, played_session. }
  exists s'. split; [done|].
  assert (played s') as Hplayed.
  { eapply played_recordDraw; [exact Hs|exact Hnd| |exact Hs'].
    intros k Hk. by apply Hpresses, Hsub. }
  split; [done|]. split; [by destruct (played_facts s' Hplayed) as (_&_&?)|].
  split; [|by eapply riichiBets_recordDraw].
  eapply scores_recordDraw; [done|done|exact Hnd| |exact Hs'].
  intros k Hk. by apply Hpresses, Hsub.
Qed.

Lemma draw_sheet_confirm_witness :
  ∃ s',
    handleConfirm sample_session
      (foldl togglePlayer [] ["player-1"; "player-3"; "player-1"]) = Ok s'
    ∧ played s'
    ∧ ledger_balanced s'
    ∧ sum_scores (players s') = sum_scores (players sample_session)
    ∧ riichiBets s' = riichiBets sample_session.
Proof.
  apply (draw_sheet_confirm sample_session
           ["player-1"; "player-3"; "player-1"]).
  - apply played_initGame; [by right | compute_done].
  - intros k Hk. 
    repeat (apply elem_of_cons in Hk as [->|Hk]; [compute_done|]).
    by apply not_elem_of_nil in Hk.
Defined.

(** ** The setup screen *)

Lemma cycleWind_in_range winds idx w :
  winds !! idx = Some (Some w) →
  cycleWind winds idx = <[idx := Some (next_wind w)]> winds.
Proof.
  intros Hw. unfold cycleWind. rewrite Hw.
  assert (idx < length winds)%nat as Hlt by (by eapply lookup_lt_Some).
  destruct w; cbn [WINDS_indexOf];
    (change (js_index WINDS _) with (Some South)
     || change (js_index WINDS _) with (Some West)
     || change (js_index WINDS _) with (Some North)
     || change (js_index WINDS _) with (Some East));
    cbn [next_wind]; by rewrite array_set_in_range.
Qed.

Lemma cycleWind_insert winds idx w :
  (idx < length winds)%nat →
  cycleWind (<[idx := Some w]> winds) idx
  = <[idx := Some (next_wind w)]> winds.
Proof.
  intros Hlt.
  rewrite (cycleWind_in_range _ _ w) by (by rewrite list_lookup_insert_eq).
  by rewrite list_insert_insert_eq.
Qed.

(** X28 (winds).  Pressing the wind badge of a seat on the setup screen moves
    that seat to the next wind of East, South, West, North (East after
    North), leaves the other seats and the length of the list as they are,
    and four presses on the same seat restore the list. *)
Theorem cycleWind_period (winds : list (option SeatWind)) (idx : nat)
    (w : SeatWind) :
  winds !! idx = Some (Some w) →
  cycleWind winds idx !! idx = Some (Some (next_wind w))
  ∧ (∀ j, j ≠ idx → cycleWind winds idx !! j = winds !! j)
  ∧ length (cycleWind winds idx) = length winds
  ∧ cycleWind (cycleWind (cycleWind (cycleWind winds idx) idx) idx) idx
    = winds.
Proof.
  intros Hw.
  assert (idx < length winds)%nat as Hlt by (by eapply lookup_lt_Some).
  rewrite (cycleWind_in_range _ _ _ Hw).
  split; [by rewrite list_lookup_insert_eq|].
  split; [by intros j Hj; rewrite list_lookup_insert_ne|].
  split; [by rewrite length_insert|].
  rewrite !cycleWind_insert by done.
  replace (next_wind (next_wind (next_wind (next_wind w)))) with w
    by (by destruct w).
  by apply list_insert_id.
Qed.

Lemma cycleWind_period_witness :
  let winds := Some <$> WINDS in
  cycleWind winds 2 !! 2%nat = Some (Some (next_wind West))
  ∧ (∀ j, j ≠ 2%nat → cycleWind winds 2 !! j = winds !! j)
  ∧ length (cycleWind winds 2) = length winds
  ∧ cycleWind (cycleWind (cycleWind (cycleWind winds 2) 2) 2) 2 = winds.
Proof.
  apply (cycleWind_period (Some <$> WINDS) 2 West). reflexivity.
Defined.
